(** * Market_Trader: the quantitative signal engine

    A shallow embedding of the numeric core of the repository
    ([FINAL/functions/calculations.py], [FINAL/functions/options_logic.py]
    and the sibling definitions kept in [FINAL/TradeBot_V1.py]) together
    with the properties its specification states about it.

    Numbers.  The Python code computes on IEEE doubles held in pandas
    columns.  Two models of a cell are used, each where it is faithful to
    what the code computes.

    - [fl] (module [PyFloat]): either [NaN] or a real number, with
      pandas' NaN discipline kept explicit (NaN propagates through
      arithmetic, every ordered comparison with NaN is false, [fillna],
      [dropna], [clip] and [cumsum] treat it as pandas does).  Rounding
      and the two infinities are not represented; [np.log], [np.sqrt] and
      [scipy.stats.norm.cdf] are the real logarithm, square root and the
      standard normal distribution function.  It carries the properties
      about guards, filters, defaults, bins and NaN paths.

    - [float] (module [Binary64]): the binary64 numbers themselves, every
      operation rounded to nearest even as the hardware rounds it.  It
      carries the properties that depend on how a computed number rounds:
      the trend score of [analyze_market_trend], the VWAP of a bar and
      the order of two results of [calculate_pop].  [np.log] and
      [scipy.stats.norm.cdf], whose last digit the source does not fix,
      are parameters there.

    The section [RoundingToNearest] derives, from the definition of the
    rounded operations, that division by a positive number, addition and
    subtraction keep the order of their first argument. *)

From Stdlib Require Import Floats.
From Stdlib Require Import Reals Lra Lia ZArith Psatz List Bool String Sorted
  Permutation.
Import ListNotations.
Open Scope R_scope.
Set Warnings "-inexact-float".

(** ** Binary64 cells *)

Module Binary64.
Local Open Scope float_scope.

(** A value met where a number is expected: a double (Python's [float],
    [np.float64]; an [int] is converted on first use) or something that is
    not a number at all. *)
Inductive pyval : Type :=
| PyNonNumeric
| PyDouble (x : float).

(** [isinstance(x, (int, float, np.number))] *)
Definition is_number (o : pyval) : bool :=
  match o with
  | PyDouble _ => true
  | PyNonNumeric => false
  end.

Definition as_double (o : pyval) : float :=
  match o with
  | PyDouble x => x
  | PyNonNumeric => nan
  end.

(** [Series.fillna(d)] and [Series.replace(0, np.nan)] on one cell;
    [-0.0 == 0] holds, so both zeros are replaced. *)
Definition fillna (d x : float) : float := if is_nan x then d else x.
Definition replace_zero_with_nan (x : float) : float :=
  if x =? 0 then nan else x.

(** [np.cumsum]: the first cell is copied, every later one is the sum of
    its predecessor in the result and the cell. *)
Fixpoint np_cumsum_from (acc : float) (l : list float) : list float :=
  match l with
  | [] => []
  | x :: t => (acc + x) :: np_cumsum_from (acc + x) t
  end.
Definition np_cumsum (l : list float) : list float :=
  match l with
  | [] => []
  | x :: t => x :: np_cumsum_from x t
  end.

(** [Series.cumsum()]: pandas sums the cells with every NaN taken as [0.0]
    and writes NaN back at the masked positions. *)
Definition cumsum (l : list float) : list float :=
  map (fun cs => if is_nan (fst cs) then nan else snd cs)
      (combine l (np_cumsum (map (fillna 0) l))).

(** [Series.ffill()] and [Series.bfill()] *)
Fixpoint ffill_from (prev : float) (l : list float) : list float :=
  match l with
  | [] => []
  | x :: t =>
      if is_nan x then prev :: ffill_from prev t else x :: ffill_from x t
  end.
Definition ffill : list float -> list float := ffill_from nan.
Definition bfill (l : list float) : list float := rev (ffill (rev l)).

(** Python's builtin [min(x, 100)]: the first argument is kept unless the
    second compares smaller. *)
Definition py_min (x y : float) : float := if y <? x then y else x.

(** Python's builtin [sum] over doubles, from the [int] 0: additions from
    left to right (CPython 3.12 and later compensate the rounding errors
    of the partial sums). *)
Definition py_sum (l : list float) : float := fold_left add l 0.

(** [np.clip(x, lo, hi)]: [min(max(x, lo), hi)], a NaN is passed on. *)
Definition np_clip (x lo hi : float) : float :=
  let y := if is_nan x then x else if lo <? x then x else lo in
  if is_nan y then y else if y <? hi then y else hi.

(** What is asked of a library routine on doubles: it keeps the order
    where it returns numbers, and it returns NaN on NaN. *)
Definition non_decreasing (f : float -> float) : Prop :=
  forall x y,
    (x <=? y) = true -> is_nan (f x) = false -> is_nan (f y) = false ->
    (f x <=? f y) = true.

Definition keeps_nan (f : float -> float) : Prop := is_nan (f nan) = true.

End Binary64.
Export Binary64.

(** ** Doubles with NaN *)

Module PyFloat.

Inductive fl : Type :=
| NaN
| Num (r : R).

Definition Rltb (x y : R) : bool := if Rlt_dec x y then true else false.
Definition Rleb (x y : R) : bool := if Rle_dec x y then true else false.
Definition Reqb (x y : R) : bool := if Req_dec_T x y then true else false.

Definition lift1 (f : R -> R) (a : fl) : fl :=
  match a with
  | Num x => Num (f x)
  | NaN => NaN
  end.

Definition lift2 (f : R -> R -> R) (a b : fl) : fl :=
  match a, b with
  | Num x, Num y => Num (f x y)
  | _, _ => NaN
  end.

Definition cmp2 (f : R -> R -> bool) (a b : fl) : bool :=
  match a, b with
  | Num x, Num y => f x y
  | _, _ => false
  end.

Definition fadd : fl -> fl -> fl := lift2 Rplus.
Definition fsub : fl -> fl -> fl := lift2 Rminus.
Definition fmul : fl -> fl -> fl := lift2 Rmult.
Definition fneg : fl -> fl := lift1 Ropp.
Definition fabs : fl -> fl := lift1 Rabs.

(** [x / y] on doubles.  A zero divisor would give an infinity (or NaN for
    [0/0]) in numpy; infinities are outside [fl], and the result is [NaN]
    there.  Every division of the modelled code that a theorem below
    reaches has a divisor shown to be non-zero. *)
Definition fdiv (a b : fl) : fl :=
  match a, b with
  | Num x, Num y => if Reqb y 0 then NaN else Num (x / y)
  | _, _ => NaN
  end.

(** [np.sqrt]: NaN on a negative argument. *)
Definition fsqrt (a : fl) : fl :=
  match a with
  | Num x => if Rltb x 0 then NaN else Num (sqrt x)
  | NaN => NaN
  end.

(** [np.log]: NaN on a negative argument; [-inf] at zero is outside [fl]. *)
Definition flog (a : fl) : fl :=
  match a with
  | Num x => if Rleb x 0 then NaN else Num (ln x)
  | NaN => NaN
  end.

Definition flt : fl -> fl -> bool := cmp2 Rltb.
Definition fle : fl -> fl -> bool := cmp2 Rleb.
Definition fgt (a b : fl) : bool := flt b a.
Definition fge (a b : fl) : bool := fle b a.
Definition feq : fl -> fl -> bool := cmp2 Reqb.
(** [a != b] is true as soon as one side is NaN. *)
Definition fne (a b : fl) : bool := negb (feq a b).

(** [pd.notna], [pd.isna] *)
Definition notna (a : fl) : bool :=
  match a with
  | Num _ => true
  | NaN => false
  end.
Definition isna (a : fl) : bool := negb (notna a).

(** [Series.fillna(d)] on one cell. *)
Definition fillna (d : R) (a : fl) : fl :=
  match a with
  | NaN => Num d
  | Num _ => a
  end.

(** [Series.replace(v, np.nan)] on one cell. *)
Definition replace_with_nan (v : R) (a : fl) : fl :=
  match a with
  | Num x => if Reqb x v then NaN else a
  | NaN => NaN
  end.

(** [np.clip(x, lo, hi)] and [Series.clip(lo, hi)]: NaN stays NaN. *)
Definition clipR (lo hi x : R) : R := Rmin (Rmax x lo) hi.
Definition fclip (lo hi : R) : fl -> fl := lift1 (clipR lo hi).

(** Python's builtin [max(0, x)]: the first argument is kept unless the
    second compares greater, so [max(0, nan)] is [0]. *)
Definition py_max0 (x : fl) : fl := if fgt x (Num 0) then x else Num 0.

Declare Scope fl_scope.
Delimit Scope fl_scope with fl.
Bind Scope fl_scope with fl.
Infix "+" := fadd : fl_scope.
Infix "-" := fsub : fl_scope.
Infix "*" := fmul : fl_scope.
Infix "/" := fdiv : fl_scope.
Notation "- x" := (fneg x) : fl_scope.
Infix "<?" := flt (at level 70) : fl_scope.
Infix "<=?" := fle (at level 70) : fl_scope.
Infix ">?" := fgt (at level 70) : fl_scope.
Infix ">=?" := fge (at level 70) : fl_scope.
Infix "==?" := feq (at level 70) : fl_scope.
Infix "!=?" := fne (at level 70) : fl_scope.

(** A Python object handed to a numeric routine: a double, or something
    that is not a number at all ([None], a string, ...). *)
Inductive pyobj : Type :=
| PyOther
| PyFloat (x : fl).

(** [isinstance(x, (int, float, np.number))] *)
Definition is_numeric (o : pyobj) : bool :=
  match o with
  | PyFloat _ => true
  | PyOther => false
  end.

Definition as_fl (o : pyobj) : fl :=
  match o with
  | PyFloat x => x
  | PyOther => NaN
  end.

End PyFloat.
Export PyFloat.

(** ** The standard normal distribution function *)

Module Scipy.

(** The density [exp(-t^2/2) / sqrt(2 pi)]. *)
Definition gauss_pdf (t : R) : R := exp (- (t * t) / 2) / sqrt (2 * PI).

Lemma gauss_pdf_continuity : continuity gauss_pdf.
Proof.
  unfold gauss_pdf. intro x. reg.
Qed.

Definition gauss_integrable (a b : R) : Riemann_integrable gauss_pdf a b :=
  match Rle_dec a b with
  | left Hab =>
      continuity_implies_RiemannInt Hab (fun x _ => gauss_pdf_continuity x)
  | right Hba =>
      RiemannInt_P1
        (continuity_implies_RiemannInt
           (Rlt_le _ _ (Rnot_le_lt _ _ Hba))
           (fun x _ => gauss_pdf_continuity x))
  end.

(** [norm.cdf(x)]: one half plus the signed area of the density between
    [0] and [x]. *)
Definition norm_cdf (x : R) : R := 1 / 2 + RiemannInt (gauss_integrable 0 x).

End Scipy.

(** ** FINAL/functions/calculations.py *)

Module Calculations.
Import Scipy.
Local Open Scope fl_scope.

(** *** analyze_market_trend

    The trend score is a sum of doubles, and the label depends on how it
    rounds: the function is modelled on binary64. *)

Local Open Scope float_scope.

Inductive Trend : Type := Bullish | Bearish | Neutral.

(** A value stored in [trend_data]: a [pd.Series] of cells, some other
    object that has a length (a list, a string), or an object without
    one. *)
Inductive TrendEntry : Type :=
| Series (cells : list pyval)
| Sized (len : nat)
| Unsized.

(** The rationale strings, by kind; the formatted number is kept as the
    payload. *)
Inductive Reason : Type :=
| NotEnoughData
| Insufficient (interval : string)
| NonNumeric (interval : string)
| IsUp (interval : string) (pct : float)
| IsDown (interval : string) (pct : float)
| IsFlat (interval : string) (pct : float).

(** [weights = {"5m": 0.4, "15m": 0.3, "30m": 0.2, "1h": 0.1}] *)
Definition weights (interval : string) : option float :=
  if String.eqb interval "5m" then Some 0.4
  else if String.eqb interval "15m" then Some 0.3
  else if String.eqb interval "30m" then Some 0.2
  else if String.eqb interval "1h" then Some 0.1
  else None.

Definition weight_of (interval : string) : float :=
  match weights interval with
  | Some w => w
  | None => 0
  end.

Definition in_weights (interval : string) : bool :=
  match weights interval with
  | Some _ => true
  | None => false
  end.

(** [(last_price - first_price) / first_price * 100], or [0.0] when
    [first_price == 0]. *)
Definition price_change_pct (first_price last_price : float) : float :=
  if first_price =? 0 then 0
  else (last_price - first_price) / first_price * 100.

(** The outcome of one pass through the loop body for one interval:
    [None] when the body ran into [continue], otherwise the interval
    score (the [int] 1, -1 or 0, as the double it is multiplied as),
    together with the reason appended. *)
Definition interval_signal (interval : string) (e : TrendEntry)
  : option float * Reason :=
  match e with
  | Series cells =>
      if (List.length cells <? 2)%nat then (None, Insufficient interval)
      else
        let first_price := hd PyNonNumeric cells in
        let last_price := last cells PyNonNumeric in
        if negb (is_number first_price) || negb (is_number last_price)
        then (None, NonNumeric interval)
        else
          let pct :=
            price_change_pct (as_double first_price) (as_double last_price) in
          if 0.1 <? pct then (Some 1, IsUp interval pct)
          else if pct <? -0.1 then (Some (-1), IsDown interval pct)
          else (Some 0, IsFlat interval pct)
  | _ => (None, Insufficient interval)
  end.

(** The loop body as a step on the pair [(trend_score, reasons)]:
    [trend_score += interval_score * weights[interval]]. *)
Definition trend_step (st : float * list Reason) (kv : string * TrendEntry)
  : float * list Reason :=
  let '(trend_score, reasons) := st in
  let '(interval, e) := kv in
  match interval_signal interval e with
  | (Some interval_score, why) =>
      (trend_score + interval_score * weight_of interval, reasons ++ [why])
  | (None, why) => (trend_score, reasons ++ [why])
  end.

(** [len(trend_data.get(i, []))]; [None] when [len] raises. *)
Definition entry_len (e : TrendEntry) : option nat :=
  match e with
  | Series cells => Some (List.length cells)
  | Sized n => Some n
  | Unsized => None
  end.

(** The weights summed for [max_possible_score]: those of the valid
    intervals whose entry has at least two elements; [None] when [len]
    raises. *)
Fixpoint counted_weights (valid : list (string * TrendEntry))
  : option (list float) :=
  match valid with
  | [] => Some []
  | (interval, e) :: rest =>
      match entry_len e, counted_weights rest with
      | Some n, Some ws =>
          Some (if (2 <=? n)%nat then weight_of interval :: ws else ws)
      | _, _ => None
      end
  end.

Definition trend_direction (trend_score : float) : Trend :=
  if 0.1 <? trend_score then Bullish
  else if trend_score <? -0.1 then Bearish
  else Neutral.

(** [trend_data] is a dict; it is given by its items in insertion order
    (keys pairwise distinct).  The result is [None] when the call raises
    ([len] of an entry that has none). *)
Definition analyze_market_trend (trend_data : list (string * TrendEntry))
  : option (Trend * float * list Reason) :=
  match trend_data with
  | [] => Some (Neutral, 0, [NotEnoughData])
  | _ =>
      let valid_intervals :=
        filter (fun kv => in_weights (fst kv)) trend_data in
      let '(trend_score, reasons) :=
        fold_left trend_step valid_intervals (0, []) in
      match counted_weights valid_intervals with
      | None => None
      | Some ws =>
          let max_possible_score := py_sum ws in
          let confidence :=
            if max_possible_score =? 0 then 0
            else py_min (abs trend_score / max_possible_score * 100) 100 in
          Some (trend_direction trend_score, confidence, reasons)
      end
  end.

(** *** calculate_vwap

    The VWAP of a bar is a quotient of rounded products, compared below
    with the typical price digit for digit: the function is modelled on
    binary64. *)

(** A row of the frame; a missing or non-numeric cell is NaN. *)
Record Bar : Type := mkBar {
  High : float;
  Low : float;
  Close : float;
  Volume : float
}.

(** The frame handed to [calculate_vwap]: either it lacks one of the four
    columns (only its number of rows matters then), or it has them. *)
Inductive PriceFrame : Type :=
| MissingColumns (rows : nat)
| Bars (bars : list Bar).

Definition typical_price (b : Bar) : float :=
  (High b + Low b + Close b) / 3.

(** Returns the [VWAP] column of the returned frame. *)
Definition calculate_vwap (df : PriceFrame) : list float :=
  match df with
  | Bars bars =>
      let volume := map (fun b => Binary64.fillna 0 (Volume b)) bars in
      let TypicalPrice := map typical_price bars in
      let price_volume_weighted :=
        map (fun pv => fst pv * snd pv) (combine TypicalPrice volume) in
      let CumVol := cumsum volume in
      let CumVolPrice := cumsum price_volume_weighted in
      let VWAP :=
        map (fun cc => fst cc / (replace_zero_with_nan (snd cc) + 1e-10))
            (combine CumVolPrice CumVol) in
      bfill (ffill VWAP)
  | MissingColumns rows => repeat nan rows
  end.

Local Close Scope float_scope.

(** *** find_pivots *)

(** The cells of the centred window of half-width [h] around position
    [i], cut at both ends of the series ([min_periods=1]). *)
Definition window_cells (h i : nat) (l : list fl) : list fl :=
  firstn (i + h + 1 - (i - h)) (skipn (i - h) l).

Definition fmin2 (a b : fl) : fl :=
  match a, b with
  | NaN, y => y
  | x, NaN => x
  | Num x, Num y => Num (Rmin x y)
  end.

Definition fmax2 (a b : fl) : fl :=
  match a, b with
  | NaN, y => y
  | x, NaN => x
  | Num x, Num y => Num (Rmax x y)
  end.

(** [series.rolling(window, center=True, min_periods=1).min()] (resp.
    [.max()]) for an odd window [2h+1]: the extremum of the non-NaN cells
    of each window, NaN when the window holds none. *)
Definition rolling_ext (ext : fl -> fl -> fl) (h : nat) (l : list fl)
  : list fl :=
  map (fun i => fold_right ext NaN (window_cells h i l))
      (seq 0 (List.length l)).

(** [series[series == ext_val].dropna()] *)
Definition select_equal (l ext_val : list fl) : list R :=
  flat_map (fun p =>
              match p with
              | (Num x, Num m) => if Reqb x m then [x] else []
              | _ => []
              end)
           (combine l ext_val).

(** [Series.unique()]: first occurrences, in order of appearance. *)
Fixpoint unique_from (seen l : list R) : list R :=
  match l with
  | [] => []
  | x :: t =>
      if existsb (Reqb x) seen then unique_from seen t
      else x :: unique_from (x :: seen) t
  end.
Definition unique : list R -> list R := unique_from [].

(** [sorted(l)] and [sorted(l, reverse=True)]. *)
Fixpoint insert_by {A : Type} (le : A -> A -> bool) (x : A) (l : list A)
  : list A :=
  match l with
  | [] => [x]
  | y :: t => if le x y then x :: y :: t else y :: insert_by le x t
  end.
Definition sorted_by {A : Type} (le : A -> A -> bool) (l : list A) : list A :=
  fold_right (insert_by le) [] l.
Definition sorted : list R -> list R := sorted_by Rleb.
Definition sorted_reverse : list R -> list R := sorted_by (fun x y => Rleb y x).

(** [series.mean()]: over the non-NaN cells, NaN when there is none. *)
Definition series_mean (l : list fl) : fl :=
  let vals := flat_map (fun c => match c with Num x => [x] | NaN => [] end) l in
  match vals with
  | [] => NaN
  | _ => Num (fold_right Rplus 0%R vals / INR (List.length vals))
  end.

Definition tolerance_factor : R := 0.005.

(** One pass through the body of the de-duplication loop: [unique_levels]
    is the list built so far, [val] the next sorted raw level. *)
Definition dedup_step (series_mean_fallback : fl) (unique_levels : list R)
    (val : R) : list R :=
  let last_level := last unique_levels 0%R in
  let ref_price :=
    if negb (Reqb last_level 0) then Num last_level
    else series_mean_fallback in
  let threshold :=
    if notna ref_price then ref_price * Num tolerance_factor
    else Num 0.01 in
  if notna threshold && (fabs (Num val - Num last_level) >? threshold)
  then unique_levels ++ [val]
  else if (0 <? List.length unique_levels)%nat
       then removelast unique_levels ++ [((last_level + val) / 2)%R]
       else unique_levels.

(** The list is seeded with the first sorted level and the loop runs over
    the others, in the order given. *)
Definition dedup_levels (series_mean_fallback : fl) (sorted_levels : list R)
  : list R :=
  match sorted_levels with
  | [] => []
  | first :: rest => fold_left (dedup_step series_mean_fallback) rest [first]
  end.

(** [window] after the two adjustments at the top of the function: made
    odd, and at least 3. *)
Definition effective_window (window : Z) : Z :=
  let window := if Z.even window then (window + 1)%Z else window in
  if (window <? 3)%Z then 3%Z else window.

(** The half-width of the centred window. *)
Definition half_width (window : Z) : nat :=
  Z.to_nat ((effective_window window - 1) / 2).

(** [supports_raw] and [resistances_raw]: the cells equal to the rolling
    minimum, resp. maximum, of their window. *)
Definition supports_raw (series : list fl) (h : nat) : list R :=
  select_equal series (rolling_ext fmin2 h series).
Definition resistances_raw (series : list fl) (h : nat) : list R :=
  select_equal series (rolling_ext fmax2 h series).

(** [series] is a [pd.Series] of doubles (the [isinstance] guard of the
    first line passes). *)
Definition find_pivots (series : list fl) (window : Z) : list R * list R :=
  match series with
  | [] => ([], [])
  | _ =>
      if (Z.of_nat (List.length series) <? effective_window window)%Z
      then ([], [])
      else
        let h := half_width window in
        let series_mean_fallback := series_mean series in
        let unique_supports :=
          dedup_levels series_mean_fallback
                       (sorted (unique (supports_raw series h))) in
        let unique_resistances :=
          dedup_levels series_mean_fallback
                       (sorted_reverse (unique (resistances_raw series h))) in
        (sorted unique_supports, sorted_reverse unique_resistances)
  end.

(** *** calculate_technical_indicators *)

(** [Series.diff()] on a NaN-free series. *)
Fixpoint diff_from (prev : R) (l : list R) : list fl :=
  match l with
  | [] => []
  | x :: t => Num (x - prev) :: diff_from x t
  end.
Definition diff (l : list R) : list fl :=
  match l with
  | [] => []
  | x :: t => NaN :: diff_from x t
  end.

(** [Series.rolling(window=w, min_periods=w).mean()]: NaN until [w] cells
    are available, and wherever the window holds a NaN. *)
Definition rolling_mean (w : nat) (l : list fl) : list fl :=
  map (fun i =>
         if (i + 1 <? w)%nat then NaN
         else fold_right fadd (Num 0) (firstn w (skipn (i + 1 - w) l))
              / Num (INR w))
      (seq 0 (List.length l)).

(** [Series.ewm(alpha=alpha, adjust=False).mean()] with pandas' defaults
    ([ignore_na=False], [min_periods=0]): NaN until the first observation;
    afterwards the running mean, carried over NaN cells while the weight of
    the past decays. *)
Fixpoint ewm_from (alpha : R) (weighted : fl) (old_wt : R) (l : list fl)
  : list fl :=
  match l with
  | [] => []
  | cur :: t =>
      match weighted, cur with
      | Num w, Num c =>
          let old_wt' := (old_wt * (1 - alpha))%R in
          let w' := ((old_wt' * w + alpha * c) / (old_wt' + alpha))%R in
          Num w' :: ewm_from alpha (Num w') 1 t
      | Num w, NaN =>
          Num w :: ewm_from alpha (Num w) (old_wt * (1 - alpha)) t
      | NaN, Num c => Num c :: ewm_from alpha (Num c) old_wt t
      | NaN, NaN => NaN :: ewm_from alpha NaN old_wt t
      end
  end.
Definition ewm_mean (alpha : R) : list fl -> list fl := ewm_from alpha NaN 1.

(** [ewm(span=n)]: [alpha = 2 / (n + 1)]. *)
Definition span_alpha (n : nat) : R := 2 / (INR n + 1).

(** [s.reindex(df.index)] for a series [s] computed on the rows of [df]
    whose [Close] is not NaN: the rows dropped come back as NaN. *)
Fixpoint reindex (close : list fl) (s : list fl) : list fl :=
  match close with
  | [] => []
  | NaN :: t => NaN :: reindex t s
  | Num _ :: t =>
      match s with
      | v :: vs => v :: reindex t vs
      | [] => NaN :: reindex t []
      end
  end.

Definition dropna (l : list fl) : list R :=
  flat_map (fun c => match c with Num x => [x] | NaN => [] end) l.

Definition RSI_PERIOD : nat := 14.
Definition MACD_FAST_PERIOD : nat := 12.
Definition MACD_SLOW_PERIOD : nat := 26.
Definition MACD_SIGNAL_PERIOD : nat := 9.

Definition zip_with (f : fl -> fl -> fl) (a b : list fl) : list fl :=
  map (fun p => f (fst p) (snd p)) (combine a b).

(** [df_close] is the [Close] column of [df] ([None] when the frame has no
    such column); the frame has as many rows as the column has cells.  The
    result is the triple [(rsi, macd_line, signal_line)]. *)
Definition calculate_technical_indicators (df_close : option (list fl))
  : list fl * list fl * list fl :=
  match df_close with
  | None => ([], [], [])
  | Some close =>
      let close_prices := dropna close in
      match close_prices with
      | [] => ([], [], [])
      | _ =>
          let n := List.length close in
          let rsi :=
            if (List.length close_prices <=? RSI_PERIOD)%nat
            then repeat (Num 50) n
            else
              let delta := diff close_prices in
              let gain := map (fun d => fillna 0 (lift1 (fun x => Rmax x 0) d)) delta in
              let loss := map (fun d => - fillna 0 (lift1 (fun x => Rmin x 0) d)) delta in
              let avg_gain := firstn RSI_PERIOD (rolling_mean RSI_PERIOD gain) in
              let avg_loss := firstn RSI_PERIOD (rolling_mean RSI_PERIOD loss) in
              let avg_gain :=
                ewm_mean (1 / INR RSI_PERIOD) (avg_gain ++ skipn RSI_PERIOD gain) in
              let avg_loss :=
                ewm_mean (1 / INR RSI_PERIOD) (avg_loss ++ skipn RSI_PERIOD loss) in
              let rs :=
                zip_with fdiv avg_gain
                  (map (fun c => match c with
                                 | Num x => if Reqb x 0 then Num 1e-10 else c
                                 | NaN => NaN
                                 end) avg_loss) in
              let rsi := map (fun x => Num 100 - Num 100 / (Num 1 + x)) rs in
              map (fillna 50) (reindex close rsi) in
          let '(macd_line, signal_line) :=
            if (MACD_SLOW_PERIOD <=? List.length close_prices)%nat
            then
              let ema_fast := ewm_mean (span_alpha MACD_FAST_PERIOD) (map Num close_prices) in
              let ema_slow := ewm_mean (span_alpha MACD_SLOW_PERIOD) (map Num close_prices) in
              let macd_line := reindex close (zip_with fsub ema_fast ema_slow) in
              let signal_line := ewm_mean (span_alpha MACD_SIGNAL_PERIOD) macd_line in
              (map (fillna 0) macd_line, map (fillna 0) signal_line)
            else (repeat (Num 0) n, repeat (Num 0) n) in
          (rsi, macd_line, signal_line)
      end
  end.

(** *** calculate_pop *)

Inductive OptionType : Type :=
| Call
| Put
| OtherType.

(** [norm.cdf] on a cell. *)
Definition fnorm_cdf : fl -> fl := lift1 norm_cdf.

(** None of the numpy operations in the [try] block raises (a domain error
    is a NaN and a warning), so the [except] clause is never entered. *)
Definition calculate_pop (option_type : OptionType)
    (strike_price premium current_price implied_volatility dte : pyobj) : fl :=
  if negb (forallb is_numeric
             [strike_price; premium; current_price; implied_volatility; dte])
  then NaN
  else
    let strike_price := as_fl strike_price in
    let current_price := as_fl current_price in
    let implied_volatility := as_fl implied_volatility in
    let dte := as_fl dte in
    if (dte <=? Num 0) || (implied_volatility <=? Num 0)
       || (current_price <=? Num 0) || (strike_price <=? Num 0)
    then NaN
    else
      let time_to_expiration_years := dte / Num 365 in
      let r := Num 0.05 in
      let q := Num 0 in
      let sigma_sqrt_t := implied_volatility * fsqrt time_to_expiration_years in
      if sigma_sqrt_t ==? Num 0 then NaN
      else
        let d1 :=
          (flog (current_price / strike_price)
           + (r - q + Num 0.5 * (implied_volatility * implied_volatility))
             * time_to_expiration_years)
          / sigma_sqrt_t in
        let d2 := d1 - sigma_sqrt_t in
        let pop :=
          match option_type with
          | Call => fnorm_cdf d2
          | Put => fnorm_cdf (- d2)
          | OtherType => NaN
          end in
        if notna pop then fclip 0 1 pop else NaN.

(** The call of [calculate_pop] on five doubles. *)
Definition pop_of (option_type : OptionType) (K premium S sigma dte : R) : fl :=
  calculate_pop option_type (PyFloat (Num K)) (PyFloat (Num premium))
    (PyFloat (Num S)) (PyFloat (Num sigma)) (PyFloat (Num dte)).

(** *** calculate_pop on binary64

    The same function with every operation rounded as the hardware rounds
    it.  [np.log] and [scipy.stats.norm.cdf] are library routines whose
    last digit the source does not fix: they are parameters.  The cells
    are [np.float64], on which [x**2] is the rounded product [x * x] and no
    operation of the [try] block raises. *)

Module InDoubles.
Local Open Scope float_scope.

Definition calculate_pop (np_log norm_cdf : float -> float)
    (option_type : OptionType)
    (strike_price premium current_price implied_volatility dte : pyval)
  : float :=
  if negb (forallb is_number
             [strike_price; premium; current_price; implied_volatility; dte])
  then nan
  else
    let strike_price := as_double strike_price in
    let current_price := as_double current_price in
    let implied_volatility := as_double implied_volatility in
    let dte := as_double dte in
    if (dte <=? 0) || (implied_volatility <=? 0)
       || (current_price <=? 0) || (strike_price <=? 0)
    then nan
    else
      let time_to_expiration_years := dte / 365 in
      let r := 0.05 in
      let q := 0 in
      let sigma_sqrt_t :=
        implied_volatility * PrimFloat.sqrt time_to_expiration_years in
      if sigma_sqrt_t =? 0 then nan
      else
        let d1 :=
          (np_log (current_price / strike_price)
           + (r - q + 0.5 * (implied_volatility * implied_volatility))
             * time_to_expiration_years)
          / sigma_sqrt_t in
        let d2 := d1 - sigma_sqrt_t in
        let pop :=
          match option_type with
          | Call => norm_cdf d2
          | Put => norm_cdf (- d2)
          | OtherType => nan
          end in
        if is_nan pop then nan else np_clip pop 0 1.

(** The call of [calculate_pop] on five doubles. *)
Definition pop_of (np_log norm_cdf : float -> float)
    (option_type : OptionType) (K premium S sigma dte : float) : float :=
  calculate_pop np_log norm_cdf option_type (PyDouble K) (PyDouble premium)
    (PyDouble S) (PyDouble sigma) (PyDouble dte).

End InDoubles.

End Calculations.

(** ** FINAL/TradeBot_V1.py: the sibling definitions *)

Module TradeBot.
Import Scipy.
Import Calculations.
Local Open Scope fl_scope.

(** All four columns are read unconditionally; [Volume] is used as it
    comes.  Modelled on binary64, as [calculations.calculate_vwap] is. *)
Definition calculate_vwap (bars : list Bar) : list float :=
  let TypicalPrice := map typical_price bars in
  let price_volume_weighted :=
    map (fun pb => (fst pb * Volume (snd pb))%float)
        (combine TypicalPrice bars) in
  let CumVol := cumsum (map Volume bars) in
  let CumVolPrice := cumsum price_volume_weighted in
  let VWAP :=
    map (fun cc => (fst cc / replace_zero_with_nan (snd cc))%float)
        (combine CumVolPrice CumVol) in
  bfill (ffill VWAP).

Definition calculate_pop (option_type : OptionType)
    (strike_price premium current_price implied_volatility dte : fl) : fl :=
  if (dte <=? Num 0) || (implied_volatility <=? Num 0) then NaN
  else
    let time_to_expiration_years := dte / Num 365 in
    match
      match option_type with
      | Call => Some (strike_price + premium)
      | Put => Some (strike_price - premium)
      | OtherType => None
      end
    with
    | None => NaN
    | Some breakeven_price =>
        let r := Num 0.01 in
        let q := Num 0 in
        let d1_pop :=
          (flog (current_price / breakeven_price)
           + (r - q + Num 0.5 * (implied_volatility * implied_volatility))
             * time_to_expiration_years)
          / (implied_volatility * fsqrt time_to_expiration_years) in
        let d2_pop :=
          d1_pop - implied_volatility * fsqrt time_to_expiration_years in
        match option_type with
        | Call => fnorm_cdf d2_pop
        | Put => fnorm_cdf (- d2_pop)
        | OtherType => NaN
        end
    end.

End TradeBot.

(** ** FINAL/functions/options_logic.py *)

Module OptionsLogic.
Import Calculations.
Local Open Scope fl_scope.

(** One row of an option chain.  [delta] is [None] when the row (or the
    whole frame) carries no such field, [Some NaN] when it is null. *)
Record Row : Type := mkRow {
  strike : fl;
  lastPrice : fl;
  bid : fl;
  ask : fl;
  volume : fl;
  openInterest : fl;
  impliedVolatility : fl;
  delta : option fl
}.

(** [calculate_breakeven]; [None] is Python's [None]. *)
Definition calculate_breakeven (option_type : OptionType)
    (strike_price premium : fl) : option fl :=
  match option_type with
  | Call => Some (strike_price + premium)
  | Put => Some (strike_price - premium)
  | OtherType => None
  end.

Definition calculate_intrinsic_value (option_type : OptionType)
    (strike_price current_price : fl) : fl :=
  match option_type with
  | Call => py_max0 (current_price - strike_price)
  | Put => py_max0 (strike_price - current_price)
  | OtherType => Num 0
  end.

Definition calculate_time_value (last_price intrinsic_value : fl) : fl :=
  py_max0 (last_price - intrinsic_value).

(** *** rank_options_logic *)

Inductive Tier : Type := Poor | Fair | Good | Excellent.

(** [pd.cut(x, bins, labels)] with pandas' defaults [right=True] and
    [include_lowest=False]: the label of the interval [(lo, hi]] that
    holds [x], nothing (NaN) when no interval does. *)
Fixpoint cut_from {L : Type} (lo : R) (edges : list (R * L)) (x : R)
  : option L :=
  match edges with
  | [] => None
  | (hi, label) :: rest =>
      if Rltb lo x && Rleb x hi then Some label else cut_from hi rest x
  end.

Definition pd_cut {L : Type} (bins : list R) (labels : list L) (x : fl)
  : option L :=
  match x, bins with
  | Num v, b0 :: bs => cut_from b0 (combine bs labels) v
  | _, _ => None
  end.

Definition quality_tier (overall_score : fl) : option Tier :=
  pd_cut [0; 0.4; 0.6; 0.75; 1.0]%R [Poor; Fair; Good; Excellent] overall_score.

Record ScoredRow : Type := mkScored {
  row : Row;
  delta_filled : fl;
  mid_price : fl;
  spread_pct : fl;
  POP : fl;
  intrinsic_value : fl;
  time_value : fl;
  breakeven : fl;
  breakeven_distance_pct : fl;
  pop_score : fl;
  norm_volume : fl;
  norm_oi : fl;
  spread_score : fl;
  liquidity_score : fl;
  time_value_ratio : fl;
  breakeven_score : fl;
  value_score : fl;
  delta_score : fl;
  Overall_Score : fl;
  Quality_Tier : option Tier
}.

(** [df.dropna(subset=required_cols)] *)
Definition required_cols_present (r : Row) : bool :=
  notna (strike r) && notna (lastPrice r) && notna (bid r) && notna (ask r)
  && notna (volume r) && notna (openInterest r)
  && notna (impliedVolatility r).

Definition valid_prices (r : Row) : bool :=
  (lastPrice r >? Num 0.01) && (bid r >? Num 0) && (ask r >? Num 0).

Definition reasonable_iv (r : Row) : bool :=
  (impliedVolatility r >? Num 0) && (impliedVolatility r <? Num 5.0).

Definition min_volume : R := 10.
Definition min_oi : R := 50.

Definition liquid_enough (r : Row) : bool :=
  (volume r >=? Num min_volume) && (openInterest r >=? Num min_oi).

Definition row_mid_price (r : Row) : fl := (bid r + ask r) / Num 2.

Definition row_spread_pct (r : Row) : fl :=
  ((ask r - bid r) / (row_mid_price r + Num 1e-9)) * Num 100.

Definition tight_spread (r : Row) : bool := row_spread_pct r <=? Num 20.

(** The four filters, in the order of the source. *)
Definition hard_filters (df : list Row) : list Row :=
  filter tight_spread
    (filter liquid_enough (filter reasonable_iv (filter valid_prices df))).

(** [Series.max()] and [Series.min()] *)
Definition col_max (l : list fl) : fl := fold_right fmax2 NaN l.
Definition col_min (l : list fl) : fl := fold_right fmin2 NaN l.

(** [(x - lo) / (hi - lo + 1e-9) if (hi - lo) != 0 else 0.5] *)
Definition normalise (lo hi x : fl) : fl :=
  if (hi - lo) !=? Num 0 then (x - lo) / (hi - lo + Num 1e-9) else Num 0.5.

Definition call_delta_score (x : fl) : fl :=
  if (Num 0.2 <=? x) && (x <=? Num 0.8)
  then Num 1 - fabs (x - Num 0.5) / Num 0.5
  else Num 0.2.

Definition put_delta_score (x : fl) : fl :=
  if (Num 0.2 <=? fabs x) && (fabs x <=? Num 0.8)
  then Num 1 - fabs (fabs x - Num 0.5) / Num 0.5
  else Num 0.2.

(** The columns computed for one surviving row.  [breakeven_price] is the
    row's break-even, [min_volume_val .. max_oi] the column extrema of the
    filtered frame. *)
Definition score_row (option_type : OptionType)
    (current_price_for_rank dte_for_rank : fl)
    (min_volume_val max_volume min_oi_val max_oi : fl)
    (r : Row) (breakeven_price : fl) : ScoredRow :=
  let pop :=
    fillna 0
      (calculate_pop option_type (PyFloat (strike r)) (PyFloat (lastPrice r))
         (PyFloat current_price_for_rank) (PyFloat (impliedVolatility r))
         (PyFloat dte_for_rank)) in
  let intrinsic :=
    calculate_intrinsic_value option_type (strike r) current_price_for_rank in
  let tv := calculate_time_value (lastPrice r) intrinsic in
  let be_dist :=
    fabs ((breakeven_price - current_price_for_rank)
          / (current_price_for_rank + Num 1e-9) * Num 100) in
  let nv := normalise min_volume_val max_volume (volume r) in
  let noi := normalise min_oi_val max_oi (openInterest r) in
  let ss := fclip 0 1 (Num 1 - row_spread_pct r / Num 20) in
  let liq := nv * Num 0.4 + noi * Num 0.4 + ss * Num 0.2 in
  let tvr := fclip 0 1 (tv / (lastPrice r + Num 1e-9)) in
  let ideal_breakeven_distance := Num 5.0 in
  let bes :=
    fclip 0 1 (Num 1 - fabs (be_dist - ideal_breakeven_distance) / Num 10) in
  let vs := tvr * Num 0.4 + bes * Num 0.6 in
  let d :=
    fillna 0.5 (match delta r with Some x => x | None => NaN end) in
  let ds :=
    match option_type with
    | Call => call_delta_score d
    | _ => put_delta_score d
    end in
  let overall :=
    pop * Num 0.40 + liq * Num 0.25 + vs * Num 0.20 + ds * Num 0.15 in
  {| row := r;
     delta_filled := d;
     mid_price := row_mid_price r;
     spread_pct := row_spread_pct r;
     POP := pop;
     intrinsic_value := intrinsic;
     time_value := tv;
     breakeven := breakeven_price;
     breakeven_distance_pct := be_dist;
     pop_score := pop;
     norm_volume := nv;
     norm_oi := noi;
     spread_score := ss;
     liquidity_score := liq;
     time_value_ratio := tvr;
     breakeven_score := bes;
     value_score := vs;
     delta_score := ds;
     Overall_Score := overall;
     Quality_Tier := quality_tier overall |}.

(** The order of [sort_values("Overall_Score", ascending=False)]: larger
    scores first, NaN scores last. *)
Definition score_before (a b : ScoredRow) : bool :=
  match Overall_Score a, Overall_Score b with
  | Num x, Num y => Rleb y x
  | NaN, Num _ => false
  | _, NaN => true
  end.

(** The scoring block: every row of the filtered frame [df] gets its
    derived columns; the column extrema are those of [df]. *)
Definition score_frame (option_type : OptionType)
    (current_price_for_rank dte_for_rank : fl) (df : list Row)
  : list ScoredRow :=
  let max_volume := col_max (map volume df) in
  let min_volume_val := col_min (map volume df) in
  let max_oi := col_max (map openInterest df) in
  let min_oi_val := col_min (map openInterest df) in
  map (fun r =>
         score_row option_type current_price_for_rank dte_for_rank
           min_volume_val max_volume min_oi_val max_oi r
           (match calculate_breakeven option_type (strike r) (lastPrice r) with
            | Some b => b
            | None => NaN
            end))
      df.

(** The returned frame, as the list of its rows from top to bottom; the
    empty frame is [[]].  The result is [None] when the call raises: for an
    [option_type] that is neither ['call'] nor ['put'] the break-even column
    holds [None], and subtracting the price from it is a [TypeError].
    [df['POP'].fillna(0, inplace=True)] is taken to act on the frame. *)
Definition rank_options_logic (df_original : list Row)
    (option_type : OptionType) (current_price_for_rank dte_for_rank : fl)
  : option (list ScoredRow) :=
  let df := filter required_cols_present df_original in
  match df with
  | [] => Some []
  | _ =>
      let df := hard_filters df in
      match df with
      | [] => Some []
      | _ =>
          match option_type with
          | OtherType => None
          | _ =>
              Some (sorted_by score_before
                      (score_frame option_type current_price_for_rank
                         dte_for_rank df))
          end
      end
  end.

(** Names for the two stages of [rank_options_logic]: the frame that
    reaches the scoring block, and the scored form of one of its rows. *)
Definition surviving (df : list Row) : list Row :=
  hard_filters (filter required_cols_present df).

Definition scored_in (option_type : OptionType) (S dte : fl) (F : list Row)
    (r : Row) : ScoredRow :=
  score_row option_type S dte
    (col_min (map volume F)) (col_max (map volume F))
    (col_min (map openInterest F)) (col_max (map openInterest F)) r
    (match calculate_breakeven option_type (strike r) (lastPrice r) with
     | Some b => b
     | None => NaN
     end).

(** *** analyze_single_option_details *)

(** The rationale and red-flag strings, by kind, with the number each one
    prints. *)
Inductive Note : Type :=
| PopNA
| HighPOP (pop : fl)
| ModeratePOP (pop : fl)
| FairPOP (pop : fl)
| LowPOP (pop : fl)
| ExcellentVolume (v : fl)
| GoodVolume (v : fl)
| ModerateVolume (v : fl)
| LowVolume (v : fl)
| HighOpenInterest (oi : fl)
| GoodOpenInterest (oi : fl)
| ModerateOpenInterest (oi : fl)
| LowOpenInterest (oi : fl)
| TightSpread (pct : fl)
| AcceptableSpread (pct : fl)
| WideSpread (pct : fl)
| VeryWideSpread (pct : fl)
| HealthyIV (iv : fl)
| ElevatedIV (iv : fl)
| VeryLowIV (iv : fl)
| ExtremeIV (iv : fl)
| StrongDelta (d : fl)
| BalancedDelta (d : fl)
| ModerateDelta (d : fl)
| LowDelta (d : fl)
| VeryLowDelta (d : fl)
| CloseBreakeven (pct : fl)
| ReasonableBreakeven (pct : fl)
| DistantBreakeven (pct : fl)
| VeryDistantBreakeven (pct : fl)
| BalancedTimeValue (pct : fl)
| LowTimeValue (pct : fl)
| HighTimeValue (pct : fl).

Inductive Recommendation : Type :=
| StrongBuy
| Buy
| Consider
| Caution
| Avoid.

(** What one block of the scoring adds: points, rationale strings and
    red flags. *)
Definition Part : Type := Z * list Note * list Note.

Definition reason (points : Z) (n : Note) : Part := (points, [n], []).
Definition red_flag (points : Z) (n : Note) : Part := (points, [], [n]).

Definition part_plus (a b : Part) : Part :=
  let '(pa, ra, fa) := a in
  let '(pb, rb, fb) := b in
  ((pa + pb)%Z, ra ++ rb, fa ++ fb).

(** [row.get("delta", 0.0) if pd.notnull(row.get("delta", 0.0)) else 0.0] *)
Definition single_delta (r : Row) : fl :=
  let got := match delta r with Some x => x | None => Num 0.0 end in
  if notna got then got else Num 0.0.

Definition pop_part (pop : fl) : Part :=
  if isna pop || (pop ==? Num 0) then reason 0 PopNA
  else if pop >=? Num 0.55 then reason 25 (HighPOP pop)
  else if pop >=? Num 0.45 then reason 20 (ModeratePOP pop)
  else if pop >=? Num 0.35 then reason 15 (FairPOP pop)
  else red_flag 5 (LowPOP pop).

Definition volume_part (v : fl) : Part :=
  if v >=? Num 500 then reason 10 (ExcellentVolume v)
  else if v >=? Num 100 then reason 7 (GoodVolume v)
  else if v >=? Num 50 then reason 4 (ModerateVolume v)
  else red_flag 0 (LowVolume v).

Definition oi_part (oi : fl) : Part :=
  if oi >=? Num 1000 then reason 10 (HighOpenInterest oi)
  else if oi >=? Num 500 then reason 7 (GoodOpenInterest oi)
  else if oi >=? Num 100 then reason 4 (ModerateOpenInterest oi)
  else red_flag 0 (LowOpenInterest oi).

Definition spread_part (pct : fl) : Part :=
  if pct <=? Num 5 then reason 5 (TightSpread pct)
  else if pct <=? Num 10 then reason 3 (AcceptableSpread pct)
  else if pct <=? Num 15 then reason 1 (WideSpread pct)
  else red_flag 0 (VeryWideSpread pct).

Definition iv_part (iv : fl) : Part :=
  if (Num 0.15 <=? iv) && (iv <=? Num 0.60) then reason 15 (HealthyIV iv)
  else if (Num 0.60 <? iv) && (iv <=? Num 1.0) then reason 10 (ElevatedIV iv)
  else if iv <? Num 0.15 then red_flag 8 (VeryLowIV iv)
  else red_flag 5 (ExtremeIV iv).

(** [graded] is [delta] for a call and [abs(delta)] for a put; the strings
    print [delta] itself. *)
Definition delta_bands (graded d : fl) : Part :=
  if (Num 0.60 <=? graded) && (graded <=? Num 0.80) then reason 20 (StrongDelta d)
  else if (Num 0.40 <=? graded) && (graded <? Num 0.60) then reason 18 (BalancedDelta d)
  else if (Num 0.25 <=? graded) && (graded <? Num 0.40) then reason 14 (ModerateDelta d)
  else if (Num 0.15 <=? graded) && (graded <? Num 0.25) then reason 8 (LowDelta d)
  else red_flag 3 (VeryLowDelta d).

Definition delta_part (option_type : OptionType) (d : fl) : Part :=
  match option_type with
  | Call => delta_bands d d
  | _ => delta_bands (fabs d) d
  end.

Definition breakeven_part (breakeven_pct : fl) : Part :=
  if breakeven_pct <=? Num 3 then reason 8 (CloseBreakeven breakeven_pct)
  else if breakeven_pct <=? Num 6 then reason 6 (ReasonableBreakeven breakeven_pct)
  else if breakeven_pct <=? Num 10 then reason 3 (DistantBreakeven breakeven_pct)
  else red_flag 0 (VeryDistantBreakeven breakeven_pct).

Definition time_value_part (time_value_pct : fl) : Part :=
  if (Num 30 <=? time_value_pct) && (time_value_pct <=? Num 70)
  then reason 7 (BalancedTimeValue time_value_pct)
  else if time_value_pct <? Num 30 then reason 4 (LowTimeValue time_value_pct)
  else red_flag 2 (HighTimeValue time_value_pct).

Definition recommend (score : Z) (red_flags : list Note) : Recommendation :=
  if (80 <=? score)%Z && (List.length red_flags =? 0)%nat then StrongBuy
  else if (70 <=? score)%Z && (List.length red_flags <=? 1)%nat then Buy
  else if (60 <=? score)%Z then Consider
  else if (50 <=? score)%Z then Caution
  else Avoid.

(** The returned tuple; the confidence sentence is fixed by the
    recommendation and [max_score] is the constant 100. *)
Record Analysis : Type := mkAnalysis {
  recommendation : Recommendation;
  score : Z;
  max_score : Z;
  reasons : list Note;
  red_flags : list Note;
  max_loss : fl;
  target_profit : fl;
  rr_ratio : fl;
  an_pop : fl;
  an_breakeven : fl;
  an_breakeven_pct : fl
}.

(** [None] when the call raises (no break-even for an [option_type] that is
    neither ['call'] nor ['put']). *)
Definition analyze_single_option_details (r : Row) (current_price dte : fl)
    (option_type : OptionType) : option Analysis :=
  let price := lastPrice r in
  let iv := impliedVolatility r in
  let d := single_delta r in
  let pop :=
    calculate_pop option_type (PyFloat (strike r)) (PyFloat price)
      (PyFloat current_price) (PyFloat iv) (PyFloat dte) in
  let intrinsic := calculate_intrinsic_value option_type (strike r) current_price in
  let tv := calculate_time_value price intrinsic in
  match calculate_breakeven option_type (strike r) price with
  | None => None
  | Some be =>
      let breakeven_distance := fabs (be - current_price) in
      let breakeven_pct :=
        (breakeven_distance / (current_price + Num 1e-9)) * Num 100 in
      let spread := ask r - bid r in
      let spread_pct :=
        if price >? Num 0 then (spread / (price + Num 1e-9)) * Num 100
        else Num 0 in
      let time_value_pct :=
        if price >? Num 0 then (tv / (price + Num 1e-9)) * Num 100
        else Num 0 in
      let '(total, rs, fs) :=
        fold_left part_plus
          [ pop_part pop;
            volume_part (volume r); oi_part (openInterest r);
            spread_part spread_pct;
            iv_part iv;
            delta_part option_type d;
            breakeven_part breakeven_pct; time_value_part time_value_pct ]
          (0%Z, [], []) in
      let stop_loss := price * Num 0.5 in
      let target := price * Num 1.0 in
      Some {| recommendation := recommend total fs;
              score := total;
              max_score := 100;
              reasons := rs;
              red_flags := fs;
              max_loss := price;
              target_profit := target;
              rr_ratio :=
                if stop_loss >? Num 0 then target / (stop_loss + Num 1e-9)
                else NaN;
              an_pop := pop;
              an_breakeven := be;
              an_breakeven_pct := breakeven_pct |}
  end.

End OptionsLogic.

(** ** FINAL/display/ui_components.py: analyze_trend_properly *)

Module UiComponents.
Import Calculations.
Local Open Scope fl_scope.

Inductive Resolution : Type := Daily | Hourly | HalfHourly | QuarterHourly.

(** The detail strings, by kind. *)
Inductive Detail : Type :=
| DetailUp (res : Resolution) (pct : fl)
| DetailDown (res : Resolution) (pct : fl)
| DetailFlat (res : Resolution) (pct : fl)
| InsufficientData
| UnableToAnalyze.

(** [close_prices[-k]] and [close_prices[-k:]] for [k <= len]. *)
Definition from_end (k : nat) (close : list fl) : fl :=
  nth (List.length close - k) close NaN.
Definition last_n (k : nat) (close : list fl) : list fl :=
  skipn (List.length close - k) close.

(** [float(np.mean(a))]: NaN as soon as one cell is NaN. *)
Definition np_mean (a : list fl) : fl :=
  fold_right fadd (Num 0) a / Num (INR (List.length a)).

(** [((current - prev) / prev) * 100] on Python floats; [None] is the
    [ZeroDivisionError] of a zero [prev]. *)
Definition pct_change (current prev : fl) : option fl :=
  if prev ==? Num 0 then None
  else Some (((current - prev) / prev) * Num 100).

(** One of the four blocks: [None] when it raises, [Some None] when the
    frame is too short and the block is skipped, otherwise the signal and
    the detail string appended.  [back] is the offset of the earlier close
    compared with, [sma] whether the block also compares the current close
    with the mean of the last [min_len] closes, [noise] the threshold in
    percent. *)
Definition resolution_block (res : Resolution) (min_len back : nat)
    (sma : bool) (noise : R) (close : list fl)
  : option (option (R * Detail)) :=
  if (List.length close <? min_len)%nat then Some None
  else
    let current := from_end 1 close in
    let prev := from_end back close in
    let average := np_mean (last_n min_len close) in
    match pct_change current prev with
    | None => None
    | Some change =>
        if (if sma then current >? average else true) && (change >? Num noise)
        then Some (Some (1%R, DetailUp res change))
        else if (if sma then current <? average else true)
                && (change <? Num (- noise))
        then Some (Some ((-1)%R, DetailDown res change))
        else Some (Some (0%R, DetailFlat res change))
    end.

(** The four blocks with their weights, in the order of the source. *)
Definition run_blocks (data_1d data_1h data_30m data_15m : list fl)
  : list (option (option (R * Detail)) * R) :=
  [ (resolution_block Daily 3 2 true 0.5 data_1d, 0.40%R);
    (resolution_block Hourly 6 6 true 0.3 data_1h, 0.30%R);
    (resolution_block HalfHourly 4 4 false 0.2 data_30m, 0.20%R);
    (resolution_block QuarterHourly 4 4 false 0.15 data_15m, 0.10%R) ].

(** [signals], [weights] and [details] after the blocks; [None] when one
    of them raised. *)
Fixpoint collect (blocks : list (option (option (R * Detail)) * R))
  : option (list (R * R) * list Detail) :=
  match blocks with
  | [] => Some ([], [])
  | (None, _) :: _ => None
  | (Some None, _) :: rest => collect rest
  | (Some (Some (signal, detail)), weight) :: rest =>
      match collect rest with
      | None => None
      | Some (sw, details) => Some ((signal, weight) :: sw, detail :: details)
      end
  end.

(** The function after its four downloads: each argument is the [Close]
    column of the frame downloaded for that resolution (empty for an empty
    frame).  Any exception is caught and reported as a Neutral verdict. *)
Definition analyze_trend_properly (data_1d data_1h data_30m data_15m : list fl)
  : Trend * R * list Detail :=
  match collect (run_blocks data_1d data_1h data_30m data_15m) with
  | None => (Neutral, 0%R, [UnableToAnalyze])
  | Some ([], _) => (Neutral, 0%R, [InsufficientData])
  | Some (sw, details) =>
      let weighted_score :=
        (fold_right Rplus 0 (map (fun p => fst p * snd p) sw)
         / fold_right Rplus 0 (map snd sw))%R in
      let confidence := (Rabs weighted_score * 100)%R in
      let trend :=
        if Rltb 0.15 weighted_score then Bullish
        else if Rltb weighted_score (-0.15) then Bearish
        else Neutral in
      (trend, confidence, details)
  end.

End UiComponents.

(** ** The formulas of the specification

    Written from the specification's sentences, to be compared with the
    definitions above. *)

Module Spec.
Import Scipy.
Import Calculations.
Import OptionsLogic.

(** "breakeven = strike + premium for calls, strike - premium for puts" *)
Definition spec_breakeven (option_type : OptionType) (strike premium : R) : R :=
  match option_type with
  | Call => strike + premium
  | _ => strike - premium
  end.

(** "d1 = (ln(S / breakeven) + (r + 0.5 sigma^2) t) / (sigma sqrt t)" *)
Definition spec_d1 (r S breakeven sigma t : R) : R :=
  (ln (S / breakeven) + (r + 0.5 * (sigma * sigma)) * t) / (sigma * sqrt t).

(** "d2 = d1 - sigma sqrt t" *)
Definition spec_d2 (r S breakeven sigma t : R) : R :=
  spec_d1 r S breakeven sigma t - sigma * sqrt t.

(** "POP = Phi(d2) for calls, Phi(-d2) for puts", at price [S] against the
    reference price [ref]. *)
Definition spec_phi (option_type : OptionType) (r S ref sigma t : R) : R :=
  match option_type with
  | Call => norm_cdf (spec_d2 r S ref sigma t)
  | _ => norm_cdf (- spec_d2 r S ref sigma t)
  end.

(** "t = DTE / 365 ... Result is clipped to [0,1]", with the break-even as
    the reference price. *)
Definition spec_pop (r : R) (option_type : OptionType)
    (strike premium S sigma dte : R) : R :=
  clipR 0 1
    (spec_phi option_type r S (spec_breakeven option_type strike premium)
       sigma (dte / 365)).

(** "Weighted score = sum(signal * weight) / sum(weight used)", over the
    pairs (signal, weight) of the resolutions used. *)
Definition signal_weight_sum (used : list (R * R)) : R :=
  fold_right Rplus 0 (map (fun sw => fst sw * snd sw) used).

Definition weight_sum (used : list (R * R)) : R :=
  fold_right Rplus 0 (map snd used).

Definition spec_weighted_score (used : list (R * R)) : R :=
  signal_weight_sum used / weight_sum used.

(** "Bullish if weighted score > 0.15, Bearish if < -0.15, else Neutral" *)
Definition spec_trend_label (weighted_score : R) : Trend :=
  if Rltb 0.15 weighted_score then Bullish
  else if Rltb weighted_score (-0.15) then Bearish
  else Neutral.

(** "a tolerance = 0.5% of the most recently accepted merged level (or of
    the overall series mean if that level is zero)" *)
Definition spec_tolerance (series_mean last_accepted : R) : R :=
  0.005 * (if Req_dec_T last_accepted 0 then series_mean else last_accepted).

(** "if the candidate differs from the last accepted level by more than
    the tolerance, append it as a new level; otherwise replace the last
    accepted level with the average of itself and the candidate":
    [accepted] holds the levels before the last accepted one. *)
Fixpoint spec_merge (series_mean : R) (accepted : list R) (last_accepted : R)
    (candidates : list R) : list R :=
  match candidates with
  | [] => accepted ++ [last_accepted]
  | candidate :: rest =>
      if Rlt_dec (spec_tolerance series_mean last_accepted)
                 (Rabs (candidate - last_accepted))
      then spec_merge series_mean (accepted ++ [last_accepted]) candidate rest
      else spec_merge series_mean accepted
             ((last_accepted + candidate) / 2) rest
  end.

(** The merged levels of a list of sorted raw pivots: the first one is
    accepted, the others are candidates in turn. *)
Definition spec_merged_levels (series_mean : R) (sorted_raw : list R)
  : list R :=
  match sorted_raw with
  | [] => []
  | first :: rest => spec_merge series_mean [] first rest
  end.

(** "Poor [0,0.4), Fair [0.4,0.6), Good [0.6,0.75), Excellent [0.75,1.0]" *)
Definition spec_quality_tier (overall_score : R) : option Tier :=
  if Rleb 0 overall_score && Rltb overall_score 0.4 then Some Poor
  else if Rleb 0.4 overall_score && Rltb overall_score 0.6 then Some Fair
  else if Rleb 0.6 overall_score && Rltb overall_score 0.75 then Some Good
  else if Rleb 0.75 overall_score && Rleb overall_score 1.0 then Some Excellent
  else None.

(** The formulas of the trend verdict on binary64, for
    [calculations.analyze_market_trend]. *)
Module InDoubles.
Local Open Scope float_scope.

(** "sum(signal * weight)", added up from left to right. *)
Definition signal_weight_sum (used : list (float * float)) : float :=
  fold_left (fun acc sw => acc + fst sw * snd sw) used 0.

(** "sum(weight used)" *)
Definition weight_sum (used : list (float * float)) : float :=
  py_sum (map snd used).

(** "Weighted score = sum(signal * weight) / sum(weight used)" *)
Definition spec_weighted_score (used : list (float * float)) : float :=
  signal_weight_sum used / weight_sum used.

(** The pairs (signal, weight) of "the resolutions actually used" by
    [analyze_market_trend]: the intervals listed in [weights] whose series
    yields a signal, in the order of [trend_data]. *)
Definition signals_of (items : list (string * TrendEntry))
  : list (float * float) :=
  flat_map (fun kv =>
              match interval_signal (fst kv) (snd kv) with
              | (Some signal, _) => [(signal, weight_of (fst kv))]
              | (None, _) => []
              end)
           items.

Definition used_signals (trend_data : list (string * TrendEntry))
  : list (float * float) :=
  signals_of (filter (fun kv => in_weights (fst kv)) trend_data).

(** "Bullish if weighted score > 0.15, Bearish if < -0.15, else Neutral" *)
Definition spec_trend_label (weighted_score : float) : Trend :=
  if 0.15 <? weighted_score then Bullish
  else if weighted_score <? -0.15 then Bearish
  else Neutral.

End InDoubles.

End Spec.

(** ** Rounding to nearest

    The notions in which the rounding of the binary64 operations is
    stated: [SpecFloat] gives each operation as an algorithm on mantissas
    and exponents, and the theorems further down read it as the rounding
    of a real number. *)

Module Rounding.

Definition bpow (e : Z) : R := powerRZ 2 e.

(** The real [q] lies in the slice [[m 2^e, (m+1) 2^e)] at the place the
    location says: on its lower end, or inside, below, at or above its
    middle. *)
Definition side (c : comparison) (q mid : R) : Prop :=
  match c with
  | Lt => q < mid
  | Eq => q = mid
  | Gt => mid < q
  end.

Definition inb (m e : Z) (l : location) (q : R) : Prop :=
  match l with
  | loc_Exact => q = IZR m * bpow e
  | loc_Inexact c =>
      IZR m * bpow e < q < (IZR m + 1) * bpow e
      /\ side c q ((IZR m + / 2) * bpow e)
  end.

(** The value of a number of the format. *)
Definition fval (s : bool) (m : positive) (e : Z) : R :=
  (if s then -1 else 1) * (IZR (Z.pos m) * bpow e).

(** Values with infinities, and their order. *)
Inductive xreal : Type :=
| Xnan
| Xinf (s : bool)
| Xreal (r : R).

Definition xle (a b : xreal) : Prop :=
  match a, b with
  | Xnan, _ | _, Xnan => False
  | Xinf true, _ => True
  | _, Xinf false => True
  | Xinf false, _ => False
  | _, Xinf true => False
  | Xreal x, Xreal y => x <= y
  end.

Definition xmap (f : R -> R) (a : xreal) : xreal :=
  match a with
  | Xreal x => Xreal (f x)
  | other => other
  end.

Definition sval (z : spec_float) : xreal :=
  match z with
  | S754_zero _ => Xreal 0
  | S754_infinity s => Xinf s
  | S754_nan => Xnan
  | S754_finite s m e => Xreal (fval s m e)
  end.

(** The value of a summand that is not infinite. *)
Definition summand (c : spec_float) : R :=
  match c with
  | S754_finite s m e => fval s m e
  | _ => 0
  end.

(** NaN, or not below zero. *)
Definition nonneg (z : spec_float) : Prop :=
  match z with
  | S754_zero _ | S754_nan => True
  | S754_infinity s | S754_finite s _ _ => s = false
  end.

(** The value of a double. *)
Definition fv (x : float) : xreal := sval (Prim2SF x).

Section Format.
Variables prec emax : Z.

(** What a caller hands to the rounding routine: a non-negative
    mantissa, the slice of [q], and an exponent that leaves no digit
    out. *)
Definition pre (m e : Z) (l : location) (q : R) : Prop :=
  (0 <= m)%Z /\ inb m e l q
  /\ (e <= SpecFloat.fexp prec emax (Zdigits2 m + e))%Z.

(** The second step of the routine: a possible carry into a new digit,
    and the test for overflow. *)
Definition finish (sx : bool) (N E : Z) : spec_float :=
  let '(mrs, e) := shr_fexp prec emax N E loc_Exact in
  match shr_m mrs with
  | Z0 => S754_zero sx
  | Zpos m =>
      if (e <=? emax - prec)%Z then S754_finite sx m e else S754_infinity sx
  | Zneg _ => S754_nan
  end.

Definition canonical (m : positive) (e : Z) : Prop :=
  SpecFloat.fexp prec emax (Zdigits2 (Z.pos m) + e) = e.

(** What the second step returns for the sign [sx] and the rounded value
    [r]. *)
Definition finish_value (z : spec_float) (sx : bool) (r : R) : Prop :=
  match z with
  | S754_zero s => s = sx /\ r = 0
  | S754_finite s m e =>
      s = sx /\ canonical m e /\ (e <= emax - prec)%Z
      /\ IZR (Z.pos m) * bpow e = r
  | S754_infinity s => s = sx /\ bpow emax <= r
  | S754_nan => False
  end.

(** [z] is the rounding of the real [q]: a zero for 0, and otherwise the
    result of the rounding routine on some slice that holds [|q|], with
    the sign of [q]. *)
Definition rounds_to (q : R) (z : spec_float) : Prop :=
  (q = 0 /\ exists s, z = S754_zero s)
  \/ (0 < q
      /\ exists m e l,
           pre m e l q /\ z = binary_round_aux prec emax false m e l)
  \/ (q < 0
      /\ exists m e l,
           pre m e l (- q) /\ z = binary_round_aux prec emax true m e l).

Definition xrounds (a : xreal) (z : spec_float) : Prop :=
  match a with
  | Xnan => False
  | Xinf s => z = S754_infinity s
  | Xreal q => rounds_to q z
  end.

End Format.

End Rounding.

(** ** Sample inputs *)

Module Examples.
Import Calculations.
Import OptionsLogic.

(** [r] with its [delta] field set to [d]. *)
Definition with_delta (r : Row) (d : option fl) : Row :=
  {| strike := strike r;
     lastPrice := lastPrice r;
     bid := bid r;
     ask := ask r;
     volume := volume r;
     openInterest := openInterest r;
     impliedVolatility := impliedVolatility r;
     delta := d |}.

(** A contract without a delta that passes every filter: strike 100,
    last price, bid and ask 2, volume 10, open interest 50, IV 0.3. *)
Definition quiet_row : Row :=
  {| strike := Num 100;
     lastPrice := Num 2;
     bid := Num 2;
     ask := Num 2;
     volume := Num 10;
     openInterest := Num 50;
     impliedVolatility := Num 0.3;
     delta := None |}.

(** A contract quoted 0.9 / 1.1000000001: its spread, 0.2000000001, is
    more than 20% of its mid-price 1.00000000005. *)
Definition wide_row : Row :=
  {| strike := Num 100;
     lastPrice := Num 1;
     bid := Num 0.9;
     ask := Num 1.1000000001;
     volume := Num 10;
     openInterest := Num 50;
     impliedVolatility := Num 0.3;
     delta := None |}.

(** One bar at 3 with volume 1, and one at 45.67 with volume 1,500,000. *)
Definition unit_bar : Bar :=
  {| High := 3; Low := 3; Close := 3; Volume := 1 |}.
Definition busy_bar : Bar :=
  {| High := 45.67; Low := 45.67; Close := 45.67; Volume := 1500000 |}.

(** Only the hourly series is present, and it rises by 1%. *)
Definition hourly_rise : list (string * TrendEntry) :=
  [("1h"%string, Series [PyDouble 100; PyDouble 101])].

(** The 5-minute series rises by 1% and the 15-minute series falls by
    1%. *)
Definition rise_then_fall : list (string * TrendEntry) :=
  [("5m"%string, Series [PyDouble 100; PyDouble 101]);
   ("15m"%string, Series [PyDouble 100; PyDouble 99])].

(** A series with a support at 0: the raw supports are 0 and 0.004. *)
Definition zero_support (peak : R) : list fl :=
  [Num 0; Num peak; Num 0.004].

(** Stand-ins for [np.log] and [norm.cdf] on which [calculate_pop] can be
    evaluated: the tangent of the logarithm at 1, and the line through
    (0, 0.5) with slope 1/4. *)
Definition tangent_log (x : float) : float := (x - 1)%float.
Definition centred_line (x : float) : float := (x / 4 + 0.5)%float.

End Examples.

(** * Properties *)

(** ** Deciding comparisons *)

Lemma Rltb_true x y : x < y -> Rltb x y = true.
Proof. unfold Rltb. destruct (Rlt_dec x y); tauto. Qed.

Lemma Rltb_false x y : ~ x < y -> Rltb x y = false.
Proof. unfold Rltb. destruct (Rlt_dec x y); tauto. Qed.

Lemma Rleb_true x y : x <= y -> Rleb x y = true.
Proof. unfold Rleb. destruct (Rle_dec x y); tauto. Qed.

Lemma Rleb_false x y : ~ x <= y -> Rleb x y = false.
Proof. unfold Rleb. destruct (Rle_dec x y); tauto. Qed.

Lemma Reqb_true x y : x = y -> Reqb x y = true.
Proof. unfold Reqb. destruct (Req_dec_T x y); tauto. Qed.

Lemma Reqb_false x y : x <> y -> Reqb x y = false.
Proof. unfold Reqb. destruct (Req_dec_T x y); tauto. Qed.

Lemma Rltb_iff x y : Rltb x y = true <-> x < y.
Proof. unfold Rltb. destruct (Rlt_dec x y); split; intros; (tauto || discriminate). Qed.

Lemma Rleb_iff x y : Rleb x y = true <-> x <= y.
Proof. unfold Rleb. destruct (Rle_dec x y); split; intros; (tauto || discriminate). Qed.

Lemma Reqb_iff x y : Reqb x y = true <-> x = y.
Proof. unfold Reqb. destruct (Req_dec_T x y); split; intros; (tauto || discriminate). Qed.

(** Settles every comparison of the goal that linear arithmetic decides
    from the context. *)
Ltac rcompare :=
  repeat match goal with
    | |- context [Rltb ?a ?b] =>
        first [ rewrite (Rltb_true a b) by lra
              | rewrite (Rltb_false a b) by lra ]
    | |- context [Rleb ?a ?b] =>
        first [ rewrite (Rleb_true a b) by lra
              | rewrite (Rleb_false a b) by lra ]
    | |- context [Reqb ?a ?b] =>
        first [ rewrite (Reqb_true a b) by lra
              | rewrite (Reqb_false a b) by lra ]
    end.

Ltac fl_unfold :=
  unfold fgt, fge, fne, flt, fle, feq, cmp2, fadd, fsub, fmul, fneg, fabs,
         fdiv, fsqrt, flog, fclip, lift2, lift1 in *.

(** Unfolds the cell arithmetic and decides the comparisons, as long as
    that makes progress. *)
Ltac fl_eval := repeat (progress (fl_unfold; cbn [notna isna fillna negb andb orb as_fl is_numeric forallb]; rcompare)).

Lemma clipR_range lo hi x : lo <= hi -> lo <= clipR lo hi x <= hi.
Proof.
  intro H. unfold clipR, Rmin, Rmax.
  destruct (Rle_dec x lo); destruct (Rle_dec _ hi); lra.
Qed.

Lemma clipR_id lo hi x : lo <= x <= hi -> clipR lo hi x = x.
Proof.
  intro H. unfold clipR, Rmin, Rmax.
  destruct (Rle_dec x lo); destruct (Rle_dec _ hi); lra.
Qed.

Lemma clipR_mono lo hi x y : x <= y -> clipR lo hi x <= clipR lo hi y.
Proof.
  intro H. unfold clipR, Rmin, Rmax.
  destruct (Rle_dec x lo); destruct (Rle_dec y lo);
    repeat match goal with |- context [Rle_dec ?a ?b] => destruct (Rle_dec a b) end; lra.
Qed.

Lemma clipR_strict lo hi x y :
  x < y -> clipR lo hi x < hi -> lo < clipR lo hi y ->
  clipR lo hi x < clipR lo hi y.
Proof.
  unfold clipR, Rmin, Rmax.
  destruct (Rle_dec x lo); destruct (Rle_dec y lo);
    repeat match goal with |- context [Rle_dec ?a ?b] => destruct (Rle_dec a b) end; lra.
Qed.

(** ** The standard normal distribution function *)

Section NormalCdf.
Import Scipy.

Lemma gauss_pdf_pos t : 0 < gauss_pdf t.
Proof.
  unfold gauss_pdf. apply Rdiv_lt_0_compat; [apply exp_pos|].
  apply sqrt_lt_R0. generalize PI_RGT_0; lra.
Qed.

Lemma sqrt_2PI_ge_2 : 2 <= sqrt (2 * PI).
Proof.
  rewrite <- (sqrt_square 2) at 1 by lra.
  apply sqrt_le_1_alt. generalize PI2_1; lra.
Qed.

Lemma gauss_pdf_le_half t : gauss_pdf t <= 1 / 2.
Proof.
  unfold gauss_pdf.
  assert (Hs := sqrt_2PI_ge_2).
  assert (He : exp (- (t * t) / 2) <= 1).
  { rewrite <- exp_0.
    destruct (Req_dec (t * t) 0) as [E|E].
    - rewrite E. replace (-0/2) with 0 by lra. lra.
    - left. apply exp_increasing. nra. }
  apply Rle_trans with (1 / sqrt (2 * PI)).
  - apply Rmult_le_compat_r; [|exact He]. left; apply Rinv_0_lt_compat; lra.
  - unfold Rdiv. rewrite !Rmult_1_l. apply Rinv_le_contravar; lra.
Qed.

(** The density decreases away from the origin. *)
Lemma gauss_pdf_lower (m t : R) : Rabs t <= m -> gauss_pdf m <= gauss_pdf t.
Proof.
  intro H. unfold gauss_pdf.
  apply Rmult_le_compat_r.
  - left; apply Rinv_0_lt_compat, sqrt_lt_R0. generalize PI_RGT_0; lra.
  - assert (t * t <= m * m).
    { assert (0 <= Rabs t) by apply Rabs_pos.
      replace (t * t) with (Rabs t * Rabs t).
      - nra.
      - unfold Rabs; destruct (Rcase_abs t); lra. }
    destruct (Req_dec (t * t) (m * m)) as [E|E].
    + rewrite E; lra.
    + left; apply exp_increasing; lra.
Qed.

Lemma norm_cdf_diff a b :
  norm_cdf b - norm_cdf a = RiemannInt (gauss_integrable a b).
Proof.
  unfold norm_cdf.
  rewrite <- (RiemannInt_P26 (gauss_integrable 0 a) (gauss_integrable a b)
                (gauss_integrable 0 b)).
  lra.
Qed.

Lemma norm_cdf_increasing a b : a < b -> norm_cdf a < norm_cdf b.
Proof.
  intro Hab.
  assert (Hd := norm_cdf_diff a b).
  set (m := Rmax (Rabs a) (Rabs b)).
  destruct (RiemannInt_const_bound (l := gauss_pdf m) (u := 1 / 2)
              (gauss_integrable a b) (Rlt_le _ _ Hab)) as [Hlo _].
  { intros x Hx. split; [|apply gauss_pdf_le_half].
    apply gauss_pdf_lower. unfold m.
    assert (Ha : Rabs a <= Rmax (Rabs a) (Rabs b)) by apply Rmax_l.
    assert (Hb : Rabs b <= Rmax (Rabs a) (Rabs b)) by apply Rmax_r.
    revert Ha Hb. unfold Rabs.
    destruct (Rcase_abs a), (Rcase_abs b), (Rcase_abs x); lra. }
  assert (0 < gauss_pdf m * (b - a)).
  { apply Rmult_lt_0_compat; [apply gauss_pdf_pos | lra]. }
  lra.
Qed.

Lemma norm_cdf_injective a b : norm_cdf a = norm_cdf b -> a = b.
Proof.
  intro H. destruct (Rtotal_order a b) as [L|[E|G]]; [|exact E|].
  - apply norm_cdf_increasing in L. lra.
  - apply norm_cdf_increasing in G. lra.
Qed.

Lemma norm_cdf_0 : norm_cdf 0 = 1 / 2.
Proof. unfold norm_cdf. rewrite RiemannInt_P9. lra. Qed.

(** A crude enclosure, enough to see that the values met at concrete
    inputs below are not touched by the clipping to [[0,1]]. *)
Lemma norm_cdf_unit_range x : Rabs x <= 1 -> 0 <= norm_cdf x <= 1.
Proof.
  intro Hx.
  assert (Hx' : -1 <= x <= 1).
  { revert Hx. unfold Rabs. destruct (Rcase_abs x); lra. }
  destruct (Rle_dec 0 x) as [H0|H0].
  - destruct (RiemannInt_const_bound (l := 0) (u := 1 / 2)
                (gauss_integrable 0 x) H0) as [Hlo Hhi].
    { intros t _. split; [left; apply gauss_pdf_pos | apply gauss_pdf_le_half]. }
    unfold norm_cdf. lra.
  - assert (Hx0 : x <= 0) by lra.
    destruct (RiemannInt_const_bound (l := 0) (u := 1 / 2)
                (gauss_integrable x 0) Hx0) as [Hlo Hhi].
    { intros t _. split; [left; apply gauss_pdf_pos | apply gauss_pdf_le_half]. }
    assert (Hd := norm_cdf_diff x 0). rewrite norm_cdf_0 in Hd. lra.
Qed.

Lemma norm_cdf_open_range x : Rabs x < 1 -> 0 < norm_cdf x < 1.
Proof.
  intro Hx.
  assert (Hx' : -1 < x < 1).
  { revert Hx. unfold Rabs. destruct (Rcase_abs x); lra. }
  assert (Hm : 0 <= norm_cdf (-1) <= 1).
  { apply norm_cdf_unit_range. unfold Rabs. destruct (Rcase_abs (-1)); lra. }
  assert (Hp : 0 <= norm_cdf 1 <= 1).
  { apply norm_cdf_unit_range. unfold Rabs. destruct (Rcase_abs 1); lra. }
  assert (H1 : norm_cdf (-1) < norm_cdf x) by (apply norm_cdf_increasing; lra).
  assert (H2 : norm_cdf x < norm_cdf 1) by (apply norm_cdf_increasing; lra).
  lra.
Qed.

End NormalCdf.

(** ** Probability of profit *)

Section ProbabilityOfProfit.
Import Scipy Calculations Spec.

Lemma sigma_sqrt_t_pos sigma dte :
  0 < dte -> 0 < sigma -> 0 < sigma * sqrt (dte / 365).
Proof.
  intros Hd Hs. apply Rmult_lt_0_compat; [exact Hs|].
  apply sqrt_lt_R0. lra.
Qed.

(** On valid inputs [calculations.calculate_pop] evaluates the closed form
    with the strike as reference price and the rate 0.05, then clips. *)
Lemma calculate_pop_valid option_type K premium S sigma dte :
  0 < dte -> 0 < sigma -> 0 < S -> 0 < K ->
  pop_of option_type K premium S sigma dte =
  match option_type with
  | OtherType => NaN
  | _ => Num (clipR 0 1 (spec_phi option_type 0.05 S K sigma (dte / 365)))
  end.
Proof.
  intros Hd Hs HS HK.
  assert (Hst := sigma_sqrt_t_pos sigma dte Hd Hs).
  assert (Hq : 0 < S / K) by (apply Rdiv_lt_0_compat; assumption).
  unfold pop_of, calculate_pop. fl_eval.
  destruct option_type; cbn; try reflexivity;
    unfold fnorm_cdf, spec_phi, spec_d2, spec_d1; fl_eval;
    do 3 f_equal; try f_equal; lra.
Qed.

(** On the same inputs [TradeBot_V1.calculate_pop] evaluates it with the
    break-even as reference price and the rate 0.01, and does not clip. *)
Lemma tradebot_pop_valid option_type K premium S sigma dte :
  0 < dte -> 0 < sigma -> 0 < S ->
  0 < spec_breakeven option_type K premium ->
  TradeBot.calculate_pop option_type (Num K) (Num premium) (Num S)
    (Num sigma) (Num dte) =
  match option_type with
  | OtherType => NaN
  | _ => Num (spec_phi option_type 0.01 S
                (spec_breakeven option_type K premium) sigma (dte / 365))
  end.
Proof.
  intros Hd Hs HS HB.
  assert (Hst := sigma_sqrt_t_pos sigma dte Hd Hs).
  assert (Hq : 0 < S / spec_breakeven option_type K premium)
    by (apply Rdiv_lt_0_compat; assumption).
  unfold TradeBot.calculate_pop. fl_eval.
  destruct option_type; cbn in *; try reflexivity;
    unfold fnorm_cdf, spec_phi, spec_d2, spec_d1; fl_eval;
    do 3 f_equal; try f_equal; lra.
Qed.

Lemma ln_le_minus_one x : 0 < x -> ln x <= x - 1.
Proof.
  intro Hx. destruct (Req_dec (ln x) 0) as [E|E].
  - rewrite E. destruct (Rtotal_order x 1) as [L|[Q|G]]; [|lra|lra].
    apply (ln_increasing x 1 Hx) in L. rewrite ln_1 in L. lra.
  - assert (H := exp_ineq1 (ln x) E). rewrite (exp_ln x Hx) in H. lra.
Qed.

Lemma ln_ge_one_minus_inv x : 0 < x -> 1 - / x <= ln x.
Proof.
  intro Hx.
  assert (Hi : 0 < / x) by (apply Rinv_0_lt_compat; exact Hx).
  assert (H := ln_le_minus_one (/ x) Hi). rewrite (ln_Rinv x Hx) in H. lra.
Qed.

Lemma year_fraction_one : 365 / 365 = 1.
Proof. lra. Qed.

(** The reference point used below: an at-the-money one-year call at 100%
    volatility has [d2 = -0.45] against the strike. *)
Lemma d2_at_the_money : spec_d2 0.05 100 100 1 (365 / 365) = -0.45.
Proof.
  unfold spec_d2, spec_d1. rewrite year_fraction_one, sqrt_1.
  replace (100 / 100) with 1 by lra. rewrite ln_1. lra.
Qed.

Lemma d2_against_110 :
  -0.55 <= spec_d2 0.05 100 110 1 (365 / 365) < -0.45.
Proof.
  unfold spec_d2, spec_d1. rewrite year_fraction_one, sqrt_1.
  assert (Hu : ln (100 / 110) < 0).
  { rewrite <- ln_1. apply ln_increasing; lra. }
  assert (Hl := ln_ge_one_minus_inv (100 / 110)).
  replace (/ (100 / 110)) with 1.1 in Hl by lra.
  lra.
Qed.

Lemma d2_from_110 :
  -0.45 < spec_d2 0.05 110 100 1 (365 / 365) <= -0.35.
Proof.
  unfold spec_d2, spec_d1. rewrite year_fraction_one, sqrt_1.
  assert (Hu : 0 < ln (110 / 100)).
  { rewrite <- ln_1. apply ln_increasing; lra. }
  assert (Hl := ln_le_minus_one (110 / 100)).
  lra.
Qed.

Lemma small_abs x : -1 < x < 1 -> Rabs x < 1.
Proof. intro H. unfold Rabs. destruct (Rcase_abs x); lra. Qed.

(** C1 fails on [calculations.calculate_pop]: for the call with strike
    100, premium 10, price 100, volatility 1 and 365 days it does not
    return the probability of profit computed from the break-even 110
    (it returns the probability of finishing above the strike, whatever
    the premium). *)
Lemma pop_ignores_the_premium :
  pop_of Call 100 10 100 1 365 <> Num (spec_pop 0.05 Call 100 10 100 1 365).
Proof.
  rewrite calculate_pop_valid by lra. unfold spec_pop, spec_phi, spec_breakeven.
  replace (100 + 10) with 110 by lra.
  assert (Ha := d2_at_the_money). assert (Hb := d2_against_110).
  assert (Ra : 0 < norm_cdf (spec_d2 0.05 100 100 1 (365 / 365)) < 1)
    by (apply norm_cdf_open_range, small_abs; lra).
  assert (Rb : 0 < norm_cdf (spec_d2 0.05 100 110 1 (365 / 365)) < 1)
    by (apply norm_cdf_open_range, small_abs; lra).
  intro H. injection H as H.
  rewrite !clipR_id in H by lra.
  apply norm_cdf_injective in H. lra.
Qed.

(** The two definitions side by side: on valid inputs
    [calculations.calculate_pop] is the closed form [Phi(d2)] for calls and
    [Phi(-d2)] for puts, clipped to [[0,1]], where [d1] and [d2] are taken
    against the strike with [r = 0.05] and [t = DTE/365]; the sibling
    [TradeBot_V1.calculate_pop] takes them against the break-even
    [strike + premium] (calls) or [strike - premium] (puts) with
    [r = 0.01], and does not clip. *)
Lemma pop_closed_form option_type K premium S sigma dte :
  option_type <> OtherType ->
  0 < dte -> 0 < sigma -> 0 < K -> 0 < S ->
  pop_of option_type K premium S sigma dte
  = Num (clipR 0 1 (spec_phi option_type 0.05 S K sigma (dte / 365)))
  /\ (0 < spec_breakeven option_type K premium ->
      TradeBot.calculate_pop option_type (Num K) (Num premium) (Num S)
        (Num sigma) (Num dte)
      = Num (spec_phi option_type 0.01 S
               (spec_breakeven option_type K premium) sigma (dte / 365))).
Proof.
  intros Hty Hd Hs HK HS. split.
  - rewrite calculate_pop_valid by assumption. destruct option_type; congruence.
  - intro HB. rewrite tradebot_pop_valid by assumption.
    destruct option_type; congruence.
Qed.

Lemma pop_closed_form_witness :
  pop_of Call 100 10 100 1 365
  = Num (clipR 0 1 (spec_phi Call 0.05 100 100 1 (365 / 365)))
  /\ TradeBot.calculate_pop Call (Num 100) (Num 10) (Num 100) (Num 1)
       (Num 365)
     = Num (spec_phi Call 0.01 100 (spec_breakeven Call 100 10) 1
              (365 / 365)).
Proof.
  destruct (pop_closed_form Call 100 10 100 1 365) as [H1 H2];
    [discriminate | lra ..|].
  split; [exact H1 | apply H2; cbn; lra].
Defined.

(** The inputs on which the guard of [calculate_pop] fires. *)
Lemma calculate_pop_guard option_type K premium S sigma dte :
  dte <= 0 \/ sigma <= 0 \/ K <= 0 \/ S <= 0 ->
  pop_of option_type K premium S sigma dte = NaN.
Proof.
  intro H. unfold pop_of, calculate_pop.
  cbn [forallb is_numeric negb andb as_fl]. fl_unfold.
  destruct (Rle_dec dte 0) as [Hd|Hd]; [rewrite (Rleb_true dte 0 Hd); reflexivity|].
  rewrite (Rleb_false dte 0 Hd).
  destruct (Rle_dec sigma 0) as [Hs|Hs]; [rewrite (Rleb_true sigma 0 Hs); reflexivity|].
  rewrite (Rleb_false sigma 0 Hs).
  destruct (Rle_dec S 0) as [HS|HS]; [rewrite (Rleb_true S 0 HS); reflexivity|].
  rewrite (Rleb_false S 0 HS).
  rewrite (Rleb_true K 0) by lra. reflexivity.
Qed.

(** A value that is not a number, or a NaN, among the inputs also gives
    NaN. *)
Lemma calculate_pop_non_numeric option_type a b c d e :
  forallb is_numeric [a; b; c; d; e] = false ->
  calculate_pop option_type a b c d e = NaN.
Proof. intro H. unfold calculate_pop. rewrite H. reflexivity. Qed.


(** Over the reals the sentinel is returned exactly on the inputs the
    guard rejects (and for an option type that is neither call nor put):
    [sigma * sqrt t] is positive once the guard has passed. *)
Lemma pop_of_nan_iff option_type K premium S sigma dte :
  pop_of option_type K premium S sigma dte = NaN <->
  dte <= 0 \/ sigma <= 0 \/ K <= 0 \/ S <= 0 \/ option_type = OtherType.
Proof.
  split.
  - intro H.
    destruct (Rle_dec dte 0); [tauto|]. destruct (Rle_dec sigma 0); [tauto|].
    destruct (Rle_dec K 0); [tauto|]. destruct (Rle_dec S 0); [tauto|].
    rewrite calculate_pop_valid in H by lra.
    destruct option_type; try discriminate. tauto.
  - intros [H|[H|[H|[H| ->]]]]; try (apply calculate_pop_guard; tauto).
    destruct (Rle_dec dte 0); [apply calculate_pop_guard; tauto|].
    destruct (Rle_dec sigma 0); [apply calculate_pop_guard; tauto|].
    destruct (Rle_dec K 0); [apply calculate_pop_guard; tauto|].
    destruct (Rle_dec S 0); [apply calculate_pop_guard; tauto|].
    rewrite calculate_pop_valid by lra. reflexivity.
Qed.

(** The premium has no influence on [calculations.calculate_pop]. *)
Lemma calculate_pop_premium_irrelevant option_type K premium premium' S sigma dte :
  pop_of option_type K premium S sigma dte
  = pop_of option_type K premium' S sigma dte.
Proof. reflexivity. Qed.

End ProbabilityOfProfit.

(** ** The ranked table *)

Section RankedTable.
Import Scipy Calculations OptionsLogic Spec Examples.

Lemma In_insert_by {A} (le : A -> A -> bool) x a l :
  In x (insert_by le a l) <-> x = a \/ In x l.
Proof.
  induction l as [|y t IH]; cbn.
  - intuition.
  - destruct (le a y); cbn; rewrite ?IH; intuition.
Qed.

Lemma In_sorted_by {A} (le : A -> A -> bool) x l :
  In x (sorted_by le l) <-> In x l.
Proof.
  unfold sorted_by. induction l as [|y t IH]; cbn.
  - tauto.
  - rewrite In_insert_by, IH. intuition.
Qed.

(** The rows of the result are the scored rows of the filtered frame. *)
Lemma rank_rows df option_type S dte out :
  rank_options_logic df option_type S dte = Some out ->
  forall sr,
    In sr out <->
    In sr (score_frame option_type S dte
             (hard_filters (filter required_cols_present df))).
Proof.
  unfold rank_options_logic. intros H sr.
  destruct (filter required_cols_present df) as [|r0 df0] eqn:E0.
  - injection H as <-. cbn. tauto.
  - destruct (hard_filters (r0 :: df0)) as [|r1 df1] eqn:E1.
    + injection H as <-. cbn. tauto.
    + destruct option_type; try discriminate;
        match type of H with
        | Some ?l = _ => replace out with l by congruence
        end; apply In_sorted_by.
Qed.

(** For a call or a put the function returns. *)
Lemma rank_returns df option_type S dte :
  option_type <> OtherType ->
  exists out, rank_options_logic df option_type S dte = Some out.
Proof.
  intro Hty. unfold rank_options_logic.
  destruct (filter required_cols_present df); [eexists; reflexivity|].
  destruct (hard_filters _); [eexists; reflexivity|].
  destruct option_type; try congruence; eexists; reflexivity.
Qed.

Lemma in_score_frame option_type S dte F sr :
  In sr (score_frame option_type S dte F) <->
  exists r, In r F /\ sr = scored_in option_type S dte F r.
Proof.
  unfold score_frame. rewrite in_map_iff. unfold scored_in.
  split; intros (r & H1 & H2); exists r; [split; [exact H2 | symmetry; exact H1]|].
  split; [symmetry; apply H2 | apply H1].
Qed.

Lemma in_hard_filters r df :
  In r (hard_filters df) <->
  In r df /\ valid_prices r = true /\ reasonable_iv r = true
  /\ liquid_enough r = true /\ tight_spread r = true.
Proof. unfold hard_filters. rewrite !filter_In. tauto. Qed.

Lemma in_surviving r df :
  In r (surviving df) <->
  In r df /\ required_cols_present r = true
  /\ valid_prices r = true /\ reasonable_iv r = true
  /\ liquid_enough r = true /\ tight_spread r = true.
Proof. unfold surviving. rewrite in_hard_filters, filter_In. tauto. Qed.

(** What the result says about a row: it is a row of the input that
    passed every filter, scored. *)
Lemma rank_row_inv df option_type S dte out sr :
  rank_options_logic df option_type S dte = Some out -> In sr out ->
  sr = scored_in option_type S dte (surviving df) (row sr)
  /\ In (row sr) (surviving df)
  /\ option_type <> OtherType.
Proof.
  intros H Hin. assert (Hin' := Hin).
  apply (rank_rows _ _ _ _ _ H) in Hin.
  apply in_score_frame in Hin. destruct Hin as (r & Hr & ->).
  cbn [row scored_in score_row]. split; [reflexivity|]. split; [exact Hr|].
  intros ->. unfold rank_options_logic in H. unfold surviving in Hr.
  destruct (filter required_cols_present df).
  - destruct Hr.
  - destruct (hard_filters _) eqn:E; [destruct Hr | discriminate].
Qed.

(** A frame of one row that passes the filters comes back as one scored
    row. *)
Lemma rank_single r option_type S dte :
  option_type <> OtherType ->
  required_cols_present r = true -> valid_prices r = true ->
  reasonable_iv r = true -> liquid_enough r = true -> tight_spread r = true ->
  exists sr,
    rank_options_logic [r] option_type S dte = Some [sr] /\ row sr = r
    /\ POP sr = fillna 0 (calculate_pop option_type (PyFloat (strike r))
                            (PyFloat (lastPrice r)) (PyFloat S)
                            (PyFloat (impliedVolatility r)) (PyFloat dte)).
Proof.
  intros Hty H0 H1 H2 H3 H4. unfold rank_options_logic, hard_filters.
  cbn [filter]. rewrite H0. cbn [filter]. rewrite H1. cbn [filter].
  rewrite H2. cbn [filter]. rewrite H3. cbn [filter]. rewrite H4.
  destruct option_type; try congruence; eexists; (split; [reflexivity|]);
    split; reflexivity.
Qed.


Ltac row_eval :=
  unfold required_cols_present, valid_prices, reasonable_iv, liquid_enough,
         tight_spread, row_spread_pct, row_mid_price, min_volume, min_oi,
         quiet_row, wide_row;
  cbn [strike lastPrice bid ask volume openInterest impliedVolatility delta];
  fl_eval.

Lemma quiet_row_passes :
  required_cols_present quiet_row = true /\ valid_prices quiet_row = true
  /\ reasonable_iv quiet_row = true /\ liquid_enough quiet_row = true
  /\ tight_spread quiet_row = true.
Proof. repeat split; row_eval; reflexivity. Qed.

Lemma wide_row_passes :
  required_cols_present wide_row = true /\ valid_prices wide_row = true
  /\ reasonable_iv wide_row = true /\ liquid_enough wide_row = true
  /\ tight_spread wide_row = true.
Proof. repeat split; row_eval; reflexivity. Qed.

(** *** POP in the ranked table *)

(** C2, as stated, fails: with DTE = 0 [calculate_pop] returns NaN, but the
    row that [rank_options_logic] scores carries POP = 0. *)
Lemma ranked_pop_is_zero :
  exists sr,
    rank_options_logic [quiet_row] Call (Num 100) (Num 0) = Some [sr]
    /\ pop_of Call 100 2 100 0.3 0 = NaN
    /\ POP sr = Num 0.
Proof.
  destruct quiet_row_passes as (H0 & H1 & H2 & H3 & H4).
  destruct (rank_single quiet_row Call (Num 100) (Num 0))
    as (sr & E & _ & HP); try assumption; try discriminate.
  assert (G : pop_of Call 100 2 100 0.3 0 = NaN)
    by (apply calculate_pop_guard; lra).
  exists sr. split; [exact E|]. split; [exact G|].
  rewrite HP. cbn [quiet_row strike lastPrice impliedVolatility].
  fold (pop_of Call 100 2 100 0.3 0). rewrite G. reflexivity.
Qed.

(** C2, amended: whenever a precondition is violated (DTE <= 0, implied
    volatility <= 0, strike <= 0 or current price <= 0) or
    [sigma * sqrt t] is zero, [calculate_pop] returns NaN, neither zero
    nor an exception; in the rows that [rank_options_logic] scores this
    NaN is replaced by 0 in the POP field. *)
Theorem pop_undefined_on_invalid_inputs option_type K premium S sigma dte :
  dte <= 0 \/ sigma <= 0 \/ K <= 0 \/ S <= 0
  \/ sigma * sqrt (dte / 365) = 0 ->
  pop_of option_type K premium S sigma dte = NaN
  /\ forall df out sr,
       rank_options_logic df option_type (Num S) (Num dte) = Some out ->
       In sr out ->
       strike (row sr) = Num K -> lastPrice (row sr) = Num premium ->
       impliedVolatility (row sr) = Num sigma ->
       POP sr = Num 0.
Proof.
  intro Hbad.
  assert (G : pop_of option_type K premium S sigma dte = NaN).
  { apply pop_of_nan_iff.
    destruct Hbad as [H|[H|[H|[H|H]]]]; try tauto.
    destruct (Rle_dec dte 0); [tauto|]. destruct (Rle_dec sigma 0); [tauto|].
    assert (P := sigma_sqrt_t_pos sigma dte ltac:(lra) ltac:(lra)). lra. }
  split; [exact G|].
  intros df out sr Hrank Hin HK Hp Hs.
  destruct (rank_row_inv _ _ _ _ _ _ Hrank Hin) as (Hsr & _).
  rewrite Hsr. cbn [POP score_row scored_in]. rewrite HK, Hp, Hs.
  fold (pop_of option_type K premium S sigma dte). rewrite G. reflexivity.
Qed.

Lemma pop_undefined_on_invalid_inputs_witness :
  pop_of Call 100 2 100 0.3 0 = NaN
  /\ forall df out sr,
       rank_options_logic df Call (Num 100) (Num 0) = Some out ->
       In sr out ->
       strike (row sr) = Num 100 -> lastPrice (row sr) = Num 2 ->
       impliedVolatility (row sr) = Num 0.3 ->
       POP sr = Num 0.
Proof.
  apply (pop_undefined_on_invalid_inputs Call 100 2 100 0.3 0). left. lra.
Defined.

(** *** The hard filters *)

Lemma fle_num_inv c x :
  fle (Num c) x = true -> exists v, x = Num v /\ c <= v.
Proof.
  destruct x as [|v]; cbn; [discriminate|].
  intro H. exists v. split; [reflexivity | apply Rleb_iff; exact H].
Qed.

Lemma flt_num_inv c x :
  flt (Num c) x = true -> exists v, x = Num v /\ c < v.
Proof.
  destruct x as [|v]; cbn; [discriminate|].
  intro H. exists v. split; [reflexivity | apply Rltb_iff; exact H].
Qed.

(** What the spread filter lets through, for a row with positive quotes. *)
Lemma tight_spread_inv r b a :
  bid r = Num b -> ask r = Num a -> 0 < b -> 0 < a ->
  tight_spread r = true ->
  a - b <= 0.2 * ((b + a) / 2 + 1e-9).
Proof.
  intros Hb Ha Pb Pa. unfold tight_spread, row_spread_pct, row_mid_price.
  rewrite Hb, Ha. fl_eval. intro H. apply Rleb_iff in H.
  set (D := (b + a) / 2 + 1e-9) in *.
  assert (HD : 0 < D) by (unfold D; lra).
  assert (E : a - b = (a - b) / D * D) by (field; lra).
  rewrite E. nra.
Qed.

(** C4, as stated, fails: the row quoted 0.9 / 1.1000000001 has a spread
    above 20% of its mid-price, yet it is scored. *)
Lemma wide_row_is_scored :
  exists sr b a,
    rank_options_logic [wide_row] Call (Num 100) (Num 30) = Some [sr]
    /\ bid (row sr) = Num b /\ ask (row sr) = Num a
    /\ a - b > 0.2 * ((b + a) / 2).
Proof.
  destruct wide_row_passes as (H0 & H1 & H2 & H3 & H4).
  destruct (rank_single wide_row Call (Num 100) (Num 30))
    as (sr & E & Hr & _); try assumption; try discriminate.
  exists sr, 0.9, 1.1000000001. rewrite Hr.
  split; [exact E|]. split; [reflexivity|]. split; [reflexivity | lra].
Qed.

(** C4, amended: every row in the output of [rank_options_logic] is a row
    of the input chain with volume at least 10, open interest at least 50
    and a bid-ask spread of at most 20% of (mid-price + 1e-9). *)
Theorem ranked_rows_pass_liquidity_filters df option_type S dte out sr :
  rank_options_logic df option_type S dte = Some out ->
  In sr out ->
  In (row sr) df
  /\ exists v oi b a,
       volume (row sr) = Num v /\ openInterest (row sr) = Num oi
       /\ bid (row sr) = Num b /\ ask (row sr) = Num a
       /\ 10 <= v /\ 50 <= oi
       /\ a - b <= 0.2 * ((b + a) / 2 + 1e-9).
Proof.
  intros Hrank Hin.
  destruct (rank_row_inv _ _ _ _ _ _ Hrank Hin) as (_ & Hsurv & _).
  apply in_surviving in Hsurv.
  destruct Hsurv as (Hdf & _ & Hprices & _ & Hliq & Hspread).
  split; [exact Hdf|].
  unfold valid_prices in Hprices. unfold liquid_enough in Hliq.
  apply andb_prop in Hprices. destruct Hprices as [Hprices Hask].
  apply andb_prop in Hprices. destruct Hprices as [_ Hbid].
  apply andb_prop in Hliq. destruct Hliq as [Hvol Hoi].
  apply flt_num_inv in Hbid, Hask. apply fle_num_inv in Hvol, Hoi.
  destruct Hbid as (b & Eb & Pb). destruct Hask as (a & Ea & Pa).
  destruct Hvol as (v & Ev & Pv). destruct Hoi as (oi & Eoi & Poi).
  exists v, oi, b, a. unfold min_volume in Pv. unfold min_oi in Poi.
  repeat split; try assumption.
  apply (tight_spread_inv (row sr)); assumption.
Qed.

Lemma ranked_rows_pass_liquidity_filters_witness :
  exists sr,
    rank_options_logic [quiet_row] Call (Num 100) (Num 30) = Some [sr]
    /\ In (row sr) [quiet_row]
    /\ exists v oi b a,
         volume (row sr) = Num v /\ openInterest (row sr) = Num oi
         /\ bid (row sr) = Num b /\ ask (row sr) = Num a
         /\ 10 <= v /\ 50 <= oi
         /\ a - b <= 0.2 * ((b + a) / 2 + 1e-9).
Proof.
  destruct quiet_row_passes as (H0 & H1 & H2 & H3 & H4).
  destruct (rank_single quiet_row Call (Num 100) (Num 30))
    as (sr & E & _ & _); try assumption; try discriminate.
  exists sr. split; [exact E|].
  apply (ranked_rows_pass_liquidity_filters [quiet_row] Call (Num 100)
           (Num 30) [sr] sr E).
  left. reflexivity.
Defined.

End RankedTable.

(** ** Quality tiers and the default delta *)

Section TiersAndDelta.
Import Scipy Calculations OptionsLogic Spec Examples.

(** The bins of [pd.cut] are open on the left and closed on the right. *)
Lemma quality_tier_bins s :
  (quality_tier (Num s) = Some Poor <-> 0 < s <= 0.4)
  /\ (quality_tier (Num s) = Some Fair <-> 0.4 < s <= 0.6)
  /\ (quality_tier (Num s) = Some Good <-> 0.6 < s <= 0.75)
  /\ (quality_tier (Num s) = Some Excellent <-> 0.75 < s <= 1)
  /\ (quality_tier (Num s) = None <-> s <= 0 \/ 1 < s).
Proof.
  unfold quality_tier, pd_cut. cbn [combine cut_from].
  unfold Rltb, Rleb.
  repeat match goal with
         | |- context [Rlt_dec ?a ?b] => destruct (Rlt_dec a b)
         | |- context [Rle_dec ?a ?b] => destruct (Rle_dec a b)
         end; cbn [andb];
    repeat split; intros; try discriminate; try congruence; try lra.
Qed.

(** C5, as stated, fails: a score of exactly 0.4 falls in the bin of
    Poor, where the left-closed reading puts it in Fair. *)
Lemma score_04_is_poor :
  quality_tier (Num 0.4) = Some Poor
  /\ spec_quality_tier 0.4 = Some Fair.
Proof.
  split.
  - apply (quality_tier_bins 0.4). lra.
  - unfold spec_quality_tier. rcompare. reflexivity.
Qed.

(** C5, amended: every scored row's quality tier is determined from its
    overall score by left-open, right-closed intervals: Poor on (0, 0.4],
    Fair on (0.4, 0.6], Good on (0.6, 0.75] and Excellent on (0.75, 1.0];
    a row with overall score exactly 0.4 is tiered Poor. *)
Theorem quality_tier_of_scored_row df option_type S dte out sr s :
  rank_options_logic df option_type S dte = Some out ->
  In sr out ->
  Overall_Score sr = Num s ->
  (Quality_Tier sr = Some Poor <-> 0 < s <= 0.4)
  /\ (Quality_Tier sr = Some Fair <-> 0.4 < s <= 0.6)
  /\ (Quality_Tier sr = Some Good <-> 0.6 < s <= 0.75)
  /\ (Quality_Tier sr = Some Excellent <-> 0.75 < s <= 1)
  /\ (s = 0.4 -> Quality_Tier sr = Some Poor).
Proof.
  intros Hrank Hin Hs.
  destruct (rank_row_inv _ _ _ _ _ _ Hrank Hin) as (Hsr & _).
  assert (HT : Quality_Tier sr = quality_tier (Overall_Score sr)).
  { rewrite Hsr. reflexivity. }
  rewrite HT, Hs.
  destruct (quality_tier_bins s) as (HP & HF & HG & HE & _).
  split; [exact HP|]. split; [exact HF|]. split; [exact HG|].
  split; [exact HE|].
  intros ->. apply HP. lra.
Qed.

(** *** Missing delta *)

Lemma delta_score_at_half option_type :
  match option_type with
  | Call => call_delta_score (Num 0.5)
  | _ => put_delta_score (Num 0.5)
  end = Num 1.
Proof.
  assert (A0 : Rabs (0.5 - 0.5) = 0).
  { replace (0.5 - 0.5) with 0 by lra. apply Rabs_R0. }
  assert (A5 : Rabs 0.5 = 0.5) by (apply Rabs_pos_eq; lra).
  destruct option_type; unfold call_delta_score, put_delta_score;
    fl_unfold; rewrite ?A5; rcompare; cbn [andb]; rcompare;
    rewrite ?A5, ?A0; f_equal; lra.
Qed.

Lemma single_delta_missing r :
  delta r = None \/ delta r = Some NaN -> single_delta r = Num 0.
Proof.
  unfold single_delta. intros [-> | ->]; cbn; f_equal; lra.
Qed.


(** *** The range of the overall score *)

Lemma calculate_pop_range option_type a b c d e :
  exists p, fillna 0 (calculate_pop option_type a b c d e) = Num p
            /\ 0 <= p <= 1.
Proof.
  unfold calculate_pop.
  destruct (negb _); [exists 0; cbn; split; [reflexivity | lra]|].
  destruct (_ || _); [exists 0; cbn; split; [reflexivity | lra]|].
  destruct (feq _ _); [exists 0; cbn; split; [reflexivity | lra]|].
  match goal with |- context [notna ?p] => destruct p as [|v] end.
  - exists 0; cbn; split; [reflexivity | lra].
  - exists (clipR 0 1 v). cbn. split; [reflexivity | apply clipR_range; lra].
Qed.

Lemma py_max0_num x : exists v, py_max0 x = Num v /\ 0 <= v.
Proof.
  unfold py_max0, fgt. destruct x as [|v]; cbn.
  - exists 0. split; [reflexivity | lra].
  - unfold Rltb. destruct (Rlt_dec 0 v).
    + exists v. split; [reflexivity | lra].
    + exists 0. split; [reflexivity | lra].
Qed.

Lemma fclip_num lo hi x :
  lo <= hi -> exists v, fclip lo hi (Num x) = Num v /\ lo <= v <= hi.
Proof.
  intro H. exists (clipR lo hi x). split; [reflexivity | apply clipR_range; exact H].
Qed.

(** The extrema of a column without NaN enclose each of its cells. *)
Lemma col_extrema (cells : list fl) x :
  (forall c, In c cells -> notna c = true) -> In (Num x) cells ->
  exists m M, col_min cells = Num m /\ col_max cells = Num M /\ m <= x <= M.
Proof.
  unfold col_min, col_max. revert x.
  induction cells as [|c t IH]; intros x Hall Hin; [destruct Hin|].
  assert (Hc : notna c = true) by (apply Hall; left; reflexivity).
  destruct c as [|v]; [discriminate|]. cbn [fold_right].
  destruct t as [|c' t'].
  - destruct Hin as [E|[]]. injection E as <-. exists v, v. cbn. repeat split; lra.
  - destruct Hin as [E|Hin].
    + injection E as <-.
      assert (Hc' : notna c' = true) by (apply Hall; right; left; reflexivity).
      destruct c' as [|v']; [discriminate|].
      destruct (IH v') as (m & M & Em & EM & _);
        [intros; apply Hall; right; assumption | left; reflexivity|].
      rewrite Em, EM. cbn. exists (Rmin v m), (Rmax v M).
      repeat split; [apply Rmin_l | apply Rmax_l].
    + destruct (IH x) as (m & M & Em & EM & Hb);
        [intros; apply Hall; right; assumption | assumption|].
      rewrite Em, EM. cbn. exists (Rmin v m), (Rmax v M).
      repeat split.
      * apply Rle_trans with m; [apply Rmin_r | lra].
      * apply Rle_trans with M; [lra | apply Rmax_r].
Qed.

Lemma normalise_range m M x :
  m <= x <= M ->
  exists v, normalise (Num m) (Num M) (Num x) = Num v /\ 0 <= v <= 1.
Proof.
  intro H. unfold normalise. fl_unfold.
  destruct (Req_dec_T (M - m) 0) as [E|E].
  - rewrite (Reqb_true _ _ E). cbn. exists 0.5. split; [reflexivity | lra].
  - rewrite (Reqb_false _ _ E). cbn [negb]. rcompare.
    eexists. split; [reflexivity|].
    assert (HD : 0 < M - m + 1e-9) by lra.
    split.
    + apply Rmult_le_pos; [lra | left; apply Rinv_0_lt_compat; exact HD].
    + apply Rmult_le_reg_r with (M - m + 1e-9); [exact HD|].
      unfold Rdiv. rewrite Rmult_assoc, Rinv_l by lra. lra.
Qed.

Lemma delta_score_range option_type x :
  exists v,
    match option_type with
    | Call => call_delta_score (Num x)
    | _ => put_delta_score (Num x)
    end = Num v /\ 0.2 <= v <= 1.
Proof.
  assert (B : forall y, 0.2 <= y <= 0.8 -> 0.2 <= 1 - Rabs (y - 0.5) / 0.5 <= 1).
  { intros y Hy. unfold Rabs. destruct (Rcase_abs (y - 0.5)); lra. }
  assert (G : forall y, exists v,
             (if Rleb 0.2 y && Rleb y 0.8
              then Num (1 - Rabs (y - 0.5) / 0.5) else Num 0.2) = Num v
             /\ 0.2 <= v <= 1).
  { intro y. unfold Rleb.
    destruct (Rle_dec 0.2 y); destruct (Rle_dec y 0.8); cbn [andb];
      eexists; (split; [reflexivity|]); try lra; apply B; lra. }
  destruct option_type; unfold call_delta_score, put_delta_score;
    fl_unfold; rcompare; apply G.
Qed.

(** Every scored row has an overall score between 0.03 and 1, provided
    the current price is a number other than [-1e-9]; a score of 0 does
    not occur. *)
Lemma overall_score_range df option_type S dte out sr :
  rank_options_logic df option_type (Num S) dte = Some out ->
  In sr out -> S + 1e-9 <> 0 ->
  exists s, Overall_Score sr = Num s /\ 0.03 <= s <= 1.
Proof.
  intros Hrank Hin HS.
  destruct (rank_row_inv _ _ _ _ _ _ Hrank Hin) as (Hsr & Hsurv & Hty).
  set (F := surviving df) in *.
  assert (Hnum : forall r, In r F -> required_cols_present r = true).
  { intros r Hr. apply in_surviving in Hr. tauto. }
  assert (HF := Hsurv). apply in_surviving in Hsurv.
  destruct Hsurv as (_ & Hreq & Hprices & _ & _ & _).
  unfold required_cols_present in Hreq.
  repeat (apply andb_prop in Hreq; destruct Hreq as [Hreq ?]).
  unfold valid_prices in Hprices.
  apply andb_prop in Hprices. destruct Hprices as [Hprices Hask].
  apply andb_prop in Hprices. destruct Hprices as [Hlast Hbid].
  apply flt_num_inv in Hlast, Hbid, Hask.
  destruct Hlast as (p & Ep & Pp). destruct Hbid as (b & Eb & Pb).
  destruct Hask as (a & Ea & Pa).
  destruct (strike (row sr)) as [|K] eqn:EK; [discriminate|].
  destruct (volume (row sr)) as [|v] eqn:Ev; [discriminate|].
  destruct (openInterest (row sr)) as [|oi] eqn:Eoi; [discriminate|].
  (* the two normalised columns *)
  destruct (col_extrema (map volume F) v) as (mv & Mv & Emv & EMv & Bv).
  { intros c Hc. apply in_map_iff in Hc. destruct Hc as (r & <- & Hr).
    apply Hnum in Hr. unfold required_cols_present in Hr.
    repeat (apply andb_prop in Hr; destruct Hr as [Hr ?]). assumption. }
  { rewrite <- Ev. apply in_map. exact HF. }
  destruct (col_extrema (map openInterest F) oi) as (mo & Mo & Emo & EMo & Bo).
  { intros c Hc. apply in_map_iff in Hc. destruct Hc as (r & <- & Hr).
    apply Hnum in Hr. unfold required_cols_present in Hr.
    repeat (apply andb_prop in Hr; destruct Hr as [Hr ?]). assumption. }
  { rewrite <- Eoi. apply in_map. exact HF. }
  destruct (normalise_range mv Mv v Bv) as (nv & Env & Bnv).
  destruct (normalise_range mo Mo oi Bo) as (no & Eno & Bno).
  destruct (calculate_pop_range option_type (PyFloat (Num K)) (PyFloat (Num p))
              (PyFloat (Num S)) (PyFloat (impliedVolatility (row sr)))
              (PyFloat dte)) as (pp & Epp & Bpp).
  destruct (py_max0_num
              (fsub (Num p)
                 (calculate_intrinsic_value option_type (Num K) (Num S))))
    as (tv & Etv & Btv).
  destruct (delta_score_range option_type
              (match fillna 0.5 (match delta (row sr) with
                                 | Some x => x | None => NaN end) with
               | Num x => x | NaN => 0 end)) as (ds & Eds & Bds).
  assert (Ed : exists x, fillna 0.5 (match delta (row sr) with
                                     | Some x => x | None => NaN end) = Num x).
  { destruct (delta (row sr)) as [[|x]|]; cbn; eexists; reflexivity. }
  destruct Ed as (dx & Ed). rewrite Ed in Eds.
  assert (Ebe : exists be,
             match calculate_breakeven option_type (Num K) (Num p) with
             | Some x => x | None => NaN end = Num be).
  { destruct option_type; try congruence; cbn; eexists; reflexivity. }
  destruct Ebe as (be & Ebe).
  rewrite Hsr. unfold scored_in.
  rewrite EK, Ep, Emv, EMv, Emo, EMo, Ebe.
  cbn [Overall_Score score_row]. unfold calculate_time_value.
  rewrite EK, Ep, Ev, Eoi, Epp, Etv, Env, Eno, Ed.
  replace (match option_type with
           | Call => call_delta_score (Num dx)
           | _ => put_delta_score (Num dx)
           end) with (Num ds)
    by (destruct option_type; symmetry; exact Eds).
  unfold row_spread_pct, row_mid_price. rewrite Eb, Ea.
  fl_eval. eexists. split; [reflexivity|].
  repeat match goal with
         | |- context [clipR 0 1 ?x] =>
             let H := fresh "C" in
             assert (H := clipR_range 0 1 x ltac:(lra));
             generalize dependent (clipR 0 1 x); intros
         end.
  nra.
Qed.


Lemma quality_tier_of_scored_row_witness :
  exists sr s,
    rank_options_logic [quiet_row] Call (Num 100) (Num 30) = Some [sr]
    /\ Overall_Score sr = Num s
    /\ (Quality_Tier sr = Some Poor <-> 0 < s <= 0.4)
    /\ (Quality_Tier sr = Some Fair <-> 0.4 < s <= 0.6)
    /\ (Quality_Tier sr = Some Good <-> 0.6 < s <= 0.75)
    /\ (Quality_Tier sr = Some Excellent <-> 0.75 < s <= 1)
    /\ (s = 0.4 -> Quality_Tier sr = Some Poor).
Proof.
  destruct quiet_row_passes as (H0 & H1 & H2 & H3 & H4).
  destruct (rank_single quiet_row Call (Num 100) (Num 30))
    as (sr & E & _ & _); try assumption; try discriminate.
  destruct (overall_score_range [quiet_row] Call 100 (Num 30) [sr] sr E)
    as (s & Es & _); [left; reflexivity | lra |].
  exists sr, s. split; [exact E|]. split; [exact Es|].
  apply (quality_tier_of_scored_row [quiet_row] Call (Num 100) (Num 30)
           [sr] sr s E); [left; reflexivity | exact Es].
Defined.

(** *** Missing delta in the two scoring modes *)

Ltac rabs :=
  repeat match goal with
    | |- context [Rabs ?x] =>
        first [ rewrite (Rabs_pos_eq x) by lra
              | rewrite (Rabs_left1 x) by lra ]
    end.

(** C6 fails on [analyze_single_option_details]: the contract without a
    delta is graded as delta = 0 (3 delta points and a "Very Low Delta"
    red flag), 15 points below the same contract with delta = 0.5. *)
Lemma single_analysis_takes_missing_delta_as_zero :
  exists a a5,
    analyze_single_option_details quiet_row (Num 100) (Num 30) Call = Some a
    /\ analyze_single_option_details
         (with_delta quiet_row (Some (Num 0.5))) (Num 100) (Num 30) Call
       = Some a5
    /\ score a5 = (score a + 15)%Z
    /\ In (VeryLowDelta (Num 0)) (red_flags a)
    /\ In (BalancedDelta (Num 0.5)) (reasons a5).
Proof.
  unfold analyze_single_option_details, with_delta, quiet_row, single_delta.
  cbn [strike lastPrice bid ask volume openInterest impliedVolatility delta
       calculate_breakeven calculate_intrinsic_value calculate_time_value
       notna].
  set (P := pop_part _). destruct P as [[pp pr] pf].
  unfold volume_part, oi_part, spread_part, iv_part, delta_part, delta_bands,
         breakeven_part, time_value_part.
  repeat (progress (unfold calculate_time_value, py_max0; fl_eval; rabs)).
  cbn [fold_left part_plus reason red_flag app].
  do 2 eexists. split; [reflexivity|]. split; [reflexivity|].
  cbn [score red_flags reasons]. split; [lia|].
  rewrite !in_app_iff. cbn [In]. split.
  - left. left. right. left. do 2 f_equal. lra.
  - left. left. right. left. reflexivity.
Qed.

Lemma delta_part_at_zero option_type :
  delta_part option_type (Num 0) = red_flag 3 (VeryLowDelta (Num 0)).
Proof.
  destruct option_type; unfold delta_part, delta_bands; fl_unfold;
    rewrite ?Rabs_R0; rcompare; reflexivity.
Qed.

(** The two defaults side by side: a contract whose delta is absent or
    null is treated as having delta = 0.5 by the ranked-table scorer
    [rank_options_logic], and as having delta = 0 by the narrative
    analyzer [analyze_single_option_details] (3 delta points and a "Very
    Low Delta" red flag). *)
Lemma missing_delta_defaults r :
  delta r = None \/ delta r = Some NaN ->
  (forall df option_type S dte out sr,
      rank_options_logic df option_type S dte = Some out ->
      In sr out -> row sr = r ->
      delta_filled sr = Num 0.5 /\ delta_score sr = Num 1)
  /\ (forall S dte option_type,
        analyze_single_option_details r S dte option_type
        = analyze_single_option_details (with_delta r (Some (Num 0)))
            S dte option_type)
  /\ (forall option_type,
        delta_part option_type (single_delta r)
        = red_flag 3 (VeryLowDelta (Num 0))).
Proof.
  intro Hd. split; [|split].
  - intros df option_type S dte out sr Hrank Hin Hrow.
    destruct (rank_row_inv _ _ _ _ _ _ Hrank Hin) as (Hsr & _).
    rewrite Hsr, Hrow. unfold scored_in. cbn [delta_filled delta_score score_row].
    assert (E : fillna 0.5 (match delta r with Some x => x | None => NaN end)
                = Num 0.5) by (destruct Hd as [-> | ->]; reflexivity).
    rewrite E. split; [reflexivity | apply delta_score_at_half].
  - intros S dte option_type. unfold analyze_single_option_details.
    rewrite (single_delta_missing r Hd).
    replace (single_delta (with_delta r (Some (Num 0)))) with (Num 0)
      by reflexivity.
    reflexivity.
  - intro option_type. rewrite (single_delta_missing r Hd).
    apply delta_part_at_zero.
Qed.

Lemma missing_delta_defaults_witness :
  (forall df option_type S dte out sr,
      rank_options_logic df option_type S dte = Some out ->
      In sr out -> row sr = quiet_row ->
      delta_filled sr = Num 0.5 /\ delta_score sr = Num 1)
  /\ (forall S dte option_type,
        analyze_single_option_details quiet_row S dte option_type
        = analyze_single_option_details (with_delta quiet_row (Some (Num 0)))
            S dte option_type)
  /\ (forall option_type,
        delta_part option_type (single_delta quiet_row)
        = red_flag 3 (VeryLowDelta (Num 0))).
Proof.
  apply (missing_delta_defaults quiet_row). left. reflexivity.
Defined.

End TiersAndDelta.

(** ** The trend verdict *)

Section TrendVerdict.
Import Calculations UiComponents Spec Spec.InDoubles Examples.
Local Open Scope float_scope.

(** The loop accumulates the sum of signal times weight over the
    intervals that yield a signal, in their order. *)
Lemma fold_trend_step items acc rs :
  fst (fold_left trend_step items (acc, rs))
  = fold_left (fun acc sw => acc + fst sw * snd sw) (signals_of items) acc.
Proof.
  revert acc rs. induction items as [|[interval e] t IH]; intros acc rs.
  - reflexivity.
  - cbn [fold_left trend_step]. unfold signals_of. cbn [flat_map fst snd].
    fold (signals_of t).
    destruct (interval_signal interval e) as [[s|] why];
      rewrite IH; reflexivity.
Qed.

Lemma tenth_bits : Prim2SF 0.1 = S754_finite false 7205759403792794 (-56).
Proof. vm_compute. reflexivity. Qed.

Lemma minus_tenth_bits :
  Prim2SF (-0.1) = S754_finite true 7205759403792794 (-56).
Proof. vm_compute. reflexivity. Qed.

(** No double is both above 0.1 and below -0.1. *)
Lemma above_excludes_below x :
  (0.1 <? x) = true -> (x <? -0.1) = false.
Proof.
  rewrite !ltb_spec, tenth_bits, minus_tenth_bits.
  destruct (Prim2SF x) as [s|s| |s m e]; try destruct s;
    cbv beta iota delta [SFltb SFcompare]; congruence.
Qed.

Lemma trend_direction_cases x :
  (trend_direction x = Bullish <-> (0.1 <? x) = true)
  /\ (trend_direction x = Bearish <-> (x <? -0.1) = true)
  /\ (trend_direction x = Neutral
      <-> (0.1 <? x) = false /\ (x <? -0.1) = false).
Proof.
  unfold trend_direction. pose proof (above_excludes_below x) as H.
  destruct (0.1 <? x); destruct (x <? -0.1);
    try (specialize (H eq_refl); discriminate);
    repeat split; intros; try reflexivity; try discriminate;
    match goal with
    | H0 : _ /\ _ |- _ => destruct H0; discriminate
    end.
Qed.

Lemma hourly_rise_verdict :
  analyze_market_trend hourly_rise = Some (Neutral, 100, [IsUp "1h" 1]).
Proof. vm_compute. reflexivity. Qed.

Lemma rise_then_fall_verdict :
  analyze_market_trend rise_then_fall
  = Some (Bullish, 14.285714285714290, [IsUp "5m" 1; IsDown "15m" (-1)]).
Proof. vm_compute. reflexivity. Qed.

(** C3, as stated, fails.  With the hourly series alone, rising by 1%,
    the normalised score is 1 (Bullish by the 0.15 rule) while
    [analyze_market_trend] answers Neutral: its score, 0.1, is not
    divided by the weight used.  With the 5-minute series up and the
    15-minute series down the sum of the doubles 0.4 and -0.3 is
    0.10000000000000003: [analyze_market_trend] answers Bullish, while
    the score is below 0.15 whether it is normalised or not. *)
Lemma hourly_rise_is_neutral :
  (analyze_market_trend hourly_rise = Some (Neutral, 100, [IsUp "1h" 1])
   /\ spec_weighted_score (used_signals hourly_rise) = 1
   /\ spec_trend_label (spec_weighted_score (used_signals hourly_rise))
      = Bullish)
  /\ (analyze_market_trend rise_then_fall
      = Some (Bullish, 14.285714285714290,
              [IsUp "5m" 1; IsDown "15m" (-1)])
      /\ signal_weight_sum (used_signals rise_then_fall)
         = 0.10000000000000003
      /\ spec_trend_label (signal_weight_sum (used_signals rise_then_fall))
         = Neutral
      /\ spec_trend_label (spec_weighted_score (used_signals rise_then_fall))
         = Neutral).
Proof.
  split; [split; [exact hourly_rise_verdict|]
         | split; [exact rise_then_fall_verdict|]];
    repeat split; vm_compute; reflexivity.
Qed.


(** C3, amended: for every trend input on which [analyze_market_trend]
    returns, the trend score is the sum of signal times weight over the
    resolutions actually used, added up in doubles in the order of the
    input and not divided by the sum of the weights used, and the final
    label is Bullish exactly when this score is greater than 0.1, Bearish
    exactly when it is less than -0.1, and Neutral otherwise. *)
Theorem trend_label_from_weighted_sum trend_data label confidence reasons :
  analyze_market_trend trend_data = Some (label, confidence, reasons) ->
  let trend_score := signal_weight_sum (used_signals trend_data) in
  (label = Bullish <-> (0.1 <? trend_score) = true)
  /\ (label = Bearish <-> (trend_score <? -0.1) = true)
  /\ (label = Neutral
      <-> (0.1 <? trend_score) = false /\ (trend_score <? -0.1) = false).
Proof.
  intros H trend_score.
  assert (E : label = trend_direction trend_score).
  { unfold analyze_market_trend in H. destruct trend_data as [|kv t].
    - injection H as <- _ _. reflexivity.
    - set (valid := filter (fun kv0 => in_weights (fst kv0)) (kv :: t)) in *.
      assert (F := fold_trend_step valid 0 []).
      destruct (fold_left trend_step valid (0, [])) as [sc rs].
      destruct (counted_weights valid); [|discriminate].
      injection H as <- _ _. cbn [fst] in F. rewrite F. reflexivity. }
  rewrite E. apply trend_direction_cases.
Qed.

Lemma trend_label_from_weighted_sum_witness :
  let trend_score := signal_weight_sum (used_signals rise_then_fall) in
  (Bullish = Bullish <-> (0.1 <? trend_score) = true)
  /\ (Bullish = Bearish <-> (trend_score <? -0.1) = true)
  /\ (Bullish = Neutral
      <-> (0.1 <? trend_score) = false /\ (trend_score <? -0.1) = false).
Proof.
  exact (trend_label_from_weighted_sum rise_then_fall Bullish
           14.285714285714290 [IsUp "5m" 1; IsDown "15m" (-1)]
           rise_then_fall_verdict).
Defined.

(** The sibling [analyze_trend_properly] does follow the specification's
    rule: its label is the 0.15 rule applied to the sum of signal times
    weight divided by the sum of the weights used. *)
Lemma trend_properly_follows_spec data_1d data_1h data_30m data_15m sw details :
  collect (run_blocks data_1d data_1h data_30m data_15m) = Some (sw, details) ->
  sw <> [] ->
  analyze_trend_properly data_1d data_1h data_30m data_15m
  = (Spec.spec_trend_label (Spec.spec_weighted_score sw),
     (Rabs (Spec.spec_weighted_score sw) * 100)%R, details).
Proof.
  intros H Hne. unfold analyze_trend_properly. rewrite H.
  destruct sw as [|p t]; [congruence|]. reflexivity.
Qed.

(** Three resolutions up by 2% and the fourth without data: Bullish. *)
Lemma three_resolutions_up :
  fst (fst (analyze_trend_properly
              [Num 100; Num 100; Num 102]
              [Num 100; Num 100; Num 100; Num 100; Num 100; Num 102]
              [Num 100; Num 100; Num 100; Num 102]
              []))
  = Bullish.
Proof.
  unfold analyze_trend_properly, run_blocks, resolution_block, pct_change,
    from_end, last_n, np_mean.
  cbn [List.length Nat.ltb Nat.leb Nat.sub nth skipn fold_right INR].
  fl_eval. cbn [collect map fold_right fst snd]. rcompare. reflexivity.
Qed.

End TrendVerdict.

(** ** Indicators on short inputs *)

Section ShortInputs.
Import Calculations Examples.

(** The RSI is the default 50 up to 14 valid closes, and the MACD and
    signal lines are 0 below 26. *)
Lemma indicators_below_periods close :
  (1 <= List.length (dropna close) <= 14)%nat ->
  calculate_technical_indicators (Some close)
  = (repeat (Num 50) (List.length close),
     repeat (Num 0) (List.length close),
     repeat (Num 0) (List.length close)).
Proof.
  intros [Hlo Hhi]. unfold calculate_technical_indicators.
  destruct (dropna close) as [|x t] eqn:E; [cbn in Hlo; lia|].
  unfold RSI_PERIOD, MACD_SLOW_PERIOD.
  replace (List.length (x :: t) <=? 14)%nat with true
    by (symmetry; apply Nat.leb_le; exact Hhi).
  replace (26 <=? List.length (x :: t))%nat with false
    by (symmetry; apply Nat.leb_gt; lia).
  reflexivity.
Qed.

(** C7, as stated, fails: with one valid close the three series are not
    empty but filled with the defaults 50, 0 and 0. *)
Lemma one_close_gives_defaults :
  calculate_technical_indicators (Some [Num 100])
  = ([Num 50], [Num 0], [Num 0]).
Proof. apply (indicators_below_periods [Num 100]). cbn. lia. Qed.

(** C7, amended: for every input whose Close column holds fewer than 2
    valid (non-null) closing prices the indicator computation returns
    without raising; with no valid close (or no Close column) the RSI,
    MACD and signal series are empty, and with exactly one valid close
    they have the length of the frame and are filled with the defaults
    (RSI 50, MACD 0, signal 0). *)
Theorem indicators_with_few_closes df_close :
  let valid := match df_close with Some close => dropna close | None => [] end in
  let rows := match df_close with Some close => List.length close | None => O end in
  (List.length valid < 2)%nat ->
  (valid = [] -> calculate_technical_indicators df_close = ([], [], []))
  /\ (List.length valid = 1%nat ->
      calculate_technical_indicators df_close
      = (repeat (Num 50) rows, repeat (Num 0) rows, repeat (Num 0) rows)).
Proof.
  intros valid rows Hlt. subst valid rows. split.
  - intro Hv. destruct df_close as [close|]; [|reflexivity].
    unfold calculate_technical_indicators. rewrite Hv. reflexivity.
  - intro H1. destruct df_close as [close|]; [|discriminate].
    apply indicators_below_periods. lia.
Qed.

Lemma indicators_with_few_closes_witness :
  calculate_technical_indicators (Some [Num 100; NaN])
  = ([Num 50; Num 50], [Num 0; Num 0], [Num 0; Num 0]).
Proof.
  destruct (indicators_with_few_closes (Some [Num 100; NaN])) as [_ H];
    [cbn; lia|].
  apply H. reflexivity.
Defined.

End ShortInputs.

(** ** VWAP of a single bar *)

Section SingleBar.
Import Calculations Examples.
Local Open Scope float_scope.

(** There is one NaN. *)
Lemma nan_unique x : is_nan x = true -> x = nan.
Proof.
  intro H. apply Prim2SF_inj. unfold Prim2SF. rewrite H. reflexivity.
Qed.

Lemma nan_bits x : is_nan x = true -> Prim2SF x = S754_nan.
Proof. intro H. unfold Prim2SF. rewrite H. reflexivity. Qed.

(** A NaN divisor or summand gives NaN. *)
Lemma div_nan x : x / nan = nan.
Proof.
  apply Prim2SF_inj. rewrite div_spec.
  change (Prim2SF nan) with S754_nan.
  destruct (Prim2SF x) as [s|s| |s m e]; reflexivity.
Qed.

Lemma nan_add y : nan + y = nan.
Proof.
  apply Prim2SF_inj. rewrite add_spec.
  change (Prim2SF nan) with S754_nan. reflexivity.
Qed.

(** On a single cell the running sum and the fills change nothing. *)
Lemma cumsum_single x : Binary64.cumsum [x] = [x].
Proof.
  unfold Binary64.cumsum, Binary64.fillna. cbn [map combine np_cumsum fst snd].
  destruct (is_nan x) eqn:E; [|reflexivity].
  rewrite (nan_unique x E). reflexivity.
Qed.

Lemma fill_single x : bfill (ffill [x]) = [x].
Proof.
  unfold bfill, ffill. cbn [ffill_from].
  destruct (is_nan x) eqn:E; cbn [rev app ffill_from].
  - rewrite (nan_unique x E). reflexivity.
  - rewrite E. reflexivity.
Qed.

(** The two variants on the bar at 45.67 with volume 1,500,000. *)
Lemma busy_bar_frames :
  typical_price busy_bar = 45.669999999999995
  /\ TradeBot.calculate_vwap [busy_bar] = [45.66999999999999]
  /\ Calculations.calculate_vwap (Bars [busy_bar]) = [45.66999999999999].
Proof. repeat split; vm_compute; reflexivity. Qed.

(** The two variants on the bar at 3 with volume 1. *)
Lemma unit_bar_frames :
  typical_price unit_bar = 3
  /\ TradeBot.calculate_vwap [unit_bar] = [3]
  /\ Calculations.calculate_vwap (Bars [unit_bar]) = [2.9999999997].
Proof. repeat split; vm_compute; reflexivity. Qed.

(** C8, as stated, fails: the one-bar series at 45.67 with volume
    1,500,000 has typical price 45.669999999999995, and both variants
    return 45.66999999999999, the double below it; on the bar at 3 with
    volume 1 [calculations.calculate_vwap] returns 2.9999999997. *)
Lemma busy_bar_vwap_below_typical :
  (typical_price busy_bar = 45.669999999999995
   /\ TradeBot.calculate_vwap [busy_bar] = [45.66999999999999]
   /\ Calculations.calculate_vwap (Bars [busy_bar]) = [45.66999999999999]
   /\ (45.66999999999999 <? 45.669999999999995) = true)
  /\ (typical_price unit_bar = 3
      /\ Calculations.calculate_vwap (Bars [unit_bar]) = [2.9999999997]
      /\ (2.9999999997 <? 3) = true).
Proof. repeat split; vm_compute; reflexivity. Qed.

(** C8, amended: for a price series of exactly one bar, the VWAP is NaN
    when the volume [V] is zero (in [calculations.calculate_vwap], where a
    missing volume counts as zero, also when it is missing); otherwise it
    is the double [(tp * V) / V] in [TradeBot_V1.calculate_vwap] and
    [(tp * V) / (V + 1e-10)] in [calculations.calculate_vwap], where
    [tp = (high + low + close) / 3] is the bar's typical price as
    computed.  Each operation is rounded, and the quotient need not be
    [tp]. *)
Theorem single_bar_vwap h l c v :
  let bar := mkBar h l c v in
  let tp := (h + l + c) / 3 in
  let V := if is_nan v then 0 else v in
  typical_price bar = tp
  /\ TradeBot.calculate_vwap [bar] = [if v =? 0 then nan else tp * v / v]
  /\ Calculations.calculate_vwap (Bars [bar])
     = [if V =? 0 then nan else tp * V / (V + 1e-10)].
Proof.
  intros bar tp V. split; [reflexivity|]. split.
  - unfold TradeBot.calculate_vwap.
    cbn [map combine fst snd Volume bar].
    rewrite !cumsum_single. cbn [map combine fst snd].
    rewrite fill_single. unfold replace_zero_with_nan.
    fold tp. change (typical_price bar) with tp.
    destruct (v =? 0); [rewrite div_nan|]; reflexivity.
  - unfold Calculations.calculate_vwap.
    cbn [map combine fst snd Volume bar]. unfold Binary64.fillna. fold V.
    rewrite !cumsum_single. cbn [map combine fst snd].
    rewrite fill_single. unfold replace_zero_with_nan.
    change (typical_price bar) with tp.
    destruct (V =? 0); [rewrite nan_add, div_nan|]; reflexivity.
Qed.

End SingleBar.

(** ** Pivot de-duplication *)

Section PivotLevels.
Import Calculations Spec Examples.

Lemma insert_by_sorted (le : R -> R -> bool) (rel : R -> R -> Prop) x l :
  (forall a b, le a b = true -> rel a b) ->
  (forall a b, le a b = false -> rel b a) ->
  Sorted rel l -> Sorted rel (insert_by le x l).
Proof.
  intros Hle Hgt. induction l as [|y t IH]; intro Hs; cbn.
  - repeat constructor.
  - destruct (le x y) eqn:E.
    + constructor; [exact Hs | constructor; apply Hle; exact E].
    + inversion Hs as [|? ? Hst Hhd]; subst.
      constructor; [apply IH; exact Hst|].
      destruct t as [|z t']; cbn.
      * constructor. apply Hgt; exact E.
      * destruct (le x z); constructor.
        -- apply Hgt; exact E.
        -- inversion Hhd; assumption.
Qed.

Lemma insert_by_perm (le : R -> R -> bool) x l :
  Permutation (x :: l) (insert_by le x l).
Proof.
  induction l as [|y t IH]; cbn; [reflexivity|].
  destruct (le x y); [reflexivity|].
  rewrite perm_swap. constructor. exact IH.
Qed.

Lemma sorted_by_perm (le : R -> R -> bool) l : Permutation l (sorted_by le l).
Proof.
  unfold sorted_by. induction l as [|y t IH]; cbn; [reflexivity|].
  rewrite <- insert_by_perm. constructor. exact IH.
Qed.

(** [sorted] yields its argument in ascending order, [sorted_reverse] in
    descending order. *)
Lemma sorted_ascending l : Sorted Rle (sorted l) /\ Permutation l (sorted l).
Proof.
  split; [|apply sorted_by_perm].
  unfold sorted, sorted_by. induction l as [|y t IH]; cbn; [constructor|].
  apply insert_by_sorted; [| |exact IH]; intros a b H.
  - apply Rleb_iff; exact H.
  - unfold Rleb in H. destruct (Rle_dec a b); [discriminate | lra].
Qed.

Lemma sorted_descending l :
  Sorted Rge (sorted_reverse l) /\ Permutation l (sorted_reverse l).
Proof.
  split; [|apply sorted_by_perm].
  unfold sorted_reverse, sorted_by. induction l as [|y t IH]; cbn; [constructor|].
  apply insert_by_sorted; [| |exact IH]; intros a b H.
  - apply Rleb_iff in H. lra.
  - unfold Rleb in H. destruct (Rle_dec b a); [discriminate | lra].
Qed.

(** One pass of the loop on a list that ends with [a]. *)
Lemma dedup_step_last m accepted a v :
  dedup_step (Num m) (accepted ++ [a]) v
  = if Rlt_dec (spec_tolerance m a) (Rabs (v - a))
    then accepted ++ [a; v]
    else accepted ++ [(a + v) / 2].
Proof.
  unfold dedup_step, spec_tolerance, tolerance_factor.
  rewrite last_last, removelast_last, length_app.
  replace (0 <? List.length accepted + List.length [a])%nat with true
    by (symmetry; apply Nat.ltb_lt; cbn; lia).
  unfold Reqb. destruct (Req_dec_T a 0) as [E|E]; cbn [negb notna];
    fl_unfold; cbn [notna andb]; unfold Rltb;
    destruct (Rlt_dec _ _) as [L|L]; destruct (Rlt_dec _ _) as [G|G];
    try lra; try reflexivity; rewrite <- app_assoc; reflexivity.
Qed.

(** The loop is the specification's rule, applied to the candidates one
    after the other. *)
Lemma dedup_fold_merge m rest accepted a :
  fold_left (dedup_step (Num m)) rest (accepted ++ [a])
  = spec_merge m accepted a rest.
Proof.
  revert accepted a. induction rest as [|v rest IH]; intros accepted a.
  - reflexivity.
  - cbn [fold_left spec_merge]. rewrite dedup_step_last.
    destruct (Rlt_dec _ _).
    + change (accepted ++ [a; v]) with (accepted ++ [a] ++ [v]).
      rewrite app_assoc. apply IH.
    + apply IH.
Qed.

Lemma dedup_levels_merged m sorted_raw :
  dedup_levels (Num m) sorted_raw = spec_merged_levels m sorted_raw.
Proof.
  destruct sorted_raw as [|first rest]; [reflexivity|].
  exact (dedup_fold_merge m rest [] first).
Qed.

(** The list built by the loop is never empty. *)
Lemma dedup_fold_last m rest accepted a :
  exists accepted' a',
    fold_left (dedup_step (Num m)) rest (accepted ++ [a]) = accepted' ++ [a'].
Proof.
  revert accepted a. induction rest as [|v rest IH]; intros accepted a.
  - exists accepted, a. reflexivity.
  - cbn [fold_left]. rewrite dedup_step_last.
    destruct (Rlt_dec _ _).
    + change (accepted ++ [a; v]) with (accepted ++ [a] ++ [v]).
      rewrite app_assoc. apply IH.
    + apply IH.
Qed.

(** The rule for one more candidate, on the loop itself: the levels of
    [sorted_raw ++ [candidate]] from those of [sorted_raw]. *)
Lemma dedup_levels_next m sorted_raw candidate :
  sorted_raw <> [] ->
  exists accepted last_accepted,
    dedup_levels (Num m) sorted_raw = accepted ++ [last_accepted]
    /\ dedup_levels (Num m) (sorted_raw ++ [candidate])
       = if Rlt_dec (spec_tolerance m last_accepted)
                    (Rabs (candidate - last_accepted))
         then accepted ++ [last_accepted; candidate]
         else accepted ++ [(last_accepted + candidate) / 2].
Proof.
  destruct sorted_raw as [|first rest]; [congruence|]. intros _.
  destruct (dedup_fold_last m rest [] first) as (accepted & a & E).
  exists accepted, a. cbn [dedup_levels app] in *. split; [exact E|].
  rewrite fold_left_app. cbn [fold_left]. rewrite E.
  apply dedup_step_last.
Qed.

(** Whenever a raw level exists the series has a valid cell, so the mean
    used as fallback is a number. *)
Lemma select_equal_in l ext_val x :
  In x (select_equal l ext_val) -> In (Num x) l.
Proof.
  unfold select_equal. revert ext_val.
  induction l as [|c t IH]; intros [|m e]; cbn; try tauto.
  rewrite in_app_iff. intros [H|H].
  - destruct c as [|y]; [destruct H|]. destruct m as [|z]; [destruct H|].
    destruct (Reqb y z); [|destruct H].
    destruct H as [->|[]]. left; reflexivity.
  - right. exact (IH e H).
Qed.

Lemma series_mean_defined series x :
  In (Num x) series -> exists m, series_mean series = Num m.
Proof.
  intro H. unfold series_mean.
  destruct (flat_map _ series) as [|y t] eqn:E; [|eexists; reflexivity].
  exfalso.
  assert (Hin : In x (flat_map (fun c : fl => match c with
                                              | NaN => []
                                              | Num v => [v]
                                              end) series)).
  { apply in_flat_map. exists (Num x). split; [exact H | left; reflexivity]. }
  rewrite E in Hin. destruct Hin.
Qed.

Lemma raw_levels_have_mean series h x :
  In x (supports_raw series h) \/ In x (resistances_raw series h) ->
  exists m, series_mean series = Num m.
Proof.
  intros [H|H]; apply select_equal_in in H;
    exact (series_mean_defined series x H).
Qed.

(** A series without a valid cell has no raw level. *)
Lemma no_mean_no_levels series h :
  series_mean series = NaN ->
  supports_raw series h = [] /\ resistances_raw series h = [].
Proof.
  intro H. split.
  - destruct (supports_raw series h) as [|x t] eqn:E; [reflexivity|].
    destruct (raw_levels_have_mean series h x) as (m & Hm);
      [left; rewrite E; left; reflexivity | congruence].
  - destruct (resistances_raw series h) as [|x t] eqn:E; [reflexivity|].
    destruct (raw_levels_have_mean series h x) as (m & Hm);
      [right; rewrite E; left; reflexivity | congruence].
Qed.

(** The mean of a series without NaN. *)
Lemma series_mean_numbers xs :
  xs <> [] ->
  series_mean (map Num xs)
  = Num (fold_right Rplus 0 xs / INR (List.length xs)).
Proof.
  intro Hne. unfold series_mean.
  assert (E : flat_map (fun c : fl => match c with
                                      | NaN => []
                                      | Num x => [x]
                                      end) (map Num xs) = xs).
  { clear Hne. induction xs as [|x t IH]; [reflexivity|].
    cbn [map flat_map app]. rewrite IH. reflexivity. }
  rewrite E. destruct xs; [congruence | reflexivity].
Qed.

(** [find_pivots] in terms of the specification's merging rule. *)
Lemma find_pivots_merged series window :
  let h := half_width window in
  find_pivots series window
  = if (Z.of_nat (List.length series) <? effective_window window)%Z
    then ([], [])
    else match series_mean series with
         | Num m =>
             (sorted (spec_merged_levels m
                        (sorted (unique (supports_raw series h)))),
              sorted_reverse
                (spec_merged_levels m
                   (sorted_reverse (unique (resistances_raw series h)))))
         | NaN => ([], [])
         end.
Proof.
  intro h. unfold find_pivots. fold h.
  destruct series as [|c t].
  - destruct (_ <? _)%Z; reflexivity.
  - destruct (_ <? _)%Z; [reflexivity|]. cbv zeta.
    destruct (series_mean (c :: t)) as [|m] eqn:E.
    + destruct (no_mean_no_levels (c :: t) h E) as [-> ->]. reflexivity.
    + rewrite !dedup_levels_merged. reflexivity.
Qed.

Ltac rminmax :=
  repeat match goal with
    | |- context [Rmin ?a ?b] =>
        first [ rewrite (Rmin_left a b) by lra
              | rewrite (Rmin_right a b) by lra ]
    | |- context [Rmax ?a ?b] =>
        first [ rewrite (Rmax_left a b) by lra
              | rewrite (Rmax_right a b) by lra ]
    end.

Ltac rdecide :=
  repeat match goal with
    | |- context [Rlt_dec ?a ?b] =>
        let H := fresh in
        destruct (Rlt_dec a b) as [H|H];
        [ try (exfalso; revert H; unfold spec_tolerance;
               repeat match goal with
                 | |- context [Req_dec_T ?x ?y] =>
                     destruct (Req_dec_T x y); try lra
                 end;
               unfold Rabs; repeat destruct (Rcase_abs _); lra)
        | try (exfalso; apply H; unfold spec_tolerance;
               repeat match goal with
                 | |- context [Req_dec_T ?x ?y] =>
                     destruct (Req_dec_T x y); try lra
                 end;
               unfold Rabs; repeat destruct (Rcase_abs _); lra) ]
    end.

(** The two raw supports of the specification's example. *)
Lemma near_duplicates_merge m : spec_merged_levels m [100; 100.3] = [100.15].
Proof.
  unfold spec_merged_levels, spec_merge. rdecide.
  cbn [app]. f_equal. lra.
Qed.

(** The raw levels of a series of three cells with the peak in the
    middle: the two ends are the supports, the middle is the
    resistance. *)
Lemma raw_levels_of_peak a b c :
  a < b -> c < b -> a < c ->
  sorted (unique (supports_raw [Num a; Num b; Num c] 1)) = [a; c]
  /\ sorted_reverse (unique (resistances_raw [Num a; Num b; Num c] 1)) = [b].
Proof.
  intros Hab Hcb Hac.
  unfold supports_raw, resistances_raw, rolling_ext, window_cells.
  cbn [seq List.length map Nat.add Nat.sub firstn skipn fold_right fmin2 fmax2].
  rminmax. unfold select_equal.
  cbn [combine flat_map app]. rcompare. cbn [app].
  unfold unique. cbn [unique_from existsb orb]. rcompare. cbn [orb].
  unfold sorted, sorted_reverse, sorted_by.
  cbn [fold_right insert_by]. rcompare. split; reflexivity.
Qed.

Lemma find_pivots_of_peak a b c :
  a < b -> c < b -> a < c ->
  find_pivots [Num a; Num b; Num c] 3
  = (sorted (spec_merged_levels ((a + b + c) / 3) [a; c]),
     sorted_reverse (spec_merged_levels ((a + b + c) / 3) [b])).
Proof.
  intros Hab Hcb Hac. rewrite find_pivots_merged.
  change (Z.of_nat (List.length [Num a; Num b; Num c])
          <? effective_window 3)%Z with false.
  change (half_width 3) with 1%nat. cbv iota.
  destruct (raw_levels_of_peak a b c Hab Hcb Hac) as [-> ->].
  change [Num a; Num b; Num c] with (map Num [a; b; c]).
  rewrite (series_mean_numbers [a; b; c]) by discriminate.
  cbn [fold_right List.length INR].
  replace ((a + (b + (c + 0))) / (1 + 1 + 1)) with ((a + b + c) / 3)
    by (field).
  reflexivity.
Qed.

(** A series whose raw supports are 100 and 100.3. *)
Lemma pivots_of_example :
  find_pivots [Num 100; Num 101; Num 100.3] 3 = ([100.15], [101]).
Proof.
  rewrite find_pivots_of_peak by lra.
  rewrite near_duplicates_merge. reflexivity.
Qed.

(** With an accepted level of 0 the tolerance is taken from the series
    mean: the raw supports 0 and 0.004 merge when the mean is above 0.8
    and stay apart when it is below. *)
Lemma pivots_at_zero_support :
  find_pivots (zero_support 3) 3 = ([0.002], [3])
  /\ find_pivots (zero_support 2) 3 = ([0; 0.004], [2]).
Proof.
  unfold zero_support. split; rewrite find_pivots_of_peak by lra;
    unfold spec_merged_levels, spec_merge; rdecide; cbn [app].
  - unfold sorted, sorted_reverse, sorted_by. cbn [fold_right insert_by].
    do 2 f_equal. lra.
  - unfold sorted, sorted_reverse, sorted_by. cbn [fold_right insert_by].
    rcompare. reflexivity.
Qed.

(** C9: the raw pivots reach the de-duplication loop in sorted order
    (supports ascending, resistances descending); with the first one
    accepted, each further candidate that differs from the last accepted
    level by more than the tolerance (0.5% of that level, or of the
    series mean when the level is zero) is appended, and each candidate
    within the tolerance replaces the last accepted level by the mean of
    the two; the raw supports 100.00 and 100.30 merge into the single
    level 100.15. *)
Theorem pivot_levels_merge :
  (forall series window,
      let h := half_width window in
      let candidates_s := sorted (unique (supports_raw series h)) in
      let candidates_r := sorted_reverse (unique (resistances_raw series h)) in
      (Sorted Rle candidates_s
       /\ Permutation (unique (supports_raw series h)) candidates_s)
      /\ (Sorted Rge candidates_r
          /\ Permutation (unique (resistances_raw series h)) candidates_r)
      /\ find_pivots series window
         = if (Z.of_nat (List.length series) <? effective_window window)%Z
           then ([], [])
           else match series_mean series with
                | Num m =>
                    (sorted (spec_merged_levels m candidates_s),
                     sorted_reverse (spec_merged_levels m candidates_r))
                | NaN => ([], [])
                end)
  /\ (forall m sorted_raw,
        dedup_levels (Num m) sorted_raw = spec_merged_levels m sorted_raw)
  /\ (forall m sorted_raw candidate,
        sorted_raw <> [] ->
        exists accepted last_accepted,
          dedup_levels (Num m) sorted_raw = accepted ++ [last_accepted]
          /\ dedup_levels (Num m) (sorted_raw ++ [candidate])
             = if Rlt_dec (spec_tolerance m last_accepted)
                          (Rabs (candidate - last_accepted))
               then accepted ++ [last_accepted; candidate]
               else accepted ++ [(last_accepted + candidate) / 2])
  /\ (forall xs,
        xs <> [] ->
        series_mean (map Num xs)
        = Num (fold_right Rplus 0 xs / INR (List.length xs)))
  /\ (forall m, dedup_levels (Num m) [100; 100.3] = [100.15])
  /\ find_pivots [Num 100; Num 101; Num 100.3] 3 = ([100.15], [101])
  /\ find_pivots (zero_support 3) 3 = ([0.002], [3])
  /\ find_pivots (zero_support 2) 3 = ([0; 0.004], [2]).
Proof.
  split; [|split; [|split; [|split; [|split; [|split]]]]].
  - intros series window h candidates_s candidates_r.
    split; [apply sorted_ascending|]. split; [apply sorted_descending|].
    apply find_pivots_merged.
  - exact dedup_levels_merged.
  - exact dedup_levels_next.
  - exact series_mean_numbers.
  - intro m. rewrite dedup_levels_merged. apply near_duplicates_merge.
  - exact pivots_of_example.
  - exact pivots_at_zero_support.
Qed.

Lemma pivot_levels_merge_witness :
  (exists accepted last_accepted,
      dedup_levels (Num 100) [100] = accepted ++ [last_accepted]
      /\ dedup_levels (Num 100) ([100] ++ [100.3])
         = if Rlt_dec (spec_tolerance 100 last_accepted)
                      (Rabs (100.3 - last_accepted))
           then accepted ++ [last_accepted; 100.3]
           else accepted ++ [(last_accepted + 100.3) / 2])
  /\ series_mean (map Num [0; 3; 0.004])
     = Num (fold_right Rplus 0 [0; 3; 0.004]
            / INR (List.length [0; 3; 0.004])).
Proof.
  destruct pivot_levels_merge as (_ & _ & Hnext & Hmean & _).
  split; [apply Hnext | apply Hmean]; discriminate.
Defined.

End PivotLevels.

(** ** Rounding to nearest: the order of the binary64 operations *)

Section RoundingToNearest.
Import Rounding.

(** *** Powers of two *)

Lemma bpow_gt_0 e : 0 < bpow e.
Proof. apply powerRZ_lt; lra. Qed.

Lemma bpow_plus a b : bpow (a + b) = bpow a * bpow b.
Proof. apply powerRZ_add; lra. Qed.

Lemma bpow_0 : bpow 0 = 1.
Proof. reflexivity. Qed.

Lemma bpow_1 : bpow 1 = 2.
Proof. unfold bpow. change 1%Z with (Z.succ 0). apply powerRZ_1. Qed.

Lemma bpow_succ e : bpow (e + 1) = 2 * bpow e.
Proof. rewrite bpow_plus, bpow_1. ring. Qed.

Lemma bpow_nat (n : nat) : bpow (Z.of_nat n) = 2 ^ n.
Proof. unfold bpow. symmetry. apply pow_powerRZ. Qed.

Lemma bpow_ge_1 k : (0 <= k)%Z -> 1 <= bpow k.
Proof.
  intro H. rewrite <- (Z2Nat.id k H), bpow_nat.
  apply pow_R1_Rle. lra.
Qed.

Lemma bpow_le a b : (a <= b)%Z -> bpow a <= bpow b.
Proof.
  intro H. replace b with (a + (b - a))%Z by lia. rewrite bpow_plus.
  pose proof (bpow_gt_0 a). pose proof (bpow_ge_1 (b - a) ltac:(lia)). nra.
Qed.

Lemma bpow_lt a b : (a < b)%Z -> bpow a < bpow b.
Proof.
  intro H. apply Rlt_le_trans with (bpow (a + 1)).
  - rewrite bpow_succ. pose proof (bpow_gt_0 a). lra.
  - apply bpow_le. lia.
Qed.

Lemma bpow_lt_inv a b : bpow a < bpow b -> (a < b)%Z.
Proof.
  intro H. destruct (Z_lt_le_dec a b) as [L|L]; [exact L|].
  apply bpow_le in L. lra.
Qed.

Lemma bpow_IZR k : (0 <= k)%Z -> bpow k = IZR (2 ^ k).
Proof.
  intro H. rewrite <- (Z2Nat.id k H), bpow_nat.
  change 2 with (IZR 2). apply pow_IZR.
Qed.

(** *** The number of binary digits *)

Lemma digits2_pos_bounds (m : positive) :
  (2 ^ (Z.pos (digits2_pos m) - 1) <= Z.pos m < 2 ^ Z.pos (digits2_pos m))%Z.
Proof.
  induction m as [p IH|p IH|]; cbn [digits2_pos].
  - rewrite Pos2Z.inj_succ.
    replace (Z.succ (Z.pos (digits2_pos p)) - 1)%Z
      with (Z.succ (Z.pos (digits2_pos p) - 1)) by lia.
    rewrite !Z.pow_succ_r by lia. lia.
  - rewrite Pos2Z.inj_succ.
    replace (Z.succ (Z.pos (digits2_pos p)) - 1)%Z
      with (Z.succ (Z.pos (digits2_pos p) - 1)) by lia.
    rewrite !Z.pow_succ_r by lia. lia.
  - cbn. lia.
Qed.

Lemma digits_bounds (m : positive) :
  bpow (Zdigits2 (Z.pos m) - 1) <= IZR (Z.pos m) < bpow (Zdigits2 (Z.pos m)).
Proof.
  cbn [Zdigits2]. pose proof (digits2_pos_bounds m) as [L U].
  rewrite !bpow_IZR by lia. split; [apply IZR_le | apply IZR_lt]; assumption.
Qed.

Lemma digits_bounds_succ (m : positive) :
  IZR (Z.pos m) + 1 <= bpow (Zdigits2 (Z.pos m)).
Proof.
  cbn [Zdigits2]. pose proof (digits2_pos_bounds m) as [L U].
  rewrite bpow_IZR by lia. change 1 with (IZR 1). rewrite <- plus_IZR.
  apply IZR_le. lia.
Qed.

Lemma digits_pos (m : positive) : (0 < Zdigits2 (Z.pos m))%Z.
Proof. cbn. lia. Qed.

(** The number of digits is determined by the bounds. *)
Lemma digits_unique (m : positive) d :
  bpow (d - 1) <= IZR (Z.pos m) < bpow d -> Zdigits2 (Z.pos m) = d.
Proof.
  intros [L U]. pose proof (digits_bounds m) as [L' U'].
  assert (d - 1 < Zdigits2 (Z.pos m))%Z by (apply bpow_lt_inv; lra).
  assert (Zdigits2 (Z.pos m) - 1 < d)%Z by (apply bpow_lt_inv; lra).
  lia.
Qed.

(** *** Locations *)

Lemma inb_bounds m e l q :
  inb m e l q -> IZR m * bpow e <= q < (IZR m + 1) * bpow e.
Proof.
  pose proof (bpow_gt_0 e). destruct l as [|c]; cbn.
  - intros ->. nra.
  - intros [[L U] _]. lra.
Qed.

(** One shift to the right. *)
Lemma shr_1_inb mrs e q :
  (0 <= shr_m mrs)%Z ->
  inb (shr_m mrs) e (loc_of_shr_record mrs) q ->
  inb (shr_m (shr_1 mrs)) (e + 1) (loc_of_shr_record (shr_1 mrs)) q
  /\ shr_m (shr_1 mrs) = (shr_m mrs / 2)%Z.
Proof.
  destruct mrs as [m r s]. cbn [shr_m]. intros Hm.
  pose proof (bpow_gt_0 e) as HB.
  destruct m as [|p|p]; [| |lia].
  - destruct r, s; cbn -[IZR bpow Z.div]; rewrite ?bpow_succ;
      set (B := bpow e) in *; intros;
      repeat match goal with H : _ /\ _ |- _ => destruct H end;
      subst; repeat split; try reflexivity; nra.
  - destruct p as [p|p|].
    + assert (E : IZR (Z.pos p~1) = 2 * IZR (Z.pos p) + 1).
      { rewrite Pos2Z.inj_xI, plus_IZR, mult_IZR. reflexivity. }
      assert (D : (Z.pos p~1 / 2 = Z.pos p)%Z).
      { rewrite Pos2Z.inj_xI. symmetry.
        apply (Z.div_unique _ _ _ 1); lia. }
      destruct r, s; cbn -[IZR bpow Z.div]; rewrite ?bpow_succ, ?E, ?D;
        set (B := bpow e) in *; set (P := IZR (Z.pos p)) in *; intros;
        repeat match goal with H : _ /\ _ |- _ => destruct H end;
        subst; repeat split; try reflexivity; nra.
    + assert (E : IZR (Z.pos p~0) = 2 * IZR (Z.pos p)).
      { rewrite Pos2Z.inj_xO, mult_IZR. reflexivity. }
      assert (D : (Z.pos p~0 / 2 = Z.pos p)%Z).
      { rewrite Pos2Z.inj_xO. symmetry.
        apply (Z.div_unique _ _ _ 0); lia. }
      destruct r, s; cbn -[IZR bpow Z.div]; rewrite ?bpow_succ, ?E, ?D;
        set (B := bpow e) in *; set (P := IZR (Z.pos p)) in *; intros;
        repeat match goal with H : _ /\ _ |- _ => destruct H end;
        subst; repeat split; try reflexivity; nra.
    + change (1 / 2)%Z with 0%Z.
      destruct r, s; cbn -[IZR bpow Z.div]; rewrite ?bpow_succ;
        set (B := bpow e) in *; intros;
        repeat match goal with H : _ /\ _ |- _ => destruct H end;
        subst; repeat split; try reflexivity; nra.
Qed.

Lemma iter_pos_nat {A : Type} (f : A -> A) p x :
  @SpecFloat.iter_pos A f p x = Nat.iter (Pos.to_nat p) f x.
Proof.
  revert x. induction p as [p IH|p IH|]; intro x; cbn [SpecFloat.iter_pos].
  - rewrite !IH, Pos2Nat.inj_xI.
    replace (S (2 * Pos.to_nat p)) with (Pos.to_nat p + Pos.to_nat p + 1)%nat
      by lia.
    rewrite !Nat.iter_add. reflexivity.
  - rewrite !IH, Pos2Nat.inj_xO.
    replace (2 * Pos.to_nat p)%nat with (Pos.to_nat p + Pos.to_nat p)%nat
      by lia.
    rewrite Nat.iter_add. reflexivity.
  - reflexivity.
Qed.

(** [n] shifts to the right. *)
Lemma shr_iter_inb (n : nat) mrs e q :
  (0 <= shr_m mrs)%Z ->
  inb (shr_m mrs) e (loc_of_shr_record mrs) q ->
  let mrs' := Nat.iter n shr_1 mrs in
  inb (shr_m mrs') (e + Z.of_nat n) (loc_of_shr_record mrs') q
  /\ shr_m mrs' = (shr_m mrs / 2 ^ Z.of_nat n)%Z.
Proof.
  intros Hm H. induction n as [|n [IH1 IH2]]; cbv zeta.
  - change (Nat.iter 0 shr_1 mrs) with mrs. rewrite Z.add_0_r.
    split; [exact H|].
    cbn. rewrite Z.div_1_r. reflexivity.
  - rewrite Nat.iter_succ. cbv zeta in IH1, IH2.
    set (mrs' := Nat.iter n shr_1 mrs) in *.
    assert (H0 : (0 <= shr_m mrs')%Z).
    { rewrite IH2. apply Z.div_pos; [exact Hm|]. apply Z.pow_pos_nonneg; lia. }
    destruct (shr_1_inb mrs' (e + Z.of_nat n) q H0 IH1) as [A B].
    split.
    + replace (e + Z.of_nat (S n))%Z with (e + Z.of_nat n + 1)%Z by lia.
      exact A.
    + rewrite B, IH2, Nat2Z.inj_succ, Z.pow_succ_r by lia.
      rewrite Z.div_div by (try apply Z.pow_pos_nonneg; lia).
      f_equal. lia.
Qed.

(** [shr] shifts by [n] when [n] is positive, and not at all otherwise. *)
Lemma shr_inb m l e n q :
  (0 <= m)%Z ->
  inb m e l q ->
  exists m' l',
    shr (shr_record_of_loc m l) e n = (shr_record_of_loc m' l', Z.max e (e + n))
    /\ inb m' (Z.max e (e + n)) l' q
    /\ m' = (m / 2 ^ Z.max 0 n)%Z.
Proof.
  intros Hm H.
  assert (R : forall mrs, shr_record_of_loc (shr_m mrs) (loc_of_shr_record mrs)
                          = mrs).
  { intros [m0 [|] [|]]; reflexivity. }
  assert (L : forall m0 l0, loc_of_shr_record (shr_record_of_loc m0 l0) = l0).
  { intros m0 [|[| |]]; reflexivity. }
  assert (M : forall m0 l0, shr_m (shr_record_of_loc m0 l0) = m0).
  { intros m0 [|[| |]]; reflexivity. }
  destruct n as [|p|p]; cbn [shr].
  - exists m, l. rewrite Z.add_0_r, Z.max_id. repeat split; [exact H|].
    cbn. rewrite Z.div_1_r. reflexivity.
  - rewrite iter_pos_nat.
    destruct (shr_iter_inb (Pos.to_nat p) (shr_record_of_loc m l) e q)
      as [A B]; [rewrite M; exact Hm | rewrite M, L; exact H |].
    cbv zeta in A, B. rewrite positive_nat_Z in A, B. rewrite M in B.
    set (mrs' := Nat.iter _ _ _) in *.
    exists (shr_m mrs'), (loc_of_shr_record mrs').
    rewrite R. replace (Z.max e (e + Z.pos p)) with (e + Z.pos p)%Z by lia.
    repeat split; [exact A|]. rewrite B. f_equal.
  - exists m, l. replace (Z.max e (e + Z.neg p)) with e by lia.
    repeat split; [exact H|]. cbn. rewrite Z.div_1_r. reflexivity.
Qed.

Section Truncation.
Variables prec emax : Z.
Hypothesis prec_gt_0 : (0 < prec)%Z.
Hypothesis prec_lt_emax : (prec < emax)%Z.

Abbreviation fexp := (SpecFloat.fexp prec emax).
Abbreviation emin := (SpecFloat.emin prec emax).
Abbreviation pre := (Rounding.pre prec emax).
Abbreviation finish := (Rounding.finish prec emax).
Abbreviation canonical := (Rounding.canonical prec emax).
Abbreviation finish_value := (Rounding.finish_value prec emax).
Abbreviation bra := (binary_round_aux prec emax).
Abbreviation rounds_to := (Rounding.rounds_to prec emax).
Abbreviation xrounds := (Rounding.xrounds prec emax).
Abbreviation valid := (SpecFloat.valid_binary prec emax).

Lemma fexp_ge_emin x : (emin <= fexp x)%Z.
Proof. unfold SpecFloat.fexp. lia. Qed.

Lemma fexp_mono x y : (x <= y)%Z -> (fexp x <= fexp y)%Z.
Proof. unfold SpecFloat.fexp. lia. Qed.

Lemma emin_le_emax : (emin <= emax - prec)%Z.
Proof. unfold SpecFloat.emin. lia. Qed.

Lemma IZR_bpow_lt m k : (0 <= k)%Z -> IZR m < bpow k -> (m < 2 ^ k)%Z.
Proof. intros Hk H. apply lt_IZR. rewrite <- bpow_IZR by exact Hk. exact H. Qed.

Lemma bpow_IZR_le m k : (0 <= k)%Z -> bpow k <= IZR m -> (2 ^ k <= m)%Z.
Proof. intros Hk H. apply le_IZR. rewrite <- bpow_IZR by exact Hk. exact H. Qed.

Lemma bpow_IZR_lt_succ m k :
  (0 <= k)%Z -> bpow k < IZR m + 1 -> (2 ^ k <= m)%Z.
Proof.
  intros Hk H. assert (2 ^ k < m + 1)%Z; [|lia].
  apply lt_IZR. rewrite <- bpow_IZR, plus_IZR by exact Hk. exact H.
Qed.

(** The truncation of the first step. *)
Lemma trunc_spec m e l q :
  pre m e l q ->
  let E := fexp (Zdigits2 m + e) in
  exists m' l',
    shr_fexp prec emax m e l = (shr_record_of_loc m' l', E)
    /\ inb m' E l' q
    /\ (0 <= m' < 2 ^ prec)%Z
    /\ ((emin < E)%Z -> (2 ^ (prec - 1) <= m')%Z).
Proof.
  intros (Hm & Hq & He) E. fold E in He.
  destruct (shr_inb m l e (E - e) q Hm Hq) as (m' & l' & S1 & S2 & S3).
  replace (Z.max e (e + (E - e))) with E in S1, S2 by lia.
  exists m', l'. split; [exact S1|]. split; [exact S2|].
  assert (H0 : (0 <= m')%Z).
  { rewrite S3. apply Z.div_pos; [exact Hm|]. apply Z.pow_pos_nonneg; lia. }
  pose proof (inb_bounds _ _ _ _ Hq) as [Lq Uq].
  pose proof (inb_bounds _ _ _ _ S2) as [Lq' Uq'].
  pose proof (bpow_gt_0 e) as Be. pose proof (bpow_gt_0 E) as BE.
  destruct m as [|p|p]; [| |lia].
  - (* m = 0 *)
    assert (m' = 0)%Z as -> by (rewrite S3; apply Z.div_0_l;
                               apply Z.pow_nonzero; lia).
    split; [split; [lia | apply Z.pow_pos_nonneg; lia]|].
    intro Hlt. exfalso. subst E. unfold SpecFloat.fexp in *.
    cbn [Zdigits2] in *. lia.
  - pose proof (digits_bounds p) as [Ld Ud].
    pose proof (digits_bounds_succ p) as Us.
    set (d := Zdigits2 (Z.pos p)) in *.
    assert (Hd : (0 < d)%Z) by apply digits_pos.
    assert (HE : (d + e - prec <= E)%Z) by (unfold E, SpecFloat.fexp; lia).
    split; [split; [exact H0|]|].
    + apply IZR_bpow_lt; [lia|].
      assert (IZR m' * bpow E < bpow (d + e)).
      { rewrite bpow_plus. nra. }
      assert (bpow (d + e) <= bpow prec * bpow E).
      { rewrite <- bpow_plus. apply bpow_le. lia. }
      nra.
    + intro Hlt.
      assert (E = d + e - prec)%Z as EE by (unfold E, SpecFloat.fexp in *; lia).
      apply bpow_IZR_lt_succ; [lia|].
      assert (bpow (d - 1) * bpow e = bpow (prec - 1) * bpow E).
      { rewrite <- !bpow_plus. f_equal. lia. }
      nra.
Qed.

Lemma binary_round_aux_finish sx mx ex lx :
  binary_round_aux prec emax sx mx ex lx
  = finish sx
      (round_nearest_even (shr_m (fst (shr_fexp prec emax mx ex lx)))
         (loc_of_shr_record (fst (shr_fexp prec emax mx ex lx))))
      (snd (shr_fexp prec emax mx ex lx)).
Proof.
  unfold binary_round_aux, finish.
  destruct (shr_fexp prec emax mx ex lx) as [mrs' e']. reflexivity.
Qed.

Lemma canonical_digits m e :
  canonical m e ->
  (Zdigits2 (Z.pos m) <= prec)%Z
  /\ ((emin < e)%Z -> Zdigits2 (Z.pos m) = prec).
Proof. unfold canonical, SpecFloat.fexp. lia. Qed.

Lemma canonical_range m e :
  canonical m e ->
  IZR (Z.pos m) < bpow prec
  /\ ((emin < e)%Z -> bpow (prec - 1) <= IZR (Z.pos m))
  /\ (emin <= e)%Z.
Proof.
  intro C. destruct (canonical_digits m e C) as [D1 D2].
  pose proof (digits_bounds m) as [L U].
  split; [|split].
  - apply Rlt_le_trans with (1 := U). apply bpow_le. exact D1.
  - intro H. rewrite <- (D2 H). exact L.
  - unfold canonical, SpecFloat.fexp in C. lia.
Qed.

Lemma finish_spec sx N E :
  (0 <= N <= 2 ^ prec)%Z ->
  (emin <= E)%Z ->
  ((emin < E)%Z -> (2 ^ (prec - 1) <= N)%Z) ->
  finish_value (finish sx N E) sx (IZR N * bpow E).
Proof.
  intros [HN0 HN] HE Hnorm. unfold finish, shr_fexp.
  destruct N as [|p|p]; [| |lia].
  - cbn [Zdigits2]. rewrite Z.add_0_l.
    assert (fexp E - E <= 0)%Z by (unfold SpecFloat.fexp; lia).
    destruct (fexp E - E)%Z eqn:EQ; try lia; cbn; (split; [reflexivity|lra]).
  - pose proof (digits_bounds p) as [Ld Ud].
    pose proof (digits2_pos_bounds p) as [Ld' Ud'].
    set (d := Zdigits2 (Z.pos p)) in *. change (Z.pos (digits2_pos p)) with d in *.
    assert (Hd : (0 < d)%Z) by apply digits_pos.
    assert (Hdp : (d <= prec + 1)%Z).
    { destruct (Z_le_gt_dec d (prec + 1)) as [L|G]; [exact L|].
      assert (2 ^ (prec + 1) <= 2 ^ (d - 1))%Z by (apply Z.pow_le_mono_r; lia).
      assert (2 ^ prec < 2 ^ (prec + 1))%Z by (apply Z.pow_lt_mono_r; lia).
      lia. }
    pose proof (bpow_gt_0 E) as BE.
    destruct (Z_le_gt_dec d prec) as [Dle|Dgt].
    + (* no carry *)
      assert (Hn : (fexp (d + E) - E <= 0)%Z) by (unfold SpecFloat.fexp; lia).
      assert (S : shr (shr_record_of_loc (Z.pos p) loc_Exact) E
                    (fexp (d + E) - E)
                  = (shr_record_of_loc (Z.pos p) loc_Exact, E)).
      { destruct (fexp (d + E) - E)%Z; try lia; reflexivity. }
      rewrite S. cbn [shr_record_of_loc shr_m].
      assert (C : canonical p E).
      { unfold canonical. fold d.
        destruct (Z_le_gt_dec E emin) as [L|G].
        - unfold SpecFloat.fexp. lia.
        - specialize (Hnorm ltac:(lia)).
          assert (d = prec); [|unfold SpecFloat.fexp; lia].
          destruct (Z_le_gt_dec prec d) as [L|G']; [lia|].
          assert (2 ^ d <= 2 ^ (prec - 1))%Z by (apply Z.pow_le_mono_r; lia).
          lia. }
      destruct (E <=? emax - prec)%Z eqn:Le; cbn.
      * apply Z.leb_le in Le. repeat split; assumption.
      * apply Z.leb_gt in Le. split; [reflexivity|].
        specialize (Hnorm ltac:(pose proof emin_le_emax; lia)).
        assert (bpow (prec - 1) <= IZR (Z.pos p)).
        { rewrite bpow_IZR by lia. apply IZR_le. exact Hnorm. }
        assert (bpow emax <= bpow (prec - 1) * bpow E).
        { rewrite <- bpow_plus. apply bpow_le. lia. }
        nra.
    + (* the carry: N = 2 ^ prec *)
      assert (d = prec + 1)%Z as Dd by lia.
      assert (HNe : (Z.pos p = 2 ^ prec)%Z).
      { replace (d - 1)%Z with prec in Ld' by lia. lia. }
      assert (Hn : (fexp (d + E) - E = 1)%Z) by (unfold SpecFloat.fexp; lia).
      rewrite Hn.
      destruct (shr_inb (Z.pos p) loc_Exact E 1 (IZR (Z.pos p) * bpow E))
        as (m' & l' & S1 & S2 & S3); [lia | reflexivity |].
      replace (Z.max E (E + 1)) with (E + 1)%Z in S1, S2 by lia.
      rewrite S1.
      assert (M : forall m0 l0, shr_m (shr_record_of_loc m0 l0) = m0).
      { intros m0 [|[| |]]; reflexivity. }
      rewrite M.
      assert (Hm' : (m' = 2 ^ (prec - 1))%Z).
      { rewrite S3, HNe. change (Z.max 0 1) with 1%Z.
        replace prec with (prec - 1 + 1)%Z at 1 by lia.
        rewrite Z.pow_add_r by lia. apply Z.div_mul. discriminate. }
      assert (V : IZR m' * bpow (E + 1) = IZR (Z.pos p) * bpow E).
      { rewrite Hm', HNe, <- !bpow_IZR, <- !bpow_plus by lia. f_equal. lia. }
      assert (Pm : (0 < m')%Z) by (rewrite Hm'; apply Z.pow_pos_nonneg; lia).
      destruct m' as [|p'|p']; try lia.
      assert (C : canonical p' (E + 1)).
      { unfold canonical.
        rewrite (digits_unique p' prec).
        - unfold SpecFloat.fexp. lia.
        - rewrite Hm', <- bpow_IZR by lia. split; [lra|].
          apply bpow_lt. lia. }
      destruct (E + 1 <=? emax - prec)%Z eqn:Le; cbn.
      * apply Z.leb_le in Le. repeat split; assumption.
      * apply Z.leb_gt in Le. split; [reflexivity|].
        rewrite HNe, <- bpow_IZR, <- bpow_plus by lia. apply bpow_le. lia.
Qed.

End Truncation.

Lemma rne_bounds m l :
  (m <= round_nearest_even m l <= m + 1)%Z.
Proof.
  destruct l as [|[| |]]; cbn [round_nearest_even]; try lia.
  destruct (Z.even m); lia.
Qed.

(** Rounding to nearest even within slices of the same width keeps the
    order. *)
Lemma rne_le m1 l1 m2 l2 E q1 q2 :
  inb m1 E l1 q1 -> inb m2 E l2 q2 -> q1 <= q2 ->
  (round_nearest_even m1 l1 <= round_nearest_even m2 l2)%Z.
Proof.
  intros H1 H2 Hq.
  pose proof (inb_bounds _ _ _ _ H1) as [L1 U1].
  pose proof (inb_bounds _ _ _ _ H2) as [L2 U2].
  pose proof (bpow_gt_0 E) as BE.
  assert (Hm : (m1 <= m2)%Z).
  { assert (IZR m1 < IZR m2 + 1) by nra.
    assert (m1 < m2 + 1)%Z; [|lia].
    apply lt_IZR. rewrite plus_IZR. exact H. }
  pose proof (rne_bounds m1 l1). pose proof (rne_bounds m2 l2).
  destruct (Z.eq_dec m1 m2) as [->|Hne]; [|lia].
  destruct l1 as [|[| |]], l2 as [|[| |]]; cbn [round_nearest_even inb side] in *;
    repeat match goal with H : _ /\ _ |- _ => destruct H end;
    try lia; try (exfalso; nra); destruct (Z.even m2); lia.
Qed.

(** Comparison is reversed by a change of sign. *)
Lemma SFcompare_opp a b : SFcompare (SFopp a) (SFopp b) = SFcompare b a.
Proof.
  destruct a as [sa|sa| |sa ma ea], b as [sb|sb| |sb mb eb];
    try destruct sa; try destruct sb; cbn [SFopp SFcompare negb];
    try reflexivity.
  - rewrite (Z.compare_antisym ea eb).
    destruct (ea ?= eb)%Z; cbn [CompOpp]; try reflexivity.
    change (Pos.compare_cont Eq mb ma) with (Pos.compare mb ma).
    change (Pos.compare_cont Eq ma mb) with (Pos.compare ma mb).
    rewrite (Pos.compare_antisym ma mb). destruct (ma ?= mb)%positive; reflexivity.
  - rewrite (Z.compare_antisym ea eb).
    destruct (ea ?= eb)%Z; cbn [CompOpp]; try reflexivity.
    change (Pos.compare_cont Eq mb ma) with (Pos.compare mb ma).
    change (Pos.compare_cont Eq ma mb) with (Pos.compare ma mb).
    rewrite (Pos.compare_antisym ma mb). destruct (ma ?= mb)%positive; reflexivity.
Qed.

Lemma SFcompare_antisym a b :
  SFcompare b a = option_map CompOpp (SFcompare a b).
Proof.
  destruct a as [sa|sa| |sa ma ea], b as [sb|sb| |sb mb eb];
    try destruct sa; try destruct sb; cbn [SFcompare option_map CompOpp];
    try reflexivity.
  - rewrite (Z.compare_antisym ea eb).
    destruct (ea ?= eb)%Z; cbn [CompOpp]; try reflexivity.
    change (Pos.compare_cont Eq mb ma) with (Pos.compare mb ma).
    change (Pos.compare_cont Eq ma mb) with (Pos.compare ma mb).
    rewrite (Pos.compare_antisym ma mb). reflexivity.
  - rewrite (Z.compare_antisym ea eb).
    destruct (ea ?= eb)%Z; cbn [CompOpp]; try reflexivity.
    change (Pos.compare_cont Eq mb ma) with (Pos.compare mb ma).
    change (Pos.compare_cont Eq ma mb) with (Pos.compare ma mb).
    rewrite (Pos.compare_antisym ma mb).
    destruct (ma ?= mb)%positive; reflexivity.
Qed.

Lemma SFleb_opp a b : SFleb (SFopp a) (SFopp b) = SFleb b a.
Proof. unfold SFleb. rewrite SFcompare_opp. reflexivity. Qed.

Section OrderOfRounding.
Variables prec emax : Z.
Hypothesis prec_gt_0 : (0 < prec)%Z.
Hypothesis prec_lt_emax : (prec < emax)%Z.

Abbreviation fexp := (SpecFloat.fexp prec emax).
Abbreviation emin := (SpecFloat.emin prec emax).
Abbreviation pre := (Rounding.pre prec emax).
Abbreviation finish := (Rounding.finish prec emax).
Abbreviation canonical := (Rounding.canonical prec emax).
Abbreviation finish_value := (Rounding.finish_value prec emax).
Abbreviation bra := (binary_round_aux prec emax).
Abbreviation rounds_to := (Rounding.rounds_to prec emax).
Abbreviation xrounds := (Rounding.xrounds prec emax).
Abbreviation valid := (SpecFloat.valid_binary prec emax).

(** Canonical positive numbers compare as their values do. *)
Lemma canonical_le m1 e1 m2 e2 :
  canonical m1 e1 -> canonical m2 e2 ->
  IZR (Z.pos m1) * bpow e1 <= IZR (Z.pos m2) * bpow e2 ->
  SFleb (S754_finite false m1 e1) (S754_finite false m2 e2) = true.
Proof.
  intros C1 C2 H. unfold SFleb. cbn [SFcompare].
  destruct (canonical_range prec emax m1 e1 C1) as (U1 & L1 & M1).
  destruct (canonical_range prec emax m2 e2 C2) as (U2 & L2 & M2).
  pose proof (bpow_gt_0 e1) as B1. pose proof (bpow_gt_0 e2) as B2.
  destruct (Z.compare_spec e1 e2) as [->|Hlt|Hgt]; [|reflexivity|].
  - change (Pos.compare_cont Eq m1 m2) with (Pos.compare m1 m2).
    destruct (Pos.compare_spec m1 m2) as [->|Hl|Hg]; try reflexivity.
    exfalso. assert (IZR (Z.pos m2) < IZR (Z.pos m1)) by (apply IZR_lt; lia).
    nra.
  - exfalso. specialize (L1 ltac:(lia)).
    assert (bpow (e2 + 1) <= bpow e1) by (apply bpow_le; lia).
    rewrite bpow_succ in H0.
    assert (bpow prec = 2 * bpow (prec - 1)).
    { rewrite <- bpow_succ. f_equal. lia. }
    pose proof (bpow_gt_0 (prec - 1)). nra.
Qed.

Lemma canonical_lt_emax m e :
  canonical m e -> (e <= emax - prec)%Z ->
  IZR (Z.pos m) * bpow e < bpow emax.
Proof.
  intros C H. destruct (canonical_range prec emax m e C) as (U & _ & _).
  assert (bpow prec * bpow e <= bpow emax).
  { rewrite <- bpow_plus. apply bpow_le. lia. }
  pose proof (bpow_gt_0 e). nra.
Qed.

(** Two outcomes of the second step compare as their values do. *)
Lemma finish_value_le z1 z2 r1 r2 :
  finish_value z1 false r1 -> finish_value z2 false r2 ->
  0 <= r1 -> r1 <= r2 ->
  SFleb z1 z2 = true.
Proof.
  intros V1 V2 H0 H.
  destruct z1 as [s1|s1| |s1 m1 e1], z2 as [s2|s2| |s2 m2 e2];
    cbn [Rounding.finish_value] in V1, V2; try contradiction;
    repeat match goal with H : _ /\ _ |- _ => destruct H end; subst;
    try reflexivity.
  - exfalso. pose proof (bpow_gt_0 emax). lra.
  - exfalso. pose proof (canonical_lt_emax m2 e2 ltac:(assumption)
                           ltac:(assumption)). lra.
  - exfalso. pose proof (bpow_gt_0 e1).
    assert (0 < IZR (Z.pos m1)) by (apply IZR_lt; lia). nra.
  - apply canonical_le; assumption.
Qed.

(** The rounding routine, as truncation, rounding of the last digit and
    the second step. *)
Lemma bra_spec sx m e l q :
  pre m e l q ->
  exists m' l' E,
    bra sx m e l = finish sx (round_nearest_even m' l') E
    /\ E = fexp (Zdigits2 m + e)
    /\ inb m' E l' q
    /\ (0 <= m' < 2 ^ prec)%Z
    /\ ((emin < E)%Z -> (2 ^ (prec - 1) <= m')%Z).
Proof.
  intro H. destruct (trunc_spec prec emax prec_gt_0 m e l q H)
    as (m' & l' & S & Hq & Hm & Hn).
  exists m', l', (fexp (Zdigits2 m + e)).
  rewrite binary_round_aux_finish, S. cbn [fst snd].
  assert (M : forall m0 l0, shr_m (shr_record_of_loc m0 l0) = m0).
  { intros m0 [|[| |]]; reflexivity. }
  assert (L : forall m0 l0, loc_of_shr_record (shr_record_of_loc m0 l0) = l0).
  { intros m0 [|[| |]]; reflexivity. }
  rewrite M, L. repeat split; try assumption; lia.
Qed.

Lemma bra_value sx m e l q :
  pre m e l q ->
  exists N E m' l',
    bra sx m e l = finish sx N E
    /\ finish_value (finish sx N E) sx (IZR N * bpow E)
    /\ E = fexp (Zdigits2 m + e)
    /\ N = round_nearest_even m' l'
    /\ inb m' E l' q
    /\ (0 <= m' < 2 ^ prec)%Z
    /\ ((emin < E)%Z -> (2 ^ (prec - 1) <= m')%Z).
Proof.
  intro H. destruct (bra_spec sx m e l q H) as (m' & l' & E & B & HE & Hq & Hm & Hn).
  exists (round_nearest_even m' l'), E, m', l'.
  pose proof (rne_bounds m' l').
  split; [exact B|]. split.
  - apply finish_spec; try assumption; try lia;
      first [rewrite HE; apply fexp_ge_emin
            | intro Hlt; specialize (Hn Hlt); lia].
  - repeat split; try assumption; lia.
Qed.

(** The rounding routine keeps the order of non-negative reals. *)
Lemma bra_le m1 e1 l1 q1 m2 e2 l2 q2 :
  pre m1 e1 l1 q1 -> pre m2 e2 l2 q2 -> q1 <= q2 ->
  SFleb (bra false m1 e1 l1) (bra false m2 e2 l2) = true.
Proof.
  intros P1 P2 Hq.
  destruct (bra_value false m1 e1 l1 q1 P1)
    as (N1 & E1 & m1' & l1' & B1 & V1 & HE1 & HN1 & I1 & R1 & G1).
  destruct (bra_value false m2 e2 l2 q2 P2)
    as (N2 & E2 & m2' & l2' & B2 & V2 & HE2 & HN2 & I2 & R2 & G2).
  rewrite B1, B2.
  pose proof (rne_bounds m1' l1') as Q1. pose proof (rne_bounds m2' l2') as Q2.
  rewrite <- HN1 in Q1. rewrite <- HN2 in Q2.
  pose proof (inb_bounds _ _ _ _ I1) as [L1 U1].
  pose proof (inb_bounds _ _ _ _ I2) as [L2 U2].
  pose proof (bpow_gt_0 E1) as BE1. pose proof (bpow_gt_0 E2) as BE2.
  assert (Hp : bpow prec = 2 * bpow (prec - 1)).
  { rewrite <- bpow_succ. f_equal. lia. }
  pose proof (bpow_gt_0 (prec - 1)) as Bp.
  assert (T1 : IZR m1' <= IZR N1 <= IZR m1' + 1).
  { split; [apply IZR_le; lia|]. change 1 with (IZR 1).
    rewrite <- plus_IZR. apply IZR_le. lia. }
  assert (T2 : IZR m2' <= IZR N2 <= IZR m2' + 1).
  { split; [apply IZR_le; lia|]. change 1 with (IZR 1).
    rewrite <- plus_IZR. apply IZR_le. lia. }
  assert (P1' : 0 <= IZR m1') by (apply IZR_le; lia).
  assert (P2' : 0 <= IZR m2') by (apply IZR_le; lia).
  assert (W1 : IZR m1' + 1 <= bpow prec).
  { rewrite bpow_IZR by lia. change 1 with (IZR 1). rewrite <- plus_IZR.
    apply IZR_le. lia. }
  assert (W2 : IZR m2' + 1 <= bpow prec).
  { rewrite bpow_IZR by lia. change 1 with (IZR 1). rewrite <- plus_IZR.
    apply IZR_le. lia. }
  apply (finish_value_le _ _ _ _ V1 V2); [nra|].
  destruct (Z.compare_spec E1 E2) as [EE|Hlt|Hgt].
  - subst E2. rewrite EE in *.
    assert (N1 <= N2)%Z.
    { rewrite HN1, HN2. eapply rne_le; eassumption. }
    apply IZR_le in H. nra.
  - assert (G : (emin < E2)%Z).
    { pose proof (fexp_ge_emin prec emax (Zdigits2 m1 + e1)). lia. }
    specialize (G2 G).
    assert (bpow (prec - 1) <= IZR m2').
    { rewrite bpow_IZR by lia. apply IZR_le. exact G2. }
    assert (bpow (E1 + 1) <= bpow E2) by (apply bpow_le; lia).
    rewrite bpow_succ in H0. nra.
  - exfalso.
    assert (G : (emin < E1)%Z).
    { pose proof (fexp_ge_emin prec emax (Zdigits2 m2 + e2)). lia. }
    specialize (G1 G).
    assert (bpow (prec - 1) <= IZR m1').
    { rewrite bpow_IZR by lia. apply IZR_le. exact G1. }
    assert (bpow (E2 + 1) <= bpow E1) by (apply bpow_le; lia).
    rewrite bpow_succ in H0. nra.
Qed.

End OrderOfRounding.

(** *** Shifts to the left *)

Lemma iter_xO m d : Z.pos (Pos.iter xO m d) = (Z.pos m * 2 ^ Z.pos d)%Z.
Proof.
  induction d as [|d IH] using Pos.peano_ind.
  - cbn. lia.
  - rewrite Pos.iter_succ, Pos2Z.inj_xO, IH, Pos2Z.inj_succ, Z.pow_succ_r by lia.
    lia.
Qed.

Lemma digits_shift (m : positive) k (m' : positive) :
  (0 <= k)%Z -> Z.pos m' = (Z.pos m * 2 ^ k)%Z ->
  Zdigits2 (Z.pos m') = (Zdigits2 (Z.pos m) + k)%Z.
Proof.
  intros Hk E. apply digits_unique. rewrite E, mult_IZR, <- bpow_IZR by exact Hk.
  pose proof (digits_bounds m) as [L U]. pose proof (bpow_gt_0 k).
  replace (Zdigits2 (Z.pos m) + k - 1)%Z with (Zdigits2 (Z.pos m) - 1 + k)%Z
    by lia.
  rewrite !bpow_plus. nra.
Qed.

Lemma shl_align_spec mx ex ex' :
  let '(m', e') := shl_align mx ex ex' in
  e' = Z.min ex ex'
  /\ IZR (Z.pos m') * bpow e' = IZR (Z.pos mx) * bpow ex
  /\ (Zdigits2 (Z.pos m') + e' = Zdigits2 (Z.pos mx) + ex)%Z.
Proof.
  unfold shl_align. destruct (ex' - ex)%Z as [|d|d] eqn:E.
  - repeat split; lia.
  - repeat split; lia.
  - assert (Hm := iter_xO mx d).
    split; [lia|]. split.
    + rewrite Hm, mult_IZR, <- bpow_IZR by lia.
      rewrite Rmult_assoc, <- bpow_plus. do 2 f_equal. lia.
    + rewrite (digits_shift mx (Z.pos d) _ ltac:(lia) Hm). lia.
Qed.

Section CorrectRounding.
Variables prec emax : Z.
Hypothesis prec_gt_0 : (0 < prec)%Z.
Hypothesis prec_lt_emax : (prec < emax)%Z.

Abbreviation fexp := (SpecFloat.fexp prec emax).
Abbreviation emin := (SpecFloat.emin prec emax).
Abbreviation pre := (Rounding.pre prec emax).
Abbreviation finish := (Rounding.finish prec emax).
Abbreviation canonical := (Rounding.canonical prec emax).
Abbreviation finish_value := (Rounding.finish_value prec emax).
Abbreviation bra := (binary_round_aux prec emax).
Abbreviation rounds_to := (Rounding.rounds_to prec emax).
Abbreviation xrounds := (Rounding.xrounds prec emax).
Abbreviation valid := (SpecFloat.valid_binary prec emax).

(** *** Correct rounding *)

Lemma bra_sign m e l : bra true m e l = SFopp (bra false m e l).
Proof.
  unfold binary_round_aux.
  destruct (shr_fexp prec emax m e l) as [mrs' e'].
  destruct (shr_fexp prec emax _ e' loc_Exact) as [mrs'' e''].
  destruct (shr_m mrs''); [reflexivity| |reflexivity].
  destruct (_ <=? _)%Z; reflexivity.
Qed.

(** The results of the routine, by kind. *)
Lemma bra_kind sx m e l q :
  pre m e l q ->
  bra sx m e l = S754_zero sx
  \/ bra sx m e l = S754_infinity sx
  \/ exists m' e', bra sx m e l = S754_finite sx m' e'.
Proof.
  intro H. destruct (bra_value prec emax prec_gt_0 prec_lt_emax sx m e l q H)
    as (N & E & m' & l' & B & V & _).
  rewrite B. destruct (Rounding.finish prec emax sx N E) as [s|s| |s m0 e0];
    cbn [Rounding.finish_value] in V.
  - destruct V as [-> _]. left; reflexivity.
  - destruct V as [-> _]. right; left; reflexivity.
  - contradiction.
  - destruct V as (-> & _). right; right; eauto.
Qed.

Theorem rounds_to_mono q1 z1 q2 z2 :
  rounds_to q1 z1 -> rounds_to q2 z2 -> q1 <= q2 -> SFleb z1 z2 = true.
Proof.
  intros [[E1 (s1 & ->)] | [[P1 (m1 & e1 & l1 & H1 & ->)]
                           | [N1 (m1 & e1 & l1 & H1 & ->)]]]
         [[E2 (s2 & ->)] | [[P2 (m2 & e2 & l2 & H2 & ->)]
                           | [N2 (m2 & e2 & l2 & H2 & ->)]]] Hq;
    try (exfalso; lra); try reflexivity.
  - destruct (bra_kind false m2 e2 l2 q2 H2) as [-> | [-> | (m' & e' & ->)]];
      reflexivity.
  - apply (bra_le prec emax prec_gt_0 prec_lt_emax _ _ _ q1 _ _ _ q2);
      assumption.
  - destruct (bra_kind true m1 e1 l1 _ H1) as [-> | [-> | (m' & e' & ->)]];
      reflexivity.
  - destruct (bra_kind true m1 e1 l1 _ H1) as [-> | [-> | (m' & e' & ->)]];
      destruct (bra_kind false m2 e2 l2 _ H2) as [-> | [-> | (m'' & e'' & ->)]];
      reflexivity.
  - rewrite !bra_sign, SFleb_opp.
    apply (bra_le prec emax prec_gt_0 prec_lt_emax _ _ _ (- q2) _ _ _ (- q1));
      try assumption. lra.
Qed.

Lemma fval_sign (s : bool) m e : if s then fval s m e < 0 else 0 < fval s m e.
Proof.
  unfold fval. pose proof (bpow_gt_0 e).
  assert (0 < IZR (Z.pos m)) by (apply IZR_lt; lia).
  destruct s; nra.
Qed.

Lemma bounded_canonical m e :
  SpecFloat.bounded prec emax m e = true -> canonical m e /\ (e <= emax - prec)%Z.
Proof.
  unfold SpecFloat.bounded, canonical_mantissa. intro H.
  apply andb_true_iff in H. destruct H as [H1 H2].
  apply Z.eqb_eq in H1. apply Z.leb_le in H2. split; assumption.
Qed.

(** A number of the format is its own rounding. *)
Lemma bra_canonical s m e :
  canonical m e -> (e <= emax - prec)%Z ->
  bra s (Z.pos m) e loc_Exact = S754_finite s m e.
Proof.
  intros C H. unfold binary_round_aux, shr_fexp.
  unfold Rounding.canonical in C. rewrite C, Z.sub_diag.
  cbn [shr shr_record_of_loc shr_m loc_of_shr_record round_nearest_even].
  rewrite C, Z.sub_diag. cbn [shr shr_m].
  apply Z.leb_le in H. rewrite H. reflexivity.
Qed.

Lemma pre_exact (m : positive) e :
  (e <= fexp (Zdigits2 (Z.pos m) + e))%Z ->
  pre (Z.pos m) e loc_Exact (IZR (Z.pos m) * bpow e).
Proof. intro H. split; [lia|]. split; [reflexivity|exact H]. Qed.

Lemma rounds_to_exact s (m : positive) e :
  (e <= fexp (Zdigits2 (Z.pos m) + e))%Z ->
  rounds_to (fval s m e) (bra s (Z.pos m) e loc_Exact).
Proof.
  intro H. pose proof (fval_sign s m e) as Hs. unfold fval in *.
  destruct s; [right; right | right; left]; (split; [exact Hs|]);
    exists (Z.pos m), e, loc_Exact; (split; [|reflexivity]).
  - replace (- (-1 * (IZR (Z.pos m) * bpow e))) with (IZR (Z.pos m) * bpow e)
      by ring.
    apply pre_exact. exact H.
  - replace (1 * (IZR (Z.pos m) * bpow e)) with (IZR (Z.pos m) * bpow e)
      by ring.
    apply pre_exact. exact H.
Qed.

Lemma rounds_to_valid s m e :
  SpecFloat.bounded prec emax m e = true ->
  rounds_to (fval s m e) (S754_finite s m e).
Proof.
  intro H. destruct (bounded_canonical m e H) as [C L].
  rewrite <- (bra_canonical s m e C L).
  apply rounds_to_exact. unfold Rounding.canonical in C. lia.
Qed.

(** *** Sums *)

Lemma binary_round_rounds s m e :
  rounds_to (fval s m e) (binary_round prec emax s m e).
Proof.
  unfold binary_round. change (Z.pos (digits2_pos m)) with (Zdigits2 (Z.pos m)).
  pose proof (shl_align_spec m e (fexp (Zdigits2 (Z.pos m) + e))) as H.
  destruct (shl_align m e _) as [mz ez]. destruct H as (He & Hv & Hd).
  replace (fval s m e) with (fval s mz ez) by (unfold fval; rewrite Hv; ring).
  apply rounds_to_exact. rewrite Hd. lia.
Qed.

Lemma binary_normalize_rounds M e szero :
  rounds_to (IZR M * bpow e) (binary_normalize prec emax M e szero).
Proof.
  destruct M as [|m|m]; cbn [binary_normalize].
  - left. split; [lra|]. eexists; reflexivity.
  - replace (IZR (Z.pos m) * bpow e) with (fval false m e)
      by (unfold fval; ring).
    apply binary_round_rounds.
  - replace (IZR (Z.neg m) * bpow e) with (fval true m e).
    + apply binary_round_rounds.
    + unfold fval. change (Z.neg m) with (- Z.pos m)%Z. rewrite opp_IZR. ring.
Qed.

Lemma aligned_value s m e ez :
  (ez <= e)%Z ->
  IZR (cond_Zopp s (Z.pos (fst (shl_align m e ez)))) * bpow ez = fval s m e.
Proof.
  intro H. pose proof (shl_align_spec m e ez) as A.
  destruct (shl_align m e ez) as [m' e']. destruct A as (He & Hv & _).
  cbn [fst]. replace e' with ez in Hv by lia. unfold fval, cond_Zopp.
  destruct s; [rewrite opp_IZR|]; rewrite <- Hv; ring.
Qed.

Lemma SFadd_rounds sx mx ex sy my ey :
  rounds_to (fval sx mx ex + fval sy my ey)
    (SFadd prec emax (S754_finite sx mx ex) (S754_finite sy my ey)).
Proof.
  cbn [SFadd]. set (ez := Z.min ex ey).
  rewrite <- (aligned_value sx mx ex ez), <- (aligned_value sy my ey ez)
    by (unfold ez; lia).
  rewrite <- Rmult_plus_distr_r, <- plus_IZR.
  apply binary_normalize_rounds.
Qed.

Lemma SFsub_rounds sx mx ex sy my ey :
  rounds_to (fval sx mx ex - fval sy my ey)
    (SFsub prec emax (S754_finite sx mx ex) (S754_finite sy my ey)).
Proof.
  cbn [SFsub]. set (ez := Z.min ex ey).
  rewrite <- (aligned_value sx mx ex ez), <- (aligned_value sy my ey ez)
    by (unfold ez; lia).
  rewrite <- Rmult_minus_distr_r, <- minus_IZR.
  apply binary_normalize_rounds.
Qed.

End CorrectRounding.

(** *** Quotients *)

(** The location of [q + r / m] between [q] and [q + 1]. *)
Lemma new_location_side m r :
  (0 < m)%Z -> (0 <= r < m)%Z ->
  match new_location m r with
  | loc_Exact => r = 0%Z
  | loc_Inexact c =>
      (0 < r)%Z
      /\ match c with
         | Lt => (2 * r < m)%Z
         | Eq => (2 * r = m)%Z
         | Gt => (m < 2 * r)%Z
         end
  end.
Proof.
  intros Hm Hr. unfold new_location, new_location_even, new_location_odd.
  destruct (Z.even m) eqn:Ev.
  - destruct (Z.eqb_spec r 0) as [->|Hne]; [reflexivity|].
    split; [lia|]. destruct (Z.compare_spec (2 * r) m); assumption.
  - destruct (Z.eqb_spec r 0) as [->|Hne]; [reflexivity|].
    split; [lia|].
    assert (Od : Z.odd m = true) by (rewrite <- Z.negb_even, Ev; reflexivity).
    apply Z.odd_spec in Od. destruct Od as (k & Hk).
    destruct (Z.compare_spec (2 * r + 1) m); lia.
Qed.

Section Quotients.
Variables prec emax : Z.
Hypothesis prec_gt_0 : (0 < prec)%Z.
Hypothesis prec_lt_emax : (prec < emax)%Z.

Abbreviation fexp := (SpecFloat.fexp prec emax).
Abbreviation emin := (SpecFloat.emin prec emax).
Abbreviation pre := (Rounding.pre prec emax).
Abbreviation finish := (Rounding.finish prec emax).
Abbreviation canonical := (Rounding.canonical prec emax).
Abbreviation finish_value := (Rounding.finish_value prec emax).
Abbreviation bra := (binary_round_aux prec emax).
Abbreviation rounds_to := (Rounding.rounds_to prec emax).
Abbreviation xrounds := (Rounding.xrounds prec emax).
Abbreviation valid := (SpecFloat.valid_binary prec emax).

Lemma div_core_pre (m1 m2 : positive) e1 e2 :
  let '(mz, ez, lz) := SFdiv_core_binary prec emax (Z.pos m1) e1 (Z.pos m2) e2 in
  pre mz ez lz (IZR (Z.pos m1) * bpow e1 / (IZR (Z.pos m2) * bpow e2)).
Proof.
  unfold SFdiv_core_binary.
  set (d1 := Zdigits2 (Z.pos m1)). set (d2 := Zdigits2 (Z.pos m2)).
  set (g := (d1 + e1 - (d2 + e2))%Z).
  set (e' := Z.min (fexp g) (e1 - e2)).
  set (s := (e1 - e2 - e')%Z).
  assert (Hs : (0 <= s)%Z) by (unfold s, e'; lia).
  set (m' := match s with
             | 0%Z => Z.pos m1
             | Z.pos _ => Z.shiftl (Z.pos m1) s
             | Z.neg _ => 0%Z
             end).
  assert (Hm' : m' = (Z.pos m1 * 2 ^ s)%Z).
  { unfold m'. destruct s as [|p|p] eqn:Es; [cbn; lia| |lia].
    apply Z.shiftl_mul_pow2. lia. }
  pose proof (Z_div_mod m' (Z.pos m2) ltac:(lia)) as DM.
  destruct (Z.div_eucl m' (Z.pos m2)) as [q r]. destruct DM as [Hqr Hr].
  assert (Hq0 : (0 <= q)%Z).
  { assert (0 <= m')%Z by (rewrite Hm'; apply Z.mul_nonneg_nonneg;
                           [lia | apply Z.pow_nonneg; lia]).
    nia. }
  pose proof (new_location_side (Z.pos m2) r ltac:(lia) Hr) as NL.
  set (Q := IZR (Z.pos m1) * bpow e1 / (IZR (Z.pos m2) * bpow e2)).
  pose proof (bpow_gt_0 e') as BE. pose proof (bpow_gt_0 e2) as B2.
  assert (M2 : 0 < IZR (Z.pos m2)) by (apply IZR_lt; lia).
  assert (M1 : 0 < IZR (Z.pos m1)) by (apply IZR_lt; lia).
  assert (HQ : Q * IZR (Z.pos m2)
               = (IZR (Z.pos m2) * IZR q + IZR r) * bpow e').
  { rewrite <- mult_IZR, <- plus_IZR, <- Hqr, Hm', mult_IZR.
    rewrite <- bpow_IZR by exact Hs.
    unfold Q. replace e1 with (s + e' + e2)%Z by (unfold s; lia).
    rewrite !bpow_plus. field. lra. }
  assert (Rr : 0 <= IZR r < IZR (Z.pos m2)).
  { split; [apply IZR_le | apply IZR_lt]; lia. }
  (* the magnitude of the quotient *)
  pose proof (digits_bounds m1) as [L1 U1]. fold d1 in L1, U1.
  pose proof (digits_bounds m2) as [L2 U2]. fold d2 in L2, U2.
  assert (Qlow : bpow (g - 1) < Q).
  { assert (E : bpow (g - 1) * (bpow d2 * bpow e2) = bpow (d1 - 1) * bpow e1).
    { rewrite <- !bpow_plus. f_equal. unfold g. lia. }
    unfold Q. apply Rmult_lt_reg_r with (IZR (Z.pos m2) * bpow e2);
      [apply Rmult_lt_0_compat; assumption|].
    replace (IZR (Z.pos m1) * bpow e1 / (IZR (Z.pos m2) * bpow e2)
             * (IZR (Z.pos m2) * bpow e2))
      with (IZR (Z.pos m1) * bpow e1) by (field; lra).
    pose proof (bpow_gt_0 e1). pose proof (bpow_gt_0 (g - 1)).
    assert (bpow (g - 1) * (IZR (Z.pos m2) * bpow e2)
            < bpow (g - 1) * (bpow d2 * bpow e2)) as H1.
    { apply Rmult_lt_compat_l; [assumption|].
      apply Rmult_lt_compat_r; assumption. }
    rewrite E in H1. apply Rlt_le_trans with (1 := H1).
    apply Rmult_le_compat_r; [lra | exact L1]. }
  assert (Qup : Q < (IZR q + 1) * bpow e').
  { apply Rmult_lt_reg_r with (IZR (Z.pos m2)); [exact M2|]. rewrite HQ. nra. }
  assert (Qlo : IZR q * bpow e' <= Q).
  { apply Rmult_le_reg_r with (IZR (Z.pos m2)); [exact M2|]. rewrite HQ. nra. }
  split; [exact Hq0|]. split.
  - (* the slice *)
    destruct (new_location (Z.pos m2) r) as [|c]; cbn [inb].
    + subst r. apply Rmult_eq_reg_r with (IZR (Z.pos m2)); [|lra].
      rewrite HQ. ring.
    + destruct NL as [Hr0 Hc].
      assert (0 < IZR r) by (apply IZR_lt; exact Hr0).
      split; [split|].
      * apply Rmult_lt_reg_r with (IZR (Z.pos m2)); [exact M2|]. rewrite HQ. nra.
      * exact Qup.
      * destruct c; cbn [side].
        -- apply (f_equal IZR) in Hc. rewrite mult_IZR in Hc.
           apply Rmult_eq_reg_r with (IZR (Z.pos m2)); [|lra]. rewrite HQ.
           nra.
        -- apply IZR_lt in Hc. rewrite mult_IZR in Hc.
           apply Rmult_lt_reg_r with (IZR (Z.pos m2)); [exact M2|]. rewrite HQ.
           nra.
        -- apply IZR_lt in Hc. rewrite mult_IZR in Hc.
           apply Rmult_lt_reg_r with (IZR (Z.pos m2)); [exact M2|]. rewrite HQ.
           nra.
  - (* no digit is left out *)
    destruct q as [|pq|pq]; [| |lia].
    + cbn [Zdigits2]. rewrite Z.add_0_l.
      assert (g - 1 < e')%Z.
      { apply bpow_lt_inv. apply Rlt_trans with (1 := Qlow).
        replace ((IZR 0 + 1) * bpow e') with (bpow e') in Qup by ring.
        exact Qup. }
      unfold e', SpecFloat.fexp in *. lia.
    + pose proof (digits_bounds_succ pq) as Us.
      set (dq := Zdigits2 (Z.pos pq)) in *.
      assert (g - 1 < dq + e')%Z.
      { apply bpow_lt_inv. apply Rlt_trans with (1 := Qlow).
        rewrite bpow_plus. nra. }
      apply Z.le_trans with (fexp g); [unfold e'; lia|].
      apply fexp_mono. lia.
Qed.

Lemma SFdiv_rounds sx mx ex sy my ey :
  rounds_to (Rounding.fval sx mx ex / Rounding.fval sy my ey)
    (SFdiv prec emax (S754_finite sx mx ex) (S754_finite sy my ey)).
Proof.
  cbn [SFdiv]. pose proof (div_core_pre mx my ex ey) as H.
  destruct (SFdiv_core_binary prec emax (Z.pos mx) ex (Z.pos my) ey)
    as [[mz ez] lz].
  set (Q := IZR (Z.pos mx) * bpow ex / (IZR (Z.pos my) * bpow ey)) in *.
  assert (HQ : 0 < Q).
  { unfold Q. pose proof (bpow_gt_0 ex). pose proof (bpow_gt_0 ey).
    assert (0 < IZR (Z.pos mx)) by (apply IZR_lt; lia).
    assert (0 < IZR (Z.pos my)) by (apply IZR_lt; lia).
    apply Rdiv_lt_0_compat; nra. }
  assert (NZ : bpow ey <> 0 /\ IZR (Z.pos my) <> 0).
  { pose proof (bpow_gt_0 ey).
    assert (0 < IZR (Z.pos my)) by (apply IZR_lt; lia). split; lra. }
  unfold Rounding.fval.
  destruct sx, sy; cbn [xorb].
  - right; left.
    replace (-1 * (IZR (Z.pos mx) * bpow ex) / (-1 * (IZR (Z.pos my) * bpow ey)))
      with Q by (unfold Q; field; exact NZ).
    split; [exact HQ|]. exists mz, ez, lz. split; [exact H | reflexivity].
  - right; right.
    replace (-1 * (IZR (Z.pos mx) * bpow ex) / (1 * (IZR (Z.pos my) * bpow ey)))
      with (- Q) by (unfold Q; field; exact NZ).
    split; [lra|]. exists mz, ez, lz. rewrite Ropp_involutive.
    split; [exact H | reflexivity].
  - right; right.
    replace (1 * (IZR (Z.pos mx) * bpow ex) / (-1 * (IZR (Z.pos my) * bpow ey)))
      with (- Q) by (unfold Q; field; exact NZ).
    split; [lra|]. exists mz, ez, lz. rewrite Ropp_involutive.
    split; [exact H | reflexivity].
  - right; left.
    replace (1 * (IZR (Z.pos mx) * bpow ex) / (1 * (IZR (Z.pos my) * bpow ey)))
      with Q by (unfold Q; field; exact NZ).
    split; [exact HQ|]. exists mz, ez, lz. split; [exact H | reflexivity].
Qed.

End Quotients.

(** *** Values with infinities *)

Lemma xle_trans a b c : xle a b -> xle b c -> xle a c.
Proof.
  destruct a as [|[|]|x], b as [|[|]|y], c as [|[|]|z]; cbn; try tauto; lra.
Qed.

Lemma xle_total a b : a <> Xnan -> b <> Xnan -> xle a b \/ xle b a.
Proof.
  destruct a as [|[|]|x], b as [|[|]|y]; cbn; try tauto.
  intros _ _. lra.
Qed.

Lemma xle_antisym a b : xle a b -> xle b a -> a = b.
Proof.
  destruct a as [|[|]|x], b as [|[|]|y]; cbn; try tauto.
  intros. f_equal. lra.
Qed.

Section OrderOfOperations.
Variables prec emax : Z.
Hypothesis prec_gt_0 : (0 < prec)%Z.
Hypothesis prec_lt_emax : (prec < emax)%Z.

Abbreviation fexp := (SpecFloat.fexp prec emax).
Abbreviation emin := (SpecFloat.emin prec emax).
Abbreviation pre := (Rounding.pre prec emax).
Abbreviation finish := (Rounding.finish prec emax).
Abbreviation canonical := (Rounding.canonical prec emax).
Abbreviation finish_value := (Rounding.finish_value prec emax).
Abbreviation bra := (binary_round_aux prec emax).
Abbreviation rounds_to := (Rounding.rounds_to prec emax).
Abbreviation xrounds := (Rounding.xrounds prec emax).
Abbreviation valid := (SpecFloat.valid_binary prec emax).

Lemma rounds_to_kind q z :
  rounds_to q z ->
  (exists s, z = S754_zero s) \/ (exists s, z = S754_infinity s)
  \/ (exists s m e, z = S754_finite s m e).
Proof.
  intros [[_ (s & ->)] | [[_ (m & e & l & H & ->)] | [_ (m & e & l & H & ->)]]].
  - left; eauto.
  - destruct (bra_kind prec emax prec_gt_0 prec_lt_emax false m e l q H)
      as [-> | [-> | (m' & e' & ->)]]; eauto 6.
  - destruct (bra_kind prec emax prec_gt_0 prec_lt_emax true m e l _ H)
      as [-> | [-> | (m' & e' & ->)]]; eauto 6.
Qed.

Theorem xrounds_mono a z1 b z2 :
  xrounds a z1 -> xrounds b z2 -> xle a b -> SFleb z1 z2 = true.
Proof.
  destruct a as [|s1|q1], b as [|s2|q2]; cbn [xrounds]; try contradiction.
  - intros -> -> H. destruct s1, s2; cbn in H; try contradiction; reflexivity.
  - intros -> R2 H. destruct s1; cbn in H; try contradiction.
    destruct (rounds_to_kind _ _ R2) as [(s & ->) | [(s & ->) | (s & m & e & ->)]];
      try reflexivity. destruct s; reflexivity.
  - intros R1 -> H. destruct s2; cbn in H; try contradiction.
    destruct (rounds_to_kind _ _ R1) as [(s & ->) | [(s & ->) | (s & m & e & ->)]];
      try reflexivity. destruct s; reflexivity.
  - intros R1 R2 H. cbn in H.
    exact (rounds_to_mono prec emax prec_gt_0 prec_lt_emax _ _ _ _ R1 R2 H).
Qed.

Lemma sval_rounds z : valid z = true -> z <> S754_nan -> xrounds (sval z) z.
Proof.
  destruct z as [s|s| |s m e]; cbn [sval xrounds valid_binary]; intros V N.
  - left. split; [reflexivity|]. eexists; reflexivity.
  - reflexivity.
  - congruence.
  - apply rounds_to_valid; assumption.
Qed.

(** The order of the numbers of the format is that of their values. *)
Lemma SFleb_of_xle x y :
  valid x = true -> valid y = true -> xle (sval x) (sval y) ->
  SFleb x y = true.
Proof.
  intros Vx Vy H.
  assert (x <> S754_nan) by (intros ->; cbn in H; contradiction).
  assert (y <> S754_nan)
    by (intros ->; destruct x as [|[|]| |]; cbn in H; contradiction).
  apply (xrounds_mono (sval x) x (sval y) y); try assumption;
    apply sval_rounds; assumption.
Qed.

Lemma SFcompare_Eq_sval x y : SFcompare x y = Some Eq -> sval x = sval y.
Proof.
  destruct x as [sx|sx| |sx mx ex], y as [sy|sy| |sy my ey];
    try destruct sx; try destruct sy; cbn [SFcompare sval];
    try discriminate; try reflexivity.
  - destruct (Z.compare_spec ex ey) as [->|?|?]; try discriminate.
    cbn [CompOpp]. change (Pos.compare_cont Eq mx my) with (Pos.compare mx my).
    destruct (Pos.compare_spec mx my) as [->|?|?]; try discriminate.
    reflexivity.
  - destruct (Z.compare_spec ex ey) as [->|?|?]; try discriminate.
    change (Pos.compare_cont Eq mx my) with (Pos.compare mx my).
    destruct (Pos.compare_spec mx my) as [->|?|?]; try discriminate.
    reflexivity.
Qed.

Lemma SFleb_not_nan x y :
  SFleb x y = true -> x <> S754_nan /\ y <> S754_nan.
Proof.
  unfold SFleb. destruct x as [| | |], y as [| | |]; cbn [SFcompare];
    try discriminate; intros _; split; discriminate.
Qed.

Lemma sval_not_nan x : x <> S754_nan -> sval x <> Xnan.
Proof. destruct x; cbn; congruence. Qed.

Lemma xle_of_SFleb x y :
  valid x = true -> valid y = true -> SFleb x y = true ->
  xle (sval x) (sval y).
Proof.
  intros Vx Vy H. destruct (SFleb_not_nan x y H) as [Nx Ny].
  destruct (xle_total (sval x) (sval y)) as [L|L];
    [apply sval_not_nan; exact Nx | apply sval_not_nan; exact Ny | exact L |].
  pose proof (SFleb_of_xle y x Vy Vx L) as H'.
  unfold SFleb in H, H'. rewrite (SFcompare_antisym x y) in H'.
  destruct (SFcompare x y) as [[| |]|] eqn:C; cbn in H, H'; try discriminate.
  apply SFcompare_Eq_sval in C. rewrite C.
  clear - Ny. destruct (sval y) as [|[|]|r] eqn:E; cbn; try lra; try exact I.
  apply sval_not_nan in Ny. congruence.
Qed.

Lemma SFleb_iff x y :
  valid x = true -> valid y = true ->
  (SFleb x y = true <-> xle (sval x) (sval y)).
Proof.
  intros Vx Vy. split; [apply xle_of_SFleb | apply SFleb_of_xle]; assumption.
Qed.

Lemma SFltb_iff x y :
  valid x = true -> valid y = true ->
  (SFltb x y = true
   <-> xle (sval x) (sval y) /\ ~ xle (sval y) (sval x)).
Proof.
  intros Vx Vy.
  rewrite <- (SFleb_iff x y Vx Vy), <- (SFleb_iff y x Vy Vx).
  unfold SFltb, SFleb. rewrite (SFcompare_antisym x y).
  destruct (SFcompare x y) as [[| |]|]; cbn;
    intuition (try discriminate; try congruence).
Qed.

(** *** The operations keep the order *)

Lemma xmap_le f a b :
  (forall x y, x <= y -> f x <= f y) -> xle a b -> xle (xmap f a) (xmap f b).
Proof.
  intro Hf. destruct a as [|[|]|x], b as [|[|]|y]; cbn; try tauto. apply Hf.
Qed.

Lemma xorb_false_r' (s : bool) : xorb s false = s.
Proof. destruct s; reflexivity. Qed.

Theorem SFdiv_mono x y k :
  valid x = true -> valid y = true -> valid k = true ->
  SFleb x y = true ->
  SFltb (S754_zero false) k = true ->
  SFdiv prec emax x k <> S754_nan -> SFdiv prec emax y k <> S754_nan ->
  SFleb (SFdiv prec emax x k) (SFdiv prec emax y k) = true.
Proof.
  intros Vx Vy Vk Hxy Hk Nx Ny.
  pose proof (xle_of_SFleb x y Vx Vy Hxy) as L.
  destruct k as [sk|sk| |sk mk ek]; try destruct sk; try discriminate.
  - (* an infinite divisor *)
    destruct x as [sx|sx| |sx mx ex], y as [sy|sy| |sy my ey];
      cbn [SFdiv] in *; try congruence; reflexivity.
  - pose proof (fval_sign false mk ek) as Kpos. cbn beta iota in Kpos.
    set (c := fval false mk ek) in *.
    apply (xrounds_mono (xmap (fun v => v / c) (sval x)) _
                        (xmap (fun v => v / c) (sval y)) _).
    + destruct x as [sx|sx| |sx mx ex]; cbn [SFdiv sval xmap xrounds].
      * left. split; [unfold Rdiv; ring|]. eexists; reflexivity.
      * rewrite xorb_false_r'. reflexivity.
      * cbn in L. contradiction.
      * apply SFdiv_rounds; assumption.
    + destruct y as [sy|sy| |sy my ey]; cbn [SFdiv sval xmap xrounds].
      * left. split; [unfold Rdiv; ring|]. eexists; reflexivity.
      * rewrite xorb_false_r'. reflexivity.
      * destruct (sval x) as [|[|]|]; cbn in L; contradiction.
      * apply SFdiv_rounds; assumption.
    + apply xmap_le; [|exact L]. intros u v Huv.
      unfold Rdiv. apply Rmult_le_compat_r; [|exact Huv].
      left. apply Rinv_0_lt_compat. exact Kpos.
Qed.

Lemma SFadd_xrounds x c :
  valid x = true -> valid c = true -> x <> S754_nan ->
  (exists s, c = S754_zero s) \/ (exists s m e, c = S754_finite s m e) ->
  xrounds (xmap (fun v => v + summand c) (sval x)) (SFadd prec emax x c).
Proof.
  intros Vx Vc Nx [(sc & ->) | (sc & mc & ec & ->)];
    destruct x as [sx|sx| |sx mx ex]; try congruence;
    cbn [SFadd sval xmap xrounds summand].
  - left. split; [ring|]. destruct sx, sc; eexists; reflexivity.
  - reflexivity.
  - rewrite Rplus_0_r. apply rounds_to_valid; assumption.
  - rewrite Rplus_0_l. apply rounds_to_valid; assumption.
  - reflexivity.
  - apply SFadd_rounds; assumption.
Qed.

Theorem SFadd_mono x y c :
  valid x = true -> valid y = true -> valid c = true ->
  SFleb x y = true ->
  SFadd prec emax x c <> S754_nan -> SFadd prec emax y c <> S754_nan ->
  SFleb (SFadd prec emax x c) (SFadd prec emax y c) = true.
Proof.
  intros Vx Vy Vc Hxy Nx Ny.
  pose proof (xle_of_SFleb x y Vx Vy Hxy) as L.
  destruct (SFleb_not_nan x y Hxy) as [Nx' Ny'].
  destruct c as [sc|sc| |sc mc ec].
  - apply (xrounds_mono _ _ _ _
             (SFadd_xrounds x _ Vx Vc Nx' ltac:(left; eauto))
             (SFadd_xrounds y _ Vy Vc Ny' ltac:(left; eauto))).
    apply xmap_le; [intros; lra | exact L].
  - destruct x as [sx|sx| |sx mx ex], y as [sy|sy| |sy my ey];
      try destruct sx; try destruct sy; destruct sc;
      cbn [SFadd] in *; try congruence; reflexivity.
  - destruct x; cbn in Nx; congruence.
  - apply (xrounds_mono _ _ _ _
             (SFadd_xrounds x _ Vx Vc Nx' ltac:(right; eauto))
             (SFadd_xrounds y _ Vy Vc Ny' ltac:(right; eauto))).
    apply xmap_le; [intros; lra | exact L].
Qed.

Lemma SFsub_xrounds x c :
  valid x = true -> valid c = true -> x <> S754_nan ->
  (exists s, c = S754_zero s) \/ (exists s m e, c = S754_finite s m e) ->
  xrounds (xmap (fun v => v - summand c) (sval x)) (SFsub prec emax x c).
Proof.
  intros Vx Vc Nx [(sc & ->) | (sc & mc & ec & ->)];
    destruct x as [sx|sx| |sx mx ex]; try congruence;
    cbn [SFsub sval xmap xrounds summand].
  - left. split; [ring|]. destruct sx, sc; eexists; reflexivity.
  - reflexivity.
  - rewrite Rminus_0_r. apply rounds_to_valid; assumption.
  - replace (0 - fval sc mc ec) with (fval (negb sc) mc ec)
      by (unfold fval; destruct sc; cbn [negb]; ring).
    apply rounds_to_valid; assumption.
  - reflexivity.
  - apply SFsub_rounds; assumption.
Qed.

Theorem SFsub_mono x y c :
  valid x = true -> valid y = true -> valid c = true ->
  SFleb x y = true ->
  SFsub prec emax x c <> S754_nan -> SFsub prec emax y c <> S754_nan ->
  SFleb (SFsub prec emax x c) (SFsub prec emax y c) = true.
Proof.
  intros Vx Vy Vc Hxy Nx Ny.
  pose proof (xle_of_SFleb x y Vx Vy Hxy) as L.
  destruct (SFleb_not_nan x y Hxy) as [Nx' Ny'].
  destruct c as [sc|sc| |sc mc ec].
  - apply (xrounds_mono _ _ _ _
             (SFsub_xrounds x _ Vx Vc Nx' ltac:(left; eauto))
             (SFsub_xrounds y _ Vy Vc Ny' ltac:(left; eauto))).
    apply xmap_le; [intros; lra | exact L].
  - destruct x as [sx|sx| |sx mx ex], y as [sy|sy| |sy my ey];
      try destruct sx; try destruct sy; destruct sc;
      cbn [SFsub] in *; try congruence; reflexivity.
  - destruct x; cbn in Nx; congruence.
  - apply (xrounds_mono _ _ _ _
             (SFsub_xrounds x _ Vx Vc Nx' ltac:(right; eauto))
             (SFsub_xrounds y _ Vy Vc Ny' ltac:(right; eauto))).
    apply xmap_le; [intros; lra | exact L].
Qed.

End OrderOfOperations.

(** *** Binary64 *)

Lemma binary64_prec_gt_0 : (0 < prec)%Z.
Proof. reflexivity. Qed.

Lemma binary64_prec_lt_emax : (prec < emax)%Z.
Proof. reflexivity. Qed.

Lemma not_nan_bits x : is_nan x = false -> Prim2SF x <> S754_nan.
Proof.
  intro H. unfold Prim2SF. rewrite H.
  destruct (is_zero x); [discriminate|].
  destruct (is_infinity x); [discriminate|].
  destruct (Z.frexp x) as [r e].
  destruct (shr_fexp _ _ _ _ _) as [mrs e'].
  destruct (shr_m mrs); discriminate.
Qed.

Lemma is_nan_bits x : is_nan x = true <-> Prim2SF x = S754_nan.
Proof.
  split; [apply nan_bits|]. intro H.
  destruct (is_nan x) eqn:E; [reflexivity|].
  apply not_nan_bits in E. contradiction.
Qed.

Lemma is_nan_fv x : is_nan x = false <-> fv x <> Xnan.
Proof.
  unfold fv. split.
  - intro H. apply not_nan_bits in H. destruct (Prim2SF x); cbn; congruence.
  - intro H. destruct (is_nan x) eqn:E; [|reflexivity].
    apply nan_bits in E. rewrite E in H. cbn in H. congruence.
Qed.

Lemma leb_iff x y : (x <=? y)%float = true <-> xle (fv x) (fv y).
Proof.
  rewrite leb_spec.
  apply (SFleb_iff prec emax binary64_prec_gt_0 binary64_prec_lt_emax); apply Prim2SF_valid.
Qed.

Lemma ltb_iff x y :
  (x <? y)%float = true <-> xle (fv x) (fv y) /\ ~ xle (fv y) (fv x).
Proof.
  rewrite ltb_spec.
  apply (SFltb_iff prec emax binary64_prec_gt_0 binary64_prec_lt_emax); apply Prim2SF_valid.
Qed.

Lemma xle_dec a b : xle a b \/ ~ xle a b.
Proof.
  destruct a as [|[|]|x], b as [|[|]|y]; cbn; try tauto.
  all: destruct (Rle_dec x y); tauto.
Qed.

Lemma ltb_false_iff x y :
  is_nan x = false -> is_nan y = false ->
  ((x <? y)%float = false <-> xle (fv y) (fv x)).
Proof.
  intros Nx Ny. apply is_nan_fv in Nx, Ny.
  split.
  - intro H. destruct (xle_dec (fv y) (fv x)) as [C|C]; [exact C|].
    destruct (xle_total (fv x) (fv y) Nx Ny) as [L'|L']; [|exact L'].
    assert ((x <? y)%float = true) by (apply ltb_iff; tauto). congruence.
  - intro H. destruct (x <? y)%float eqn:E; [|reflexivity].
    apply ltb_iff in E. tauto.
Qed.

Lemma leb_not_nan x y :
  (x <=? y)%float = true -> is_nan x = false /\ is_nan y = false.
Proof.
  intro H. apply leb_iff in H. split; apply is_nan_fv; intro E;
    rewrite E in H; [|destruct (fv x) as [|[|]|]]; cbn in H; contradiction.
Qed.

(** The three operations keep the order. *)
Theorem div_mono x y k :
  (x <=? y)%float = true -> (0 <? k)%float = true ->
  is_nan (x / k) = false -> is_nan (y / k) = false ->
  (x / k <=? y / k)%float = true.
Proof.
  intros Hxy Hk Nx Ny. rewrite leb_spec in *. rewrite ltb_spec in Hk.
  change (Prim2SF 0) with (S754_zero false) in Hk.
  apply not_nan_bits in Nx, Ny. rewrite !div_spec in *.
  apply (SFdiv_mono prec emax binary64_prec_gt_0 binary64_prec_lt_emax);
    try apply Prim2SF_valid; assumption.
Qed.

Theorem add_mono x y c :
  (x <=? y)%float = true ->
  is_nan (x + c) = false -> is_nan (y + c) = false ->
  (x + c <=? y + c)%float = true.
Proof.
  intros Hxy Nx Ny. rewrite leb_spec in *.
  apply not_nan_bits in Nx, Ny. rewrite !add_spec in *.
  apply (SFadd_mono prec emax binary64_prec_gt_0 binary64_prec_lt_emax);
    try apply Prim2SF_valid; assumption.
Qed.

Theorem sub_mono x y c :
  (x <=? y)%float = true ->
  is_nan (x - c) = false -> is_nan (y - c) = false ->
  (x - c <=? y - c)%float = true.
Proof.
  intros Hxy Nx Ny. rewrite leb_spec in *.
  apply not_nan_bits in Nx, Ny. rewrite !sub_spec in *.
  apply (SFsub_mono prec emax binary64_prec_gt_0 binary64_prec_lt_emax);
    try apply Prim2SF_valid; assumption.
Qed.

(** A NaN operand gives NaN. *)
Lemma div_nan_l x k : is_nan (x / k) = false -> is_nan x = false.
Proof.
  intro H. destruct (is_nan x) eqn:E; [|reflexivity].
  apply not_nan_bits in H. rewrite div_spec, (nan_bits x E) in H.
  exfalso. apply H. reflexivity.
Qed.

Lemma div_nan_r x k : is_nan (x / k) = false -> is_nan k = false.
Proof.
  intro H. destruct (is_nan k) eqn:E; [|reflexivity].
  apply not_nan_bits in H. rewrite div_spec, (nan_bits k E) in H.
  exfalso. apply H. destruct (Prim2SF x); reflexivity.
Qed.

Lemma add_nan_l x c : is_nan (x + c) = false -> is_nan x = false.
Proof.
  intro H. destruct (is_nan x) eqn:E; [|reflexivity].
  apply not_nan_bits in H. rewrite add_spec, (nan_bits x E) in H.
  exfalso. apply H. reflexivity.
Qed.

Lemma sub_nan_l x c : is_nan (x - c) = false -> is_nan x = false.
Proof.
  intro H. destruct (is_nan x) eqn:E; [|reflexivity].
  apply not_nan_bits in H. rewrite sub_spec, (nan_bits x E) in H.
  exfalso. apply H. reflexivity.
Qed.

Lemma sub_nan_r x c : is_nan (x - c) = false -> is_nan c = false.
Proof.
  intro H. destruct (is_nan c) eqn:E; [|reflexivity].
  apply not_nan_bits in H. rewrite sub_spec, (nan_bits c E) in H.
  exfalso. apply H. destruct (Prim2SF x); reflexivity.
Qed.

(** *** Signs *)

Lemma bra_nonneg prec emax m e l :
  nonneg (binary_round_aux prec emax false m e l).
Proof.
  unfold binary_round_aux.
  destruct (shr_fexp prec emax m e l) as [mrs' e'].
  destruct (shr_fexp prec emax _ e' loc_Exact) as [mrs'' e''].
  destruct (shr_m mrs''); cbn; try exact I.
  destruct (_ <=? _)%Z; reflexivity.
Qed.

Lemma SFsqrt_nonneg prec emax x : nonneg (SFsqrt prec emax x).
Proof.
  destruct x as [s|[|]| |[|] m e]; cbn [SFsqrt nonneg]; try exact I;
    try reflexivity.
  destruct (SFsqrt_core_binary prec emax (Z.pos m) e) as [[mz ez] lz].
  apply bra_nonneg.
Qed.

Lemma SFmul_nonneg prec emax a b :
  SFltb (S754_zero false) a = true -> nonneg b ->
  nonneg (SFmul prec emax a b).
Proof.
  intros Ha Hb.
  destruct a as [sa|sa| |sa ma ea]; try destruct sa; try discriminate;
    destruct b as [sb|sb| |sb mb eb]; cbn [nonneg] in Hb; subst;
    cbn [SFmul nonneg xorb]; try exact I; try reflexivity.
  apply bra_nonneg.
Qed.

Lemma nonneg_leb z :
  nonneg z -> z <> S754_nan -> SFleb (S754_zero false) z = true.
Proof.
  destruct z as [s|s| |s m e]; cbn [nonneg]; intros H N; subst;
    try reflexivity. congruence.
Qed.

Lemma mul_sqrt_nonneg a t :
  (0 <? a)%float = true -> is_nan (a * PrimFloat.sqrt t) = false ->
  (0 <=? a * PrimFloat.sqrt t)%float = true.
Proof.
  intros Ha N. rewrite leb_spec. rewrite ltb_spec in Ha.
  change (Prim2SF 0) with (S754_zero false) in *.
  apply not_nan_bits in N. rewrite mul_spec, sqrt_spec in *.
  apply nonneg_leb; [|exact N].
  apply SFmul_nonneg; [exact Ha | apply SFsqrt_nonneg].
Qed.

(** *** Order *)

Lemma eqb_iff x y :
  (x =? y)%float = true <-> xle (fv x) (fv y) /\ xle (fv y) (fv x).
Proof.
  assert (E : (x =? y)%float = true
              <-> (x <=? y)%float = true /\ (y <=? x)%float = true).
  { rewrite FloatAxioms.eqb_spec, !leb_spec. unfold SFeqb, SFleb.
    rewrite (SFcompare_antisym (Prim2SF x) (Prim2SF y)).
    destruct (SFcompare (Prim2SF x) (Prim2SF y)) as [[| |]|]; cbn;
      intuition (try discriminate; try congruence). }
  destruct (leb_iff x y), (leb_iff y x). tauto.
Qed.

Lemma fv_0 : fv 0 = Xreal 0.
Proof. reflexivity. Qed.

Lemma leb_trans x y z :
  (x <=? y)%float = true -> (y <=? z)%float = true -> (x <=? z)%float = true.
Proof. rewrite !leb_iff. apply xle_trans. Qed.

Lemma leb_refl x : is_nan x = false -> (x <=? x)%float = true.
Proof.
  intro H. apply leb_iff. apply is_nan_fv in H.
  destruct (fv x) as [|[|]|r]; cbn; try exact I; [congruence | lra].
Qed.

Lemma ltb_leb x y : (x <? y)%float = true -> (x <=? y)%float = true.
Proof. rewrite ltb_iff, leb_iff. tauto. Qed.

Lemma ltb_leb_trans x y z :
  (x <? y)%float = true -> (y <=? z)%float = true -> (x <? z)%float = true.
Proof.
  rewrite !ltb_iff, leb_iff. intros [L N] H. split.
  - exact (xle_trans _ _ _ L H).
  - intro C. apply N. exact (xle_trans _ _ _ H C).
Qed.

Lemma leb_ltb_trans x y z :
  (x <=? y)%float = true -> (y <? z)%float = true -> (x <? z)%float = true.
Proof.
  rewrite !ltb_iff, leb_iff. intros H [L N]. split.
  - exact (xle_trans _ _ _ H L).
  - intro C. apply N. exact (xle_trans _ _ _ C H).
Qed.

Lemma not_ltb_leb x y :
  is_nan x = false -> is_nan y = false ->
  (x <? y)%float = false -> (y <=? x)%float = true.
Proof.
  intros Nx Ny H. apply leb_iff. apply ltb_false_iff; assumption.
Qed.

Lemma not_leb_ltb x y :
  is_nan x = false -> is_nan y = false ->
  (x <=? y)%float = false -> (y <? x)%float = true.
Proof.
  intros Nx Ny H. apply ltb_iff.
  assert (N : ~ xle (fv x) (fv y)).
  { intro C. apply leb_iff in C. congruence. }
  split; [|exact N].
  apply is_nan_fv in Nx, Ny.
  destruct (xle_total (fv x) (fv y) Nx Ny); tauto.
Qed.

Lemma pos_of_nonneg x :
  (0 <=? x)%float = true -> (x =? 0)%float = false -> (0 <? x)%float = true.
Proof.
  intros H E. apply ltb_iff. apply leb_iff in H. split; [exact H|].
  intro C. assert ((x =? 0)%float = true) by (apply eqb_iff; tauto).
  congruence.
Qed.

End RoundingToNearest.

(** ** Probability of profit on binary64 *)

Section ProbabilityOfProfitInDoubles.
Import Calculations Calculations.InDoubles Examples.
Local Open Scope float_scope.

(** The current price enters [calculate_pop] through the quotient
    [current_price / strike_price] alone. *)
Lemma pop_through_quotient np_log norm_cdf option_type K premium S1 S2 sigma dte :
  (S1 <=? 0) = (S2 <=? 0) ->
  S1 / K = S2 / K ->
  pop_of np_log norm_cdf option_type K premium S1 sigma dte
  = pop_of np_log norm_cdf option_type K premium S2 sigma dte.
Proof.
  intros Hg Hq. unfold pop_of, calculate_pop.
  cbn [forallb is_number negb andb as_double]. rewrite Hg, Hq. reflexivity.
Qed.

(** C10, as stated, fails: 110 and 110.00000000000001 are two prices,
    the first below the second, whose quotients by the strike 100 are the
    same double 1.1, so that [calculate_pop] returns the same value for
    both, whatever [np.log] and [norm.cdf] return; with the two stand-ins
    the common value is 0.9467..., defined and not clipped. *)
Lemma adjacent_prices_share_pop :
  (0 <? 110) = true
  /\ (110 <? 110.00000000000001) = true
  /\ 110 / 100 = 1.1
  /\ 110.00000000000001 / 100 = 1.1
  /\ (forall np_log norm_cdf,
        pop_of np_log norm_cdf Call 100 5 110 0.2 30
        = pop_of np_log norm_cdf Call 100 5 110.00000000000001 0.2 30)
  /\ pop_of tangent_log centred_line Call 100 5 110 0.2 30
     = 0.94676028120060962
  /\ pop_of tangent_log centred_line Call 100 5 110.00000000000001 0.2 30
     = 0.94676028120060962.
Proof.
  repeat split; try (vm_compute; reflexivity).
Qed.

Lemma keeps_nan_arg f x :
  keeps_nan f -> is_nan (f x) = false -> is_nan x = false.
Proof.
  intros K H. destruct (is_nan x) eqn:E; [|reflexivity].
  rewrite (nan_unique x E) in H. unfold keeps_nan in K. congruence.
Qed.

(** [np.clip(_, 0, 1)] keeps the order. *)
Lemma np_clip_mono p1 p2 :
  (p1 <=? p2) = true -> (np_clip p1 0 1 <=? np_clip p2 0 1) = true.
Proof.
  intro H. destruct (leb_not_nan p1 p2 H) as [N1 N2].
  unfold np_clip. rewrite N1, N2.
  set (y1 := if 0 <? p1 then p1 else 0). set (y2 := if 0 <? p2 then p2 else 0).
  assert (Ny1 : is_nan y1 = false)
    by (unfold y1; destruct (0 <? p1); [exact N1 | reflexivity]).
  assert (Ny2 : is_nan y2 = false)
    by (unfold y2; destruct (0 <? p2); [exact N2 | reflexivity]).
  assert (Hy : (y1 <=? y2) = true).
  { unfold y1, y2. destruct (0 <? p1) eqn:A1, (0 <? p2) eqn:A2.
    - exact H.
    - rewrite (ltb_leb_trans 0 p1 p2 A1 H) in A2. discriminate.
    - apply ltb_leb. exact A2.
    - reflexivity. }
  rewrite Ny1, Ny2. clearbody y1 y2.
  destruct (y1 <? 1) eqn:B1, (y2 <? 1) eqn:B2.
  - exact Hy.
  - apply ltb_leb. exact B1.
  - rewrite (leb_ltb_trans y1 y2 1 Hy B2) in B1. discriminate.
  - reflexivity.
Qed.

(** C10, amended: with the option type fixed as call and strike,
    premium, implied volatility and DTE fixed, the probability of profit
    returned by [calculate_pop] never decreases as the current price
    rises: for two prices [S1 <= S2] the results satisfy
    [POP(S1) <= POP(S2)] whenever both are defined, provided [np.log] and
    [norm.cdf] keep the order of doubles and return NaN on NaN.  Every
    rounded operation on the way keeps the order; none keeps it
    strict. *)
Theorem pop_call_non_decreasing np_log norm_cdf K premium sigma dte S1 S2 :
  non_decreasing np_log -> keeps_nan np_log ->
  non_decreasing norm_cdf -> keeps_nan norm_cdf ->
  (S1 <=? S2) = true ->
  let p1 := pop_of np_log norm_cdf Call K premium S1 sigma dte in
  let p2 := pop_of np_log norm_cdf Call K premium S2 sigma dte in
  is_nan p1 = false -> is_nan p2 = false ->
  (p1 <=? p2) = true.
Proof.
  intros Mlog Klog Mcdf Kcdf HS p1 p2. unfold p1, p2, pop_of, calculate_pop.
  cbn [forallb is_number negb andb as_double].
  destruct (dte <=? 0) eqn:Gd; [discriminate|].
  destruct (sigma <=? 0) eqn:Gs; [discriminate|].
  cbn [orb].
  destruct (S1 <=? 0) eqn:G1; [discriminate|].
  destruct (S2 <=? 0) eqn:G2; [discriminate|].
  cbn [orb].
  destruct (K <=? 0) eqn:GK; [discriminate|].
  set (t := dte / 365). set (sst := sigma * PrimFloat.sqrt t).
  destruct (sst =? 0) eqn:Gz; [discriminate|].
  set (c := (0.05 - 0 + 0.5 * (sigma * sigma)) * t).
  set (r1 := S1 / K). set (r2 := S2 / K).
  set (d21 := (np_log r1 + c) / sst - sst).
  set (d22 := (np_log r2 + c) / sst - sst).
  destruct (is_nan (norm_cdf d21)) eqn:P1; [discriminate|].
  destruct (is_nan (norm_cdf d22)) eqn:P2; [discriminate|].
  intros _ _.
  (* nothing on the way is a NaN *)
  pose proof (keeps_nan_arg _ _ Kcdf P1) as D1.
  pose proof (keeps_nan_arg _ _ Kcdf P2) as D2.
  pose proof (sub_nan_l _ _ D1) as Q1. pose proof (sub_nan_l _ _ D2) as Q2.
  pose proof (sub_nan_r _ _ D1) as Nsst.
  pose proof (div_nan_l _ _ Q1) as A1. pose proof (div_nan_l _ _ Q2) as A2.
  pose proof (add_nan_l _ _ A1) as L1. pose proof (add_nan_l _ _ A2) as L2.
  pose proof (keeps_nan_arg _ _ Klog L1) as R1.
  pose proof (keeps_nan_arg _ _ Klog L2) as R2.
  pose proof (div_nan_r _ _ R1) as NK.
  (* the divisors are positive *)
  assert (PK : (0 <? K) = true)
    by (apply not_leb_ltb; [exact NK | reflexivity | exact GK]).
  assert (Nsig : is_nan sigma = false).
  { destruct (is_nan sigma) eqn:E; [|reflexivity].
    assert (is_nan sst = true); [|congruence].
    unfold sst. rewrite (nan_unique sigma E).
    apply is_nan_bits. rewrite mul_spec. reflexivity. }
  assert (Psig : (0 <? sigma) = true)
    by (apply not_leb_ltb; [exact Nsig | reflexivity | exact Gs]).
  assert (Psst : (0 <? sst) = true).
  { apply pos_of_nonneg; [|exact Gz]. apply mul_sqrt_nonneg; assumption. }
  (* the chain *)
  apply np_clip_mono. apply Mcdf; [|assumption|assumption].
  apply sub_mono; [|assumption|assumption].
  apply div_mono; [|assumption|assumption|assumption].
  apply add_mono; [|assumption|assumption].
  apply Mlog; [|assumption|assumption].
  apply div_mono; assumption.
Qed.

Lemma pop_call_non_decreasing_witness :
  (pop_of tangent_log centred_line Call 100 5 100 0.2 30
   <=? pop_of tangent_log centred_line Call 100 5 110 0.2 30) = true.
Proof.
  apply (pop_call_non_decreasing tangent_log centred_line 100 5 0.2 30 100 110).
  - intros x y H Nx Ny. apply sub_mono; assumption.
  - reflexivity.
  - intros x y H Nx Ny. unfold centred_line in *.
    apply add_mono; [|assumption|assumption].
    apply div_mono; [exact H | reflexivity | |]; eapply add_nan_l; eassumption.
  - reflexivity.
  - reflexivity.
  - reflexivity.
  - reflexivity.
Defined.

End ProbabilityOfProfitInDoubles.

(** ** More on the ranked table *)

Section RankedTableMore.
Import Scipy Calculations OptionsLogic Spec Examples.

Lemma insert_sorted_rows (x : ScoredRow) l :
  Sorted (fun a b => score_before a b = true) l ->
  Sorted (fun a b => score_before a b = true) (insert_by score_before x l).
Proof.
  assert (Htot : forall a b, score_before a b = false -> score_before b a = true).
  { intros a b. unfold score_before, Rleb.
    destruct (Overall_Score a) as [|u]; destruct (Overall_Score b) as [|v];
      try discriminate; try reflexivity.
    destruct (Rle_dec v u); [discriminate|].
    destruct (Rle_dec u v); [reflexivity | lra]. }
  induction l as [|y t IH]; intro Hs; cbn.
  - repeat constructor.
  - destruct (score_before x y) eqn:E.
    + constructor; [exact Hs | constructor; exact E].
    + inversion Hs as [|? ? Hst Hhd]; subst.
      constructor; [apply IH; exact Hst|].
      destruct t as [|z t']; cbn.
      * constructor. apply Htot; exact E.
      * destruct (score_before x z); constructor.
        -- apply Htot; exact E.
        -- inversion Hhd; assumption.
Qed.

Lemma insert_rows_perm (x : ScoredRow) l :
  Permutation (x :: l) (insert_by score_before x l).
Proof.
  induction l as [|y t IH]; cbn; [reflexivity|].
  destruct (score_before x y); [reflexivity|].
  rewrite perm_swap. constructor. exact IH.
Qed.

Lemma score_before_trans a b c :
  score_before a b = true -> score_before b c = true ->
  score_before a c = true.
Proof.
  unfold score_before, Rleb.
  destruct (Overall_Score a) as [|u]; destruct (Overall_Score b) as [|v];
    destruct (Overall_Score c) as [|w]; try discriminate; try reflexivity.
  destruct (Rle_dec v u); [|discriminate]. destruct (Rle_dec w v); [|discriminate].
  destruct (Rle_dec w u); [reflexivity | lra].
Qed.

(** The table comes back in descending order of [Overall_Score] (rows
    without a score last), and it holds exactly one scored row for each
    row of the chain that passed the filters. *)
Theorem ranked_table_is_sorted df option_type S dte out :
  rank_options_logic df option_type S dte = Some out ->
  StronglySorted (fun a b => score_before a b = true) out
  /\ Permutation (score_frame option_type S dte (surviving df)) out
  /\ List.length out = List.length (surviving df)
  /\ forall i j x y,
       (i < j)%nat ->
       nth_error out i = Some x -> nth_error out j = Some y ->
       forall u v, Overall_Score x = Num u -> Overall_Score y = Num v ->
                   v <= u.
Proof.
  intro H.
  assert (E : out = sorted_by score_before
                      (score_frame option_type S dte (surviving df))).
  { unfold rank_options_logic in H. unfold surviving.
    destruct (filter required_cols_present df) as [|r0 df0];
      [injection H as <-; reflexivity|].
    destruct (hard_filters (r0 :: df0)) as [|r1 df1];
      [injection H as <-; reflexivity|].
    destruct option_type; try discriminate; congruence. }
  set (F := score_frame option_type S dte (surviving df)) in *.
  assert (HS : Sorted (fun a b => score_before a b = true) out).
  { rewrite E. unfold sorted_by. clearbody F. clear.
    induction F as [|x t IH]; cbn; [constructor|].
    apply insert_sorted_rows. exact IH. }
  assert (HP : Permutation F out).
  { rewrite E. unfold sorted_by. clearbody F. clear.
    induction F as [|x t IH]; cbn; [reflexivity|].
    rewrite <- insert_rows_perm. constructor. exact IH. }
  assert (HSS : StronglySorted (fun a b => score_before a b = true) out).
  { apply Sorted_StronglySorted; [|exact HS].
    intros a b c. apply score_before_trans. }
  split; [exact HSS|]. split; [exact HP|]. split.
  - rewrite <- (Permutation_length HP). unfold F, score_frame.
    apply length_map.
  - clear - HSS. induction HSS as [|a l Hl IH Hall]; intros i j x y Hij Hi Hj u v Hu Hv.
    + destruct i; discriminate.
    + destruct j as [|j]; [lia|]. cbn in Hj. destruct i as [|i].
      * cbn in Hi. injection Hi as ->.
        apply nth_error_In in Hj.
        rewrite Forall_forall in Hall. specialize (Hall y Hj).
        unfold score_before in Hall. rewrite Hu, Hv in Hall.
        apply Rleb_iff in Hall. exact Hall.
      * cbn in Hi. apply (IH i j x y); try assumption. lia.
Qed.

Lemma ranked_table_is_sorted_witness :
  exists out,
    rank_options_logic [quiet_row; wide_row] Call (Num 100) (Num 30) = Some out
    /\ StronglySorted (fun a b => score_before a b = true) out
    /\ List.length out = List.length (surviving [quiet_row; wide_row]).
Proof.
  destruct (rank_returns [quiet_row; wide_row] Call (Num 100) (Num 30))
    as (out & E); [discriminate|].
  exists out. split; [exact E|].
  destruct (ranked_table_is_sorted _ _ _ _ _ E) as (H1 & _ & H3 & _).
  split; assumption.
Defined.



End RankedTableMore.

(** ** More on the functions on binary64 *)

Section MoreInDoubles.
Import Calculations Calculations.InDoubles Examples.
Local Open Scope float_scope.








End MoreInDoubles.
